(** * Grid maze: generator, dead-end maintenance, traversal and the two
    search workers (maze.js, astar-worker.js, bfs-worker.js).

    The JavaScript program is embedded shallowly.  Numbers that the program
    only uses as integers are [Z]; the values of [Math.random()] and the
    difficulty constants are rationals ([Q]); arrays are lists (index 0 is
    the head); [Map] and [Set] objects keyed by the string [`${x},${y}`] are
    [gmap] and [gset] keyed by the pair [(x, y)], of which that string is an
    injective rendering.  A thrown [TypeError] is the result [Throw].
    Rendering, audio, timers and DOM updates are left out: they do not feed
    back into the grid, the agent, the score or the undo history. *)

From Stdlib Require Import ZArith QArith Qround Lia.
From stdpp Require Import base option list gmap strings.

Set Warnings "-register-all".
Local Open Scope Z_scope.

(** ** Results of running JavaScript code *)

(** [Ok a]: the code ran to its end and produced [a].  [Throw]: it raised
    (reading a property of [undefined] or [null]).  [OutOfFuel]: a loop of
    the model was cut off by its iteration bound; the theorems show that
    this does not happen. *)
Inductive Res (A : Type) : Type :=
  | Ok (a : A)
  | Throw
  | OutOfFuel.
Arguments Ok {A} a.
Arguments Throw {A}.
Arguments OutOfFuel {A}.

#[global] Instance Res_ret : MRet Res := λ A a, Ok a.
#[global] Instance Res_bind : MBind Res := λ A B f m,
  match m with
  | Ok a => f a
  | Throw => Throw
  | OutOfFuel => OutOfFuel
  end.

(** A property read or write on a value that may be [undefined]/[null]. *)
Definition deref {A} (o : option A) : Res A :=
  match o with
  | Some a => Ok a
  | None => Throw
  end.

(** [a[i]] on an array: [None] is [undefined]. *)
Definition arr_get {A} (a : list A) (i : Z) : option A :=
  if decide (0 ≤ i) then a !! Z.to_nat i else None.

(** [for (const a of l) s = f(s, a)], also [l.forEach]. *)
Fixpoint forEach {A S} (f : S → A → Res S) (l : list A) (s : S) : Res S :=
  match l with
  | [] => Ok s
  | a :: l' => s' ← f s a; forEach f l' s'
  end.

(** [[l[i], l[j]] = [l[j], l[i]]] for indices inside the array. *)
Definition swap {A} (l : list A) (i j : nat) : list A :=
  match l !! i, l !! j with
  | Some a, Some b => <[j:=a]> (<[i:=b]> l)
  | _, _ => l
  end.

Definition Qltb (a b : Q) : bool := negb (Qle_bool b a).

(** [Math.round]: the nearest integer, halves upwards. *)
Definition Math_round (q : Q) : Z := Qfloor (q + (1#2))%Q.

(** ** maze.js *)
Module Maze.

Inductive CellType := wall | path.

#[global] Instance CellType_eq_dec : EqDecision CellType.
Proof. solve_decision. Defined.

(** class MazeCell *)
Record MazeCell := mkCell {
  type : CellType;
  filled : bool;
  deadEnd : bool }.

Definition isPath (c : MazeCell) : bool := bool_decide (type c = path).

Abbreviation Grid := (list (list MazeCell)).

(** class Player, without the pixel coordinates used for drawing. *)
Record Player := mkPlayer { gridX : Z; gridY : Z }.

(** The [{x, y}] objects: [state.start], [state.end], [snapshot.filled]. *)
Record Point := mkPoint { px : Z; py : Z }.

(** An entry of [state.undoStack]: [{ prevX, prevY, filled }]. *)
Record Snapshot := mkSnapshot {
  prevX : Z;
  prevY : Z;
  snapFilled : option Point }.

(** The fields of [state] that the game rules read or write.  [None] is
    [null].  [undoStack] is in array order: the last element is the top. *)
Record State := mkState {
  cols : Z;
  rows : Z;
  maze : option Grid;
  player : option Player;
  start : option Point;
  end_ : option Point;
  originalPathCount : Z;
  visitedCount : Z;
  undoStack : list Snapshot;
  score : Z;
  highscore : Z }.

(** What a call reads from outside [state]: the reverse-mode checkbox, the
    difficulty selector, the seconds elapsed on the clock, the values that
    successive calls of [Math.random()] return, and whether
    [document.startViewTransition] is a function. *)
Record Env := mkEnv {
  revChecked : bool;
  difficulty : string;
  elapsedSec : Z;
  random : nat → Q;
  supportsViewTransition : bool }.

Definition set_cols (v : Z) (s : State) : State :=
  mkState v (rows s) (maze s) (player s) (start s) (end_ s)
    (originalPathCount s) (visitedCount s) (undoStack s) (score s) (highscore s).
Definition set_rows (v : Z) (s : State) : State :=
  mkState (cols s) v (maze s) (player s) (start s) (end_ s)
    (originalPathCount s) (visitedCount s) (undoStack s) (score s) (highscore s).
Definition set_maze (v : option Grid) (s : State) : State :=
  mkState (cols s) (rows s) v (player s) (start s) (end_ s)
    (originalPathCount s) (visitedCount s) (undoStack s) (score s) (highscore s).
Definition set_player (v : option Player) (s : State) : State :=
  mkState (cols s) (rows s) (maze s) v (start s) (end_ s)
    (originalPathCount s) (visitedCount s) (undoStack s) (score s) (highscore s).
Definition set_start (v : option Point) (s : State) : State :=
  mkState (cols s) (rows s) (maze s) (player s) v (end_ s)
    (originalPathCount s) (visitedCount s) (undoStack s) (score s) (highscore s).
Definition set_end (v : option Point) (s : State) : State :=
  mkState (cols s) (rows s) (maze s) (player s) (start s) v
    (originalPathCount s) (visitedCount s) (undoStack s) (score s) (highscore s).
Definition set_originalPathCount (v : Z) (s : State) : State :=
  mkState (cols s) (rows s) (maze s) (player s) (start s) (end_ s)
    v (visitedCount s) (undoStack s) (score s) (highscore s).
Definition set_visitedCount (v : Z) (s : State) : State :=
  mkState (cols s) (rows s) (maze s) (player s) (start s) (end_ s)
    (originalPathCount s) v (undoStack s) (score s) (highscore s).
Definition set_undoStack (v : list Snapshot) (s : State) : State :=
  mkState (cols s) (rows s) (maze s) (player s) (start s) (end_ s)
    (originalPathCount s) (visitedCount s) v (score s) (highscore s).
Definition set_score (v : Z) (s : State) : State :=
  mkState (cols s) (rows s) (maze s) (player s) (start s) (end_ s)
    (originalPathCount s) (visitedCount s) (undoStack s) v (highscore s).
Definition set_highscore (v : Z) (s : State) : State :=
  mkState (cols s) (rows s) (maze s) (player s) (start s) (end_ s)
    (originalPathCount s) (visitedCount s) (undoStack s) (score s) v.

(** [maze[y][x]]; the code always reads or writes a field of the result, so
    a missing row and a missing cell both end in a [TypeError]. *)
Definition getCell (m : Grid) (x y : Z) : option MazeCell :=
  row ← arr_get m y; arr_get row x.

(** [maze[y][x].field = v] *)
Definition updCell (f : MazeCell → MazeCell) (m : Grid) (x y : Z) : Res Grid :=
  _ ← deref (getCell m x y);
  Ok (alter (alter f (Z.to_nat x)) (Z.to_nat y) m).

Definition withType (t : CellType) (c : MazeCell) : MazeCell :=
  mkCell t (filled c) (deadEnd c).
Definition withFilled (b : bool) (c : MazeCell) : MazeCell :=
  mkCell (type c) b (deadEnd c).
Definition withDeadEnd (b : bool) (c : MazeCell) : MazeCell :=
  mkCell (type c) (filled c) b.

(** [state.maze[y][x]] and [state.maze[y][x].field = v] *)
Definition cellAt (st : State) (x y : Z) : Res MazeCell :=
  m ← deref (maze st); deref (getCell m x y).

Definition updAt (f : MazeCell → MazeCell) (st : State) (x y : Z) : Res State :=
  m ← deref (maze st);
  m' ← updCell f m x y;
  Ok (set_maze (Some m') st).

Definition inBounds (st : State) (x y : Z) : bool :=
  (0 <=? x) && (0 <=? y) && (x <? cols st) && (y <? rows st).

(** [state.start && x === state.start.x && y === state.start.y], as a
    condition; a [null] point makes it falsy. *)
Definition isPoint (p : option Point) (x y : Z) : bool :=
  match p with
  | Some q => (x =? px q) && (y =? py q)
  | None => false
  end.

Definition dirs4 : list (Z * Z) := [(1, 0); (-1, 0); (0, 1); (0, -1)].

(** The [forEach] of [recomputeAllDeadEnds]: neighbours inside the grid
    whose type is path. *)
Definition countPathNeighbors (st : State) (x y : Z) : Res Z :=
  forEach (λ count '(dx, dy),
    let nx := x + dx in
    let ny := y + dy in
    if inBounds st nx ny then
      c ← cellAt st nx ny;
      Ok (if isPath c then count + 1 else count)
    else Ok count) dirs4 0.

(** The body of the two nested loops of [recomputeAllDeadEnds]. *)
Definition recomputeAllCell (y : Z) (st : State) (x : Z) : Res State :=
  cell ← cellAt st x y;
  st ← updAt (withDeadEnd false) st x y;
  match type cell with
  | wall => Ok st
  | path =>
      let st := set_originalPathCount (originalPathCount st + 1) st in
      count ← countPathNeighbors st x y;
      let isStart := isPoint (start st) x y in
      let isEnd := isPoint (end_ st) x y in
      updAt (withDeadEnd ((count =? 1) && negb isStart && negb isEnd)) st x y
  end.

Definition recomputeAllDeadEnds (st : State) : Res State :=
  match maze st with
  | None => Ok st
  | Some _ =>
      let st := set_originalPathCount 0 st in
      forEach (λ st y, forEach (recomputeAllCell y) (seqZ 0 (cols st)) st)
        (seqZ 0 (rows st)) st
  end.

(** *** generateMazeIterative *)

(** The difficulty table of [generateMazeIterative]. *)
Record Preset := mkPreset { shuffle : Q; extra : Q; deadBoost : Q }.

Definition presetOf (d : string) : Preset :=
  if String.eqb d "easy" then mkPreset 0.25 0.02 0.9
  else if String.eqb d "normal" then mkPreset 0.45 0.04 1.0
  else if String.eqb d "hard" then mkPreset 0.65 0.06 1.2
  else if String.eqb d "cruel" then mkPreset 0.85 0.08 1.4
  else mkPreset 0.45 0.04 1.0.

Definition dirs2 : list (Z * Z) := [(2, 0); (-2, 0); (0, 2); (0, -2)].

(** The shuffle loop [for (i = dirs.length - 1; i > 0; i--)], from index
    [i] down; [k] counts the calls of [Math.random()] made so far. *)
Fixpoint shuffleFrom (rnd : nat → Q) (k : nat) (dirs : list (Z * Z)) (i : nat)
  : list (Z * Z) * nat :=
  match i with
  | O => (dirs, k)
  | S i' =>
      let j := Qfloor (rnd k * inject_Z (Z.of_nat i + 1))%Q in
      shuffleFrom rnd (S k) (swap dirs i (Z.to_nat j)) i'
  end.

(** The [for (const [dx, dy] of dirs)] loop with its [break]: the grid
    after carving and the room carved into, or [None] when no direction
    leads to a wall room. *)
Fixpoint tryCarve (cols rows : Z) (m : Grid) (cx cy : Z) (dirs : list (Z * Z))
  : Res (option (Grid * (Z * Z))) :=
  match dirs with
  | [] => Ok None
  | (dx, dy) :: ds =>
      let nx := cx + dx in
      let ny := cy + dy in
      if (0 <? nx) && (nx <? cols - 1) && (0 <? ny) && (ny <? rows - 1) then
        c ← deref (getCell m nx ny);
        match type c with
        | wall =>
            m ← updCell (withType path) m (cx + dx / 2) (cy + dy / 2);
            m ← updCell (withType path) m nx ny;
            Ok (Some (m, (nx, ny)))
        | path => tryCarve cols rows m cx cy ds
        end
      else tryCarve cols rows m cx cy ds
  end.

(** [while (stack.length)]; the stack is in array order, its top last. *)
Fixpoint carveLoop (fuel : nat) (rnd : nat → Q) (k : nat) (cols rows : Z)
    (m : Grid) (stack : list (Z * Z)) : Res (Grid * nat) :=
  match fuel with
  | O => OutOfFuel
  | S fuel' =>
      match last stack with
      | None => Ok (m, k)
      | Some (cx, cy) =>
          let '(dirs, k) := shuffleFrom rnd k dirs2 (length dirs2 - 1) in
          r ← tryCarve cols rows m cx cy dirs;
          match r with
          | Some (m, n) => carveLoop fuel' rnd k cols rows m (stack ++ [n])
          | None => carveLoop fuel' rnd k cols rows m (removelast stack)
          end
      end
  end.

(** [for (let i = 0; i < extra; i++)], [n] iterations left. *)
Fixpoint extraLoop (n : nat) (rnd : nat → Q) (k : nat) (cols rows : Z)
    (chance : Q) (m : Grid) : Res Grid :=
  match n with
  | O => Ok m
  | S n' =>
      let rx := 1 + Qfloor (rnd k * inject_Z (cols - 2))%Q in
      let ry := 1 + Qfloor (rnd (S k) * inject_Z (rows - 2))%Q in
      if Qltb (rnd (S (S k))) chance then
        m ← updCell (withType path) m rx ry;
        extraLoop n' rnd (3 + k) cols rows chance m
      else extraLoop n' rnd (3 + k) cols rows chance m
  end.

(** The carving loop runs at most twice per cell: an iteration either turns
    a wall room into a path or pops the stack. *)
Definition carveFuel (cols rows : Z) : nat := Z.to_nat (2 * cols * rows).

Definition generateMazeIterative (env : Env) (st : State) : Res State :=
  let st := if Z.rem (cols st) 2 =? 0 then set_cols (cols st + 1) st else st in
  let st := if Z.rem (rows st) 2 =? 0 then set_rows (rows st + 1) st else st in
  let m : Grid :=
    replicate (Z.to_nat (rows st))
      (replicate (Z.to_nat (cols st)) (mkCell wall false false)) in
  let sx := 1 in
  let sy := 1 in
  m ← updCell (withType path) m sx sy;
  let stack := [(sx, sy)] in
  let preset := presetOf (difficulty env) in
  '(m, k) ← carveLoop (carveFuel (cols st) (rows st)) (random env) 0
             (cols st) (rows st) m stack;
  let extra :=
    Qfloor (inject_Z (cols st) * inject_Z (rows st) * extra preset)%Q in
  m ← extraLoop (Z.to_nat extra) (random env) k (cols st) (rows st)
        (shuffle preset) m;
  let st := set_start (Some (mkPoint 1 1)) st in
  let st := set_end (Some (mkPoint (cols st - 2) (rows st - 2))) st in
  m ← updCell (withType path) m 1 1;
  m ← updCell (withType path) m (cols st - 2) (rows st - 2);
  let st := set_maze (Some m) st in
  st ← recomputeAllDeadEnds st;
  let st := set_player (Some (mkPlayer 1 1)) st in
  let st := set_visitedCount 1 st in
  let st := set_undoStack [] st in
  let st := set_score 0 st in
  Ok st.

(** *** Movement and game rules *)

Definition isWalkable (st : State) (x y : Z) : Res bool :=
  if negb (inBounds st x y) then Ok false
  else
    c ← cellAt st x y;
    Ok (isPath c && negb (filled c)).

Definition coords9 : list (Z * Z) :=
  [(0, 0); (1, 0); (-1, 0); (0, 1); (0, -1); (2, 0); (-2, 0); (0, 2); (0, -2)].

(** The inner [forEach] of [recomputeDeadendsNear]: neighbours inside the
    grid that are path and not filled. *)
Definition countOpenNeighbors (st : State) (nx ny : Z) : Res Z :=
  forEach (λ cnt '(ddx, ddy),
    let ax := nx + ddx in
    let ay := ny + ddy in
    if inBounds st ax ay then
      c ← cellAt st ax ay;
      Ok (if isPath c && negb (filled c) then cnt + 1 else cnt)
    else Ok cnt) dirs4 0.

(** The body of the loop of [recomputeDeadendsNear], at offset [(dx, dy)]. *)
Definition recomputeNearCell (x y : Z) (st : State) (d : Z * Z) : Res State :=
  let nx := x + d.1 in
  let ny := y + d.2 in
  if negb (inBounds st nx ny) then Ok st
  else
    c ← cellAt st nx ny;
    if negb (isPath c) || filled c then updAt (withDeadEnd false) st nx ny
    else
      cnt ← countOpenNeighbors st nx ny;
      let isStart := isPoint (start st) nx ny in
      let isEnd := isPoint (end_ st) nx ny in
      updAt (withDeadEnd ((cnt =? 1) && negb isStart && negb isEnd)) st nx ny.

Definition recomputeDeadendsNear (st : State) (x y : Z) : Res State :=
  forEach (recomputeNearCell x y) coords9 st.

(** The dead-end bonus table of [attemptMove]. *)
Definition bonusPreset (d : string) : Q :=
  if String.eqb d "easy" then 0.9
  else if String.eqb d "normal" then 1.0
  else if String.eqb d "hard" then 1.2
  else if String.eqb d "cruel" then 1.4
  else 1.0.

(** The callback that [checkCompletion] gives to [withViewTransition],
    by the [newW] and [newH] that it closes over. *)
Record Transition := mkTransition { newW : Z; newH : Z }.

(** The body of that callback, on the state and the outside values of the
    moment at which it is called. *)
Definition runTransition (env : Env) (t : Transition) (st : State) : Res State :=
  let st := set_maze None st in
  let st := set_cols (newW t) st in
  let st := set_rows (newH t) st in
  generateMazeIterative env st.

(** [withViewTransition] on that callback.  Where
    [document.startViewTransition] exists the callback is handed to the
    browser, which calls it only after the running handler has returned:
    the state is returned as it is, with the callback that is now
    pending.  Elsewhere the callback runs at once. *)
Definition withViewTransition (env : Env) (t : Transition) (st : State)
    : Res (State * option Transition) :=
  if supportsViewTransition env then Ok (st, Some t)
  else
    st ← runTransition env t st;
    Ok (st, None).

(** [checkCompletion]; the result is the state at the return and the
    callback left pending, if any. *)
Definition checkCompletion (env : Env) (st : State)
    : Res (State * option Transition) :=
  p ← deref (player st);
  e ← deref (end_ st);
  if (gridX p =? px e) && (gridY p =? py e) then
    let timePenalty := elapsedSec env * 1 in
    let finishBonus := Z.max 0 (100 - timePenalty) in
    let st := set_score (score st + finishBonus) st in
    let st := if highscore st <? score st
              then set_highscore (score st) st else st in
    let newW := Z.min 51 (cols st + 2) in
    let newH := Z.min 51 (rows st + 2) in
    withViewTransition env (mkTransition newW newH) st
  else Ok (st, None).

(** The snapshot that [attemptMove] pushes: the departed cell is recorded
    as the one to fill unless reverse mode is on or it is not an unfilled
    path cell. *)
Definition takeSnapshot (env : Env) (st : State) (prevX prevY : Z)
  : Res Snapshot :=
  let willFill := negb (revChecked env) in
  toFill ←
    (if willFill then
       c ← cellAt st prevX prevY;
       Ok (if isPath c && negb (filled c)
           then Some (mkPoint prevX prevY) else None)
     else Ok None);
  Ok (mkSnapshot prevX prevY toFill).

(** The block [if (cell.deadEnd && !(start) && !(end))] of [attemptMove]:
    the bonus is added and the flag of the entered cell cleared. *)
Definition awardDeadEnd (env : Env) (st : State) (nx ny : Z) : Res State :=
  cell ← cellAt st nx ny;
  if deadEnd cell then
    s ← deref (start st);
    if negb ((nx =? px s) && (ny =? py s)) then
      e ← deref (end_ st);
      if negb ((nx =? px e) && (ny =? py e)) then
        let bonus := Math_round (10 * bonusPreset (difficulty env))%Q in
        let st := set_score (score st + bonus) st in
        updAt (withDeadEnd false) st nx ny
      else Ok st
    else Ok st
  else Ok st.

(** The blocks [if (snapshot.filled)] of [attemptMove] ([b] is [true]) and
    [if (last.filled)] of [undo] ([b] is [false]): the flag is written and
    the dead ends around the cell are recomputed. *)
Definition refill (b : bool) (st : State) (f : option Point) : Res State :=
  match f with
  | Some f =>
      st ← updAt (withFilled b) st (px f) (py f);
      recomputeDeadendsNear st (px f) (py f)
  | None => Ok st
  end.

Definition attemptMove (env : Env) (st : State) (dx dy : Z)
    : Res (State * option Transition) :=
  p ← deref (player st);
  let nx := gridX p + dx in
  let ny := gridY p + dy in
  w ← isWalkable st nx ny;
  if negb w then Ok (st, None)
  else
    let prevX := gridX p in
    let prevY := gridY p in
    snapshot ← takeSnapshot env st prevX prevY;
    let st := set_undoStack (undoStack st ++ [snapshot]) st in
    let st := set_player (Some (mkPlayer nx ny)) st in
    let st := set_visitedCount (visitedCount st + 1) st in
    let st := set_score (score st + 1) st in
    st ← awardDeadEnd env st nx ny;
    st ← refill true st (snapFilled snapshot);
    checkCompletion env st.

(** [undo]; [last] and [removelast] are [state.undoStack.pop()]. *)
Definition undo (st : State) : Res State :=
  match last (undoStack st) with
  | None => Ok st
  | Some lastSnap =>
      let st := set_undoStack (removelast (undoStack st)) st in
      st ← refill false st (snapFilled lastSnap);
      _ ← deref (player st);
      Ok (set_player (Some (mkPlayer (prevX lastSnap) (prevY lastSnap))) st)
  end.

End Maze.

(** What a worker sends back: nothing (the command is not its own), or one
    [{ cmd: "result", path }] message; [None] is a [null] path. *)
Inductive Reply :=
  | NoReply
  | Posted (path : option (list (Z * Z))).

(** ** astar-worker.js *)
Module AStar.

(** The [{x, y}] objects [start], [end] and the neighbours. *)
Record Point := mkPoint { x : Z; y : Z }.

(** [event.data]; [None] is a field that the message lacks. *)
Record Request := mkRequest {
  cmd : string;
  grid : option (list (list Z));
  cols : Z;
  rows : Z;
  start : option Point;
  end_ : option Point }.

(** The frontier entries [{ x, y, g, f, prev }]. *)
Inductive Node := mkNode (nx ny g f : Z) (prev : option Node).

Definition node_x (n : Node) : Z := let '(mkNode x _ _ _ _) := n in x.
Definition node_y (n : Node) : Z := let '(mkNode _ y _ _ _) := n in y.
Definition node_g (n : Node) : Z := let '(mkNode _ _ g _ _) := n in g.
Definition node_f (n : Node) : Z := let '(mkNode _ _ _ f _) := n in f.
Definition node_prev (n : Node) : option Node := let '(mkNode _ _ _ _ p) := n in p.

Definition key (x y : Z) : Z * Z := (x, y).

Definition h (a b : Point) : Z := Z.abs (x a - x b) + Z.abs (y a - y b).

(** The four pushes of [neighbors], before the filter. *)
Definition candidates (cols rows x y : Z) : list Point :=
  (if 0 <? x then [mkPoint (x - 1) y] else []) ++
  (if x <? cols - 1 then [mkPoint (x + 1) y] else []) ++
  (if 0 <? y then [mkPoint x (y - 1)] else []) ++
  (if y <? rows - 1 then [mkPoint x (y + 1)] else []).

(** [grid[n.y][n.x] === 1]: a missing grid or row raises, a missing cell is
    [undefined] and compares false. *)
Definition walkableAt (grid : option (list (list Z))) (px py : Z) : Res bool :=
  g ← deref grid;
  row ← deref (arr_get g py);
  Ok (match arr_get row px with
      | Some v => v =? 1
      | None => false
      end).

(** [res.filter(...)] *)
Fixpoint filterWalkable (grid : option (list (list Z))) (l : list Point)
  : Res (list Point) :=
  match l with
  | [] => Ok []
  | n :: l' =>
      keep ← walkableAt grid (x n) (y n);
      rest ← filterWalkable grid l';
      Ok (if keep : bool then n :: rest else rest)
  end.

Definition neighbors (req : Request) (x y : Z) : Res (list Point) :=
  filterWalkable (grid req) (candidates (cols req) (rows req) x y).

(** *** class PQ: a binary min-heap on [f], stored in the array [a] *)

(** The sift-up loop of [push], from index [i]; the index at least halves
    in an iteration, so [i] iterations are enough. *)
Fixpoint siftUp (fuel : nat) (a : list Node) (i : nat) : list Node :=
  match fuel with
  | O => a
  | S fuel' =>
      if (0 <? i)%nat then
        let p := ((i - 1) / 2)%nat in
        match a !! i, a !! p with
        | Some ai, Some ap =>
            if node_f ai <? node_f ap then siftUp fuel' (swap a i p) p else a
        | _, _ => a
        end
      else a
  end.

Definition push (a : list Node) (item : Node) : list Node :=
  let a := a ++ [item] in
  siftUp (length a) a (length a - 1).

(** The smaller of [a[m]] and [a[c]], for a child index [c] that may lie
    outside the array. *)
Definition pickMin (a : list Node) (c m : nat) : nat :=
  match a !! c, a !! m with
  | Some ac, Some am => if node_f ac <? node_f am then c else m
  | _, _ => m
  end.

(** The sift-down loop of [pop], from index [i]; the index grows in an
    iteration, so [length a] iterations are enough. *)
Fixpoint siftDown (fuel : nat) (a : list Node) (i : nat) : list Node :=
  match fuel with
  | O => a
  | S fuel' =>
      let l := (i * 2 + 1)%nat in
      let r_ := (l + 1)%nat in
      let m := i in
      let m := pickMin a l m in
      let m := pickMin a r_ m in
      if (m =? i)%nat then a else siftDown fuel' (swap a i m) m
  end.

(** [pop]: the removed root and the array left; [None] on an empty heap. *)
Definition pop (a : list Node) : option (Node * list Node) :=
  match a with
  | [] => None
  | r :: _ =>
      match last a with
      | None => None
      | Some lastItem =>
          let a := removelast a in
          match a with
          | [] => Some (r, a)
          | _ :: _ =>
              let a := <[0%nat:=lastItem]> a in
              Some (r, siftDown (length a) a 0)
          end
      end
  end.

(** The path collected from [cur] along [prev], before [reverse]. *)
Fixpoint nodePath (n : Node) : list (Z * Z) :=
  match n with
  | mkNode x y _ _ p =>
      (x, y) :: match p with
                | None => []
                | Some m => nodePath m
                end
  end.

(** The body of [for (const nb of neighbors(cur.x, cur.y))]. *)
Definition relax (endp : Point) (cur : Node)
    (s : gmap (Z * Z) Node * list Node) (nb : Point)
  : gmap (Z * Z) Node * list Node :=
  let '(open, pq) := s in
  let ng := node_g cur + 1 in
  let k := key (x nb) (y nb) in
  let nf := ng + h nb endp in
  let better :=
    match open !! k with
    | None => true
    | Some existing => ng <? node_g existing
    end in
  if better then
    let node := mkNode (x nb) (y nb) ng nf (Some cur) in
    (<[k:=node]> open, push pq node)
  else (open, pq).

(** [while (pq.size() && steps++ < MAX_STEPS)] with [budget] iterations
    left; [n] counts the nodes popped so far, and is returned with the
    reply. *)
Fixpoint searchLoop (budget : nat) (req : Request) (endp : Point)
    (open : gmap (Z * Z) Node) (pq : list Node) (n : nat) : Res (Reply * nat) :=
  match budget with
  | O => Ok (Posted None, n)
  | S budget' =>
      match pop pq with
      | None => Ok (Posted None, n)
      | Some (cur, pq) =>
          if (node_x cur =? x endp) && (node_y cur =? y endp) then
            Ok (Posted (Some (rev (nodePath cur))), S n)
          else
            nbs ← neighbors req (node_x cur) (node_y cur);
            let '(open, pq) := foldl (relax endp cur) (open, pq) nbs in
            searchLoop budget' req endp open pq (S n)
      end
  end.

(** [self.onmessage]: the reply and the number of nodes popped. *)
Definition onmessage (req : Request) : Res (Reply * nat) :=
  if negb (String.eqb (cmd req) "astar") then Ok (NoReply, O)
  else
    s ← deref (start req);
    e ← deref (end_ req);
    let startNode := mkNode (x s) (y s) 0 (h s e) None in
    let open : gmap (Z * Z) Node := <[key (x s) (y s):=startNode]> ∅ in
    let pq := push [] startNode in
    let MAX_STEPS := cols req * rows req * 10 in
    searchLoop (Z.to_nat MAX_STEPS) req e open pq O.

End AStar.

(** ** bfs-worker.js *)
Module Bfs.

Record Point := mkPoint { x : Z; y : Z }.

(** [e.data]; [deadEnds] holds the targets as [[x, y]] arrays. *)
Record Request := mkRequest {
  cmd : string;
  grid : option (list (list Z));
  cols : Z;
  rows : Z;
  start : option Point;
  deadEnds : option (list (Z * Z)) }.

Definition key (x y : Z) : Z * Z := (x, y).

Definition candidates (cols rows x y : Z) : list (Z * Z) :=
  (if 0 <? x then [(x - 1, y)] else []) ++
  (if x <? cols - 1 then [(x + 1, y)] else []) ++
  (if 0 <? y then [(x, y - 1)] else []) ++
  (if y <? rows - 1 then [(x, y + 1)] else []).

(** [grid[ny][nx] === 1] on the grid that passed the guard. *)
Definition walkableAt (grid : list (list Z)) (nx ny : Z) : Res bool :=
  row ← deref (arr_get grid ny);
  Ok (match arr_get row nx with
      | Some v => v =? 1
      | None => false
      end).

Fixpoint filterWalkable (grid : list (list Z)) (l : list (Z * Z))
  : Res (list (Z * Z)) :=
  match l with
  | [] => Ok []
  | (nx, ny) :: l' =>
      keep ← walkableAt grid nx ny;
      rest ← filterWalkable grid l';
      Ok (if keep : bool then (nx, ny) :: rest else rest)
  end.

Definition neighbors (grid : list (list Z)) (cols rows x y : Z)
  : Res (list (Z * Z)) :=
  filterWalkable grid (candidates cols rows x y).

(** The search state: the queue (front first), [visited] and [parent]. *)
Record Search := mkSearch {
  q : list (Z * Z);
  visited : gset (Z * Z);
  parent : gmap (Z * Z) (option (Z * Z)) }.

(** [while (cur) { path.push(...); cur = parent.get(cur); }] *)
Fixpoint reconstruct (fuel : nat) (parent : gmap (Z * Z) (option (Z * Z)))
    (cur : option (Z * Z)) : Res (list (Z * Z)) :=
  match cur with
  | None => Ok []
  | Some c =>
      match fuel with
      | O => OutOfFuel
      | S fuel' =>
          rest ← reconstruct fuel' parent (default None (parent !! c));
          Ok (c :: rest)
      end
  end.

(** The body of [for (const [nx, ny] of neighbors(cx, cy))]. *)
Definition visit (k : Z * Z) (s : Search) (n : Z * Z) : Search :=
  let nk := key n.1 n.2 in
  if decide (nk ∈ visited s) then s
  else mkSearch (q s ++ [n]) ({[nk]} ∪ visited s) (<[nk:=Some k]> (parent s)).

(** [while (q.length)]; [fuel] bounds the iterations of this loop and of
    the path reconstruction, [n] counts the dequeues made so far. *)
Fixpoint searchLoop (fuel fuel0 : nat) (grid : list (list Z)) (cols rows : Z)
    (deadSet : gset (Z * Z)) (s : Search) (n : nat) : Res (Reply * nat) :=
  match q s with
  | [] => Ok (Posted None, n)
  | (cx, cy) :: rest =>
      match fuel with
      | O => OutOfFuel
      | S fuel' =>
          let k := key cx cy in
          if decide (k ∈ deadSet) then
            path ← reconstruct fuel0 (parent s) (Some k);
            Ok (Posted (Some (rev path)), S n)
          else
            nbs ← neighbors grid cols rows cx cy;
            let s := foldl (visit k) (mkSearch rest (visited s) (parent s)) nbs in
            searchLoop fuel' fuel0 grid cols rows deadSet s (S n)
      end
  end.

(** [self.onmessage]: the reply and the number of dequeues. *)
Definition onmessage (fuel : nat) (req : Request) : Res (Reply * nat) :=
  if negb (String.eqb (cmd req) "bfs-deadend") then Ok (NoReply, O)
  else
    let deadSet : gset (Z * Z) :=
      list_to_set ((λ '(x, y), key x y) <$> default [] (deadEnds req)) in
    match grid req, start req with
    | Some grid, Some start =>
        let k := key (x start) (y start) in
        let s := mkSearch [(x start, y start)] {[k]} (<[k:=None]> ∅) in
        searchLoop fuel fuel grid (cols req) (rows req) deadSet s O
    | _, _ => Ok (Posted None, O)
    end.

End Bfs.

(** ** maze.js: progress, reset, the hint handlers and the keyboard *)
Module MazeUI.
Import Maze.

(** [currentPathCount]: the path cells that are not filled. *)
Definition currentPathCount (st : State) : Res Z :=
  forEach (λ c y,
    forEach (λ c x,
      cell ← cellAt st x y;
      Ok (if isPath cell && negb (filled cell) then c + 1 else c))
      (seqZ 0 (cols st)) c)
    (seqZ 0 (rows st)) 0.

(** The body of the two loops of [resetCurrentMaze]. *)
Definition clearCell (c : MazeCell) : MazeCell := mkCell (type c) false false.

(** [resetCurrentMaze]; its loops run over the lengths of the arrays
    themselves. *)
Definition resetCurrentMaze (st : State) : Res State :=
  match maze st with
  | None => Ok st
  | Some m =>
      let m' : Grid := (λ row : list MazeCell, clearCell <$> row) <$> m in
      let st := set_maze (Some m') st in
      st ← recomputeAllDeadEnds st;
      s ← deref (start st);
      let st := set_player (Some (mkPlayer (px s) (py s))) st in
      let st := set_visitedCount 1 st in
      let st := set_undoStack [] st in
      let st := set_score 0 st in
      Ok st
  end.

(** [keyToDir] *)
Definition keyToDir (k : string) : option (Z * Z) :=
  if String.eqb k "ArrowUp" || String.eqb k "w" || String.eqb k "W"
  then Some (0, -1)
  else if String.eqb k "ArrowDown" || String.eqb k "s" || String.eqb k "S"
  then Some (0, 1)
  else if String.eqb k "ArrowLeft" || String.eqb k "a" || String.eqb k "A"
  then Some (-1, 0)
  else if String.eqb k "ArrowRight" || String.eqb k "d" || String.eqb k "D"
  then Some (1, 0)
  else None.

(** The direction that the interval behind [holdInterval] repeats, if one
    is running. *)
Definition Hold : Type := option (Z * Z).

(** The [keydown] listener, on [e.key]; beside the state and the held
    direction the result names the callback that [attemptMove] left
    pending, if any. *)
Definition keydown (env : Env) (st : State) (hold : Hold) (k : string)
    : Res (State * Hold * option Transition) :=
  '(st, hold, pending) ←
    match keyToDir k with
    | Some (dx, dy) =>
        '(st, pending) ← attemptMove env st dx dy;
        Ok (st, Some (dx, dy), pending)
    | None => Ok (st, hold, None)
    end;
  st ← (if String.eqb k "u" || String.eqb k "U" then undo st else Ok st);
  Ok (st, hold, pending).

(** The [keyup] listener. *)
Definition keyup (hold : Hold) (k : string) : Hold :=
  match keyToDir k with
  | Some _ => None
  | None => hold
  end.

(** The callback of the interval set by [keydown]. *)
Definition holdTick (env : Env) (st : State) (hold : Hold)
    : Res (State * option Transition) :=
  match hold with
  | Some (dx, dy) => attemptMove env st dx dy
  | None => Ok (st, None)
  end.

(** [cell.type === "path" && !cell.filled ? 1 : 0] *)
Definition walkNumber (cell : MazeCell) : Z :=
  if isPath cell && negb (filled cell) then 1 else 0.

(** A row of the grid that the hint handlers send: [new Array(state.cols)]
    raises a [RangeError] on a negative length; the cells are written in
    index order. *)
Definition hintRow (st : State) (y : Z) : Res (list Z) :=
  if cols st <? 0 then Throw
  else
    forEach (λ row x, cell ← cellAt st x y; Ok (row ++ [walkNumber cell]))
      (seqZ 0 (cols st)) [].

(** The click listener of the hint button: the message posted to the A*
    worker. *)
Definition astarHintClick (st : State) : Res AStar.Request :=
  out ← forEach (λ out y, row ← hintRow st y; Ok (out ++ [row]))
          (seqZ 0 (rows st)) [];
  p ← deref (player st);
  e ← deref (end_ st);
  Ok (AStar.mkRequest "astar" (Some out) (cols st) (rows st)
        (Some (AStar.mkPoint (gridX p) (gridY p)))
        (Some (AStar.mkPoint (px e) (py e)))).

(** [astarWorker.onmessage]: the new value of [state.hintPath]. *)
Definition astarOnReply (hintPath : option (list (Z * Z))) (r : Reply)
  : option (list (Z * Z)) :=
  match r with
  | NoReply => hintPath
  | Posted p => p
  end.

(** The inner loop body of the click listener of the dead-end hint button:
    the row and the target list after the cell at [(x, y)]. *)
Definition deadHintCell (st : State) (y : Z)
    (acc : list Z * list (Z * Z)) (x : Z) : Res (list Z * list (Z * Z)) :=
  let '(row, deadEnds) := acc in
  cell ← cellAt st x y;
  let walkable := isPath cell && negb (filled cell) in
  let row := row ++ [if walkable then 1 else 0] in
  if walkable && deadEnd cell then
    p ← deref (player st);
    if negb ((x =? gridX p) && (y =? gridY p))
    then Ok (row, deadEnds ++ [(x, y)])
    else Ok (row, deadEnds)
  else Ok (row, deadEnds).

(** The click listener of the dead-end hint button: the message posted to
    the BFS worker, or [None] when it returns without posting. *)
Definition deadHintClick (st : State) : Res (option Bfs.Request) :=
  '(grid, deadEnds) ←
    forEach (λ '(grid, deadEnds) y,
      if cols st <? 0 then Throw
      else
        '(row, deadEnds) ←
          forEach (deadHintCell st y) (seqZ 0 (cols st)) ([], deadEnds);
        Ok (grid ++ [row], deadEnds))
      (seqZ 0 (rows st)) ([], []);
  if (length deadEnds =? 0)%nat then Ok None
  else
    p ← deref (player st);
    Ok (Some (Bfs.mkRequest "bfs-deadend" (Some grid) (cols st) (rows st)
                (Some (Bfs.mkPoint (gridX p) (gridY p))) (Some deadEnds))).

(** [bfsWorker.onmessage]: the new value of [state.hintPath]; a [null]
    path and a path of fewer than two cells clear the hint. *)
Definition deadHintReply (hintPath : option (list (Z * Z))) (r : Reply)
  : option (list (Z * Z)) :=
  match r with
  | NoReply => hintPath
  | Posted None => None
  | Posted (Some p) => if (length p <? 2)%nat then None else Some p
  end.

End MazeUI.

(** * Specification-level definitions *)

Import Maze.

Module MazeSpec.
Import Maze.

(** A grid of [rows] rows of [cols] cells each. *)
Definition gridSized (cols rows : Z) (m : Grid) : Prop :=
  length m = Z.to_nat rows ∧ Forall (λ row, length row = Z.to_nat cols) m.

(** Walkable cell: inside the grid, path, not filled. *)
Definition walkableB (st : State) (m : Grid) (x y : Z) : bool :=
  inBounds st x y &&
  match getCell m x y with
  | Some c => isPath c && negb (filled c)
  | None => false
  end.

(** How many elements of a list satisfy a test. *)
Fixpoint countIf {A} (P : A → bool) (l : list A) : Z :=
  match l with
  | [] => 0
  | a :: l' => (if P a then 1 else 0) + countIf P l'
  end.

(** Number of walkable 4-neighbours. *)
Definition openCount (st : State) (m : Grid) (x y : Z) : Z :=
  countIf (λ d : Z * Z, walkableB st m (x + d.1) (y + d.2)) dirs4.

(** The dead-end definition: path, not filled, exactly one walkable
    4-neighbour, neither Start nor End. *)
Definition isDeadEndDef (st : State) (m : Grid) (x y : Z) : bool :=
  walkableB st m x y && (openCount st m x y =? 1)
  && negb (isPoint (start st) x y) && negb (isPoint (end_ st) x y).

(** Every cell's [deadEnd] flag agrees with the definition. *)
Definition deadEndsCorrect (st : State) : Prop :=
  ∃ m, maze st = Some m ∧
    ∀ x y c, inBounds st x y = true → getCell m x y = Some c →
      deadEnd c = isDeadEndDef st m x y.

End MazeSpec.

Import MazeSpec.

(** The grid after the loop body of the local recompute at one cell. *)
Definition nearCellGrid (st : State) (m : Grid) (nx ny : Z) : Grid :=
  if inBounds st nx ny then
    alter (alter (withDeadEnd (isDeadEndDef st m nx ny)) (Z.to_nat nx)) (Z.to_nat ny) m
  else m.

(** Two grids with the same cell types and filled flags. *)
Definition sameShape (m m' : Grid) : Prop :=
  ∀ x y, (λ c, (type c, filled c)) <$> getCell m x y
       = (λ c, (type c, filled c)) <$> getCell m' x y.

(** Path cell inside the grid, filled or not. *)
Definition pathB (st : State) (m : Grid) (x y : Z) : bool :=
  inBounds st x y &&
  match getCell m x y with
  | Some c => isPath c
  | None => false
  end.

Definition pathCount (st : State) (m : Grid) (x y : Z) : Z :=
  countIf (λ d : Z * Z, pathB st m (x + d.1) (y + d.2)) dirs4.

(** What [recomputeAllDeadEnds] stores in a cell: it looks at cell types
    only. *)
Definition fullDef (st : State) (m : Grid) (x y : Z) : bool :=
  pathB st m x y && (pathCount st m x y =? 1)
  && negb (isPoint (start st) x y) && negb (isPoint (end_ st) x y).

(** Two states that differ at most in the grid and the path counter. *)
Definition sameFrame (st st' : State) : Prop :=
  cols st = cols st' ∧ rows st = rows st' ∧ player st = player st'
  ∧ start st = start st' ∧ end_ st = end_ st'
  ∧ visitedCount st = visitedCount st' ∧ undoStack st = undoStack st'
  ∧ score st = score st' ∧ highscore st = highscore st'.

(** The facts about a state that the game rules rely on: a sized grid, an
    agent inside it, and the two end points. *)
Record gameState (st : State) (m : Grid) (p : Player) (s e : Point) : Prop := {
  gs_maze : maze st = Some m;
  gs_sized : gridSized (cols st) (rows st) m;
  gs_player : player st = Some p;
  gs_inside : inBounds st (gridX p) (gridY p) = true;
  gs_start : start st = Some s;
  gs_end : end_ st = Some e }.

Definition atPoint (q : Point) (x y : Z) : bool := (x =? px q) && (y =? py q).

(** Score added by a move: one point, plus the dead-end bonus. *)
Definition moveGain (env : Env) (hit : bool) : Z :=
  1 + (if hit then Math_round (10 * bonusPreset (difficulty env))%Q else 0).

(** The grid after the bonus block of a move into [(nx, ny)]. *)
Definition bonusGrid (hit : bool) (m : Grid) (nx ny : Z) : Grid :=
  if hit then alter (alter (withDeadEnd false) (Z.to_nat nx)) (Z.to_nat ny) m
  else m.

(** The move takes the dead-end bonus: its destination carries the
    dead-end flag and is neither Start nor End. *)
Definition takesBonus (m : Grid) (s e : Point) (x y : Z) : bool :=
  match getCell m x y with
  | Some c => deadEnd c && negb (atPoint s x y) && negb (atPoint e x y)
  | None => false
  end.

(** The move fills the cell that the agent leaves: reverse mode is off and
    that cell is a path cell that is not filled. *)
Definition fillsDeparted (env : Env) (st : State) (m : Grid) (p : Player) : bool :=
  negb (revChecked env) && walkableB st m (gridX p) (gridY p).

(** The dead-end flags of the cells that a recompute around [(x, y)] writes
    agree with the definition. *)
Definition flagsNear (st : State) (m : Grid) (x y : Z) : Prop :=
  ∀ cx cy c, inBounds st cx cy = true → (cx - x, cy - y) ∈ coords9 →
    getCell m cx cy = Some c → deadEnd c = isDeadEndDef st m cx cy.

Definition cW : MazeCell := mkCell wall false false.
Definition cP : MazeCell := mkCell path false false.
Definition cD : MazeCell := mkCell path false true.
Definition cF : MazeCell := mkCell path true false.

(** A T-shaped maze: Start (1,1), End (3,1), a dead end at (2,3). *)
Definition tGrid : Grid :=
  [ [cW; cW; cW; cW; cW];
    [cW; cP; cP; cP; cW];
    [cW; cW; cP; cW; cW];
    [cW; cW; cD; cW; cW];
    [cW; cW; cW; cW; cW] ].

(** The agent has walked from Start to (2,2) in reverse mode. *)
Definition tState : State :=
  mkState 5 5 (Some tGrid) (Some (mkPlayer 2 2))
    (Some (mkPoint 1 1)) (Some (mkPoint 3 1)) 5 3
    [mkSnapshot 1 1 None; mkSnapshot 2 1 None] 2 0.

(** Outside values: normal difficulty, no time elapsed, [Math.random()]
    always 0, no [document.startViewTransition]. *)
Definition envWith (rev : bool) : Env := mkEnv rev "normal" 0 (λ _, 0%Q) false.

(** The same where [document.startViewTransition] exists. *)
Definition envDeferring (rev : bool) : Env :=
  mkEnv rev "normal" 0 (λ _, 0%Q) true.

(** The same maze after the agent left Start in normal mode: (1,1) is
    filled. *)
Definition tGridFilled : Grid :=
  [ [cW; cW; cW; cW; cW];
    [cW; cF; cP; cP; cW];
    [cW; cW; cP; cW; cW];
    [cW; cW; cD; cW; cW];
    [cW; cW; cW; cW; cW] ].

Definition tStateFilled : State :=
  mkState 5 5 (Some tGridFilled) (Some (mkPlayer 2 1))
    (Some (mkPoint 1 1)) (Some (mkPoint 3 1)) 5 2
    [mkSnapshot 1 1 (Some (mkPoint 1 1))] 1 0.

(** A corridor from Start (1,1) to End (5,1); the agent has made its first
    move in normal mode, so Start is filled. *)
Definition corridorGrid : Grid :=
  [ [cW; cW; cW; cW; cW; cW; cW];
    [cW; cF; cP; cP; cP; cP; cW];
    [cW; cW; cW; cW; cW; cW; cW] ].

Definition corridorState : State :=
  mkState 7 3 (Some corridorGrid) (Some (mkPlayer 2 1))
    (Some (mkPoint 1 1)) (Some (mkPoint 5 1)) 5 2
    [mkSnapshot 1 1 (Some (mkPoint 1 1))] 1 0.

(** A path cell of the grid, whatever its filled flag. *)
Definition isPathAt (m : Grid) (a : Z * Z) : Prop :=
  ∃ c, getCell m a.1 a.2 = Some c ∧ type c = path.

Definition adjacent (a b : Z * Z) : Prop :=
  Z.abs (a.1 - b.1) + Z.abs (a.2 - b.2) = 1.

(** [reach m a b]: a walk from [a] to [b] over path cells, each step to a
    4-neighbour. *)
Inductive reach (m : Grid) (a : Z * Z) : Z * Z → Prop :=
  | reach_here : isPathAt m a → reach m a a
  | reach_step b c : reach m a b → adjacent b c → isPathAt m c → reach m a c.

(** The values of [Math.random()] lie in [0, 1). *)
Definition rnd_ok (rnd : nat → Q) : Prop :=
  ∀ n, (0 <= rnd n)%Q ∧ (rnd n < 1)%Q.

(** A room of the odd sub-lattice of a [C] by [R] grid. *)
Definition isRoom (C R : Z) (a : Z * Z) : Prop :=
  0 < a.1 < C - 1 ∧ 0 < a.2 < R - 1 ∧ Z.odd a.1 = true ∧ Z.odd a.2 = true.

Definition wallWeight (c : MazeCell) : nat :=
  match type c with wall => 1 | path => 0 end.

Definition total {A} (w : A → nat) (l : list A) : nat := sum_list (w <$> l).

Definition wallCount (m : Grid) : nat := total (total wallWeight) m.

(** Every cell is as the generator creates it: not filled, not flagged. *)
Definition pristine (m : Grid) : Prop :=
  Forall (Forall (λ c, filled c = false ∧ deadEnd c = false)) m.

(** The invariant of the carving loop. *)
Record carveInv (C R : Z) (m : Grid) (stack : list (Z * Z)) : Prop := {
  ci_sized : gridSized C R m;
  ci_pristine : pristine m;
  ci_stack : ∀ a, a ∈ stack → isRoom C R a ∧ isPathAt m a;
  ci_conn : ∀ a, isPathAt m a → reach m (1, 1) a;
  ci_done : ∀ a d, isRoom C R a → isPathAt m a → a ∉ stack → d ∈ dirs2 →
            isRoom C R (a.1 + d.1, a.2 + d.2) → isPathAt m (a.1 + d.1, a.2 + d.2);
  ci_start : isPathAt m (1, 1) }.

(** The grid after carving from [(cx, cy)] in direction [d]. *)
Definition carved (m : Grid) (cx cy : Z) (d : Z * Z) : Grid :=
  alter (alter (withType path) (Z.to_nat (cx + d.1))) (Z.to_nat (cy + d.2))
    (alter (alter (withType path) (Z.to_nat (cx + d.1 / 2)))
       (Z.to_nat (cy + d.2 / 2)) m).

(** [cols] after [if (state.cols % 2 === 0) state.cols++]. *)
Definition oddify (c : Z) : Z := if Z.rem c 2 =? 0 then c + 1 else c.

(** What the generator leaves behind. *)
Record freshState (st : State) (m : Grid) : Prop := {
  fs_cols : 3 ≤ cols st;
  fs_rows : 3 ≤ rows st;
  fs_maze : maze st = Some m;
  fs_sized : gridSized (cols st) (rows st) m;
  fs_player : player st = Some (mkPlayer 1 1);
  fs_start : start st = Some (mkPoint 1 1);
  fs_end : end_ st = Some (mkPoint (cols st - 2) (rows st - 2));
  fs_stack : undoStack st = [];
  fs_unfilled : Forall (Forall (λ c, filled c = false)) m;
  fs_flags : deadEndsCorrect st;
  fs_startPath : isPathAt m (1, 1);
  fs_reach : reach m (1, 1) (cols st - 2, rows st - 2) }.

Definition blankState (c r : Z) : State :=
  mkState c r None None None None 0 0 [] 0 0.

(** What happens to the state: the calls that the input handlers make,
    and the browser calling one of the callbacks that it holds, by its
    place in the list of those not called yet. *)
Inductive Op :=
  | OpMove (env : Env) (dx dy : Z)
  | OpUndo
  | OpTransition (env : Env) (i : nat).

(** A callback that a call left pending joins the others. *)
Definition addPending (pending : list Transition) (t : option Transition)
    : list Transition :=
  match t with
  | Some t => pending ++ [t]
  | None => pending
  end.

Fixpoint run (ops : list Op) (st : State) (pending : list Transition)
    : Res (State * list Transition) :=
  match ops with
  | [] => Ok (st, pending)
  | OpMove env dx dy :: rest =>
      '(st', t) ← attemptMove env st dx dy;
      run rest st' (addPending pending t)
  | OpUndo :: rest =>
      st' ← undo st;
      run rest st' pending
  | OpTransition env i :: rest =>
      match pending !! i with
      | Some t =>
          st' ← runTransition env t st;
          run rest st' (delete i pending)
      | None => run rest st pending
      end
  end.

(** A move made with reverse mode off, by one step along an axis; an undo;
    a pending callback called. *)
Definition normalOp (op : Op) : Prop :=
  match op with
  | OpMove env dx dy =>
      revChecked env = false ∧ Z.abs dx + Z.abs dy = 1 ∧ rnd_ok (random env)
  | OpUndo => True
  | OpTransition env _ => rnd_ok (random env)
  end.

(** A game state in normal mode: the agent stands on a walkable cell, the
    dead-end flags agree with the definition, and every undo record names
    the path cell that its move filled. *)
Record gameInv (st : State) : Prop := {
  gi_cols : 2 ≤ cols st;
  gi_rows : 2 ≤ rows st;
  gi_state : ∃ m p s e, gameState st m p s e
      ∧ walkableB st m (gridX p) (gridY p) = true
      ∧ Forall (λ r, snapFilled r = Some (mkPoint (prevX r) (prevY r))
                     ∧ pathB st m (prevX r) (prevY r) = true) (undoStack st);
  gi_flags : deadEndsCorrect st }.

(** The callbacks that are pending ask for a size of at least 2 by 2. *)
Definition pendingOk (pending : list Transition) : Prop :=
  Forall (λ t, 2 ≤ newW t ∧ 2 ≤ newH t) pending.

(** ** The walkability snapshot that the workers search *)
Module GridSpec.

(** A snapshot of [rows] rows of [cols] numbers each. *)
Definition snapshotSized (cols rows : Z) (g : list (list Z)) : Prop :=
  length g = Z.to_nat rows ∧ Forall (λ row, length row = Z.to_nat cols) g.

Definition inside (cols rows : Z) (c : Z * Z) : Prop :=
  0 ≤ c.1 < cols ∧ 0 ≤ c.2 < rows.

(** [grid[y][x] === 1] *)
Definition openCell (g : list (list Z)) (c : Z * Z) : Prop :=
  ∃ row, arr_get g c.2 = Some row ∧ arr_get row c.1 = Some 1.

(** One move of a search: to a 4-neighbour inside the grid that is
    walkable. *)
Definition gridStep (g : list (list Z)) (cols rows : Z) (a b : Z * Z) : Prop :=
  Z.abs (a.1 - b.1) + Z.abs (a.2 - b.2) = 1 ∧ inside cols rows b ∧ openCell g b.

(** A list of coordinates in which every cell is one move from the one
    before it. *)
Fixpoint isWalk (g : list (list Z)) (cols rows : Z) (p : list (Z * Z)) : Prop :=
  match p with
  | [] => True
  | a :: q =>
      match q with
      | [] => True
      | b :: _ => gridStep g cols rows a b ∧ isWalk g cols rows q
      end
  end.

(** [p] is a walk from [s] to [t]. *)
Definition walkFromTo (g : list (list Z)) (cols rows : Z) (s t : Z * Z)
    (p : list (Z * Z)) : Prop :=
  head p = Some s ∧ last p = Some t ∧ isWalk g cols rows p.

(** [t] is the last of [n] cells of a walk from [s]. *)
Inductive reachIn (g : list (list Z)) (cols rows : Z) (s : Z * Z)
  : Z * Z → nat → Prop :=
  | reachIn_start : reachIn g cols rows s s 1
  | reachIn_step v w n :
      reachIn g cols rows s v n → gridStep g cols rows v w →
      reachIn g cols rows s w (S n).

(** All cells of a [cols] by [rows] grid. *)
Definition allCells (cols rows : Z) : list (Z * Z) :=
  (λ i, (i `mod` cols, i `div` cols)) <$> seqZ 0 (cols * rows).

End GridSpec.

Import GridSpec.

(** [l] lists [v] and its ancestors along [parent], up to the root. *)
Inductive chain (parent : gmap (Z * Z) (option (Z * Z)))
  : Z * Z → list (Z * Z) → Prop :=
  | chain_root v : parent !! v = Some None → chain parent v [v]
  | chain_cons v u l :
      parent !! v = Some (Some u) → chain parent u l → chain parent v (v :: l).

(** The invariant of the search loop.  [lev v] is the number of cells on
    the recorded path to [v]; [n] is the number of dequeues made. *)
Record bfsInv (g : list (list Z)) (cols rows : Z) (s : Z * Z)
    (deadSet : gset (Z * Z)) (st : Bfs.Search) (lev : Z * Z → nat) (n : nat)
  : Prop := {
  b_dom : ∀ v, v ∈ Bfs.visited st ↔ is_Some (Bfs.parent st !! v);
  b_chain : ∀ v, v ∈ Bfs.visited st →
      ∃ l, chain (Bfs.parent st) v l ∧ length l = lev v
           ∧ walkFromTo g cols rows s v (rev l);
  b_inside : ∀ v, v ∈ Bfs.visited st → inside cols rows v;
  b_q : ∀ v, v ∈ Bfs.q st → v ∈ Bfs.visited st;
  b_nodup : NoDup (Bfs.q st);
  b_mono : ∀ i j x y, (i ≤ j)%nat → Bfs.q st !! i = Some x →
      Bfs.q st !! j = Some y → (lev x ≤ lev y)%nat;
  b_span : ∀ h y, head (Bfs.q st) = Some h → y ∈ Bfs.q st →
      (lev y ≤ lev h + 1)%nat;
  b_done : ∀ v, v ∈ Bfs.visited st → v ∉ Bfs.q st →
      (v ∉ deadSet)
      ∧ (∀ x, x ∈ Bfs.q st → (lev v ≤ lev x)%nat)
      ∧ ∀ w, gridStep g cols rows v w →
             w ∈ Bfs.visited st ∧ (lev w ≤ lev v + 1)%nat;
  b_start : s ∈ Bfs.visited st ∧ lev s = 1%nat;
  b_count : (n + length (Bfs.q st) = size (Bfs.visited st))%nat;
  b_levsize : ∀ v, v ∈ Bfs.visited st → (lev v ≤ size (Bfs.visited st))%nat }.

Definition snap7 : list (list Z) :=
  [ [0; 0; 0; 0; 0; 0; 0];
    [0; 1; 1; 1; 0; 1; 0];
    [0; 1; 0; 1; 0; 1; 0];
    [0; 1; 0; 1; 1; 1; 0];
    [0; 1; 0; 0; 0; 1; 0];
    [0; 1; 1; 1; 1; 1; 0];
    [0; 0; 0; 0; 0; 0; 0] ].

Definition bfsReq7 : Bfs.Request :=
  Bfs.mkRequest "bfs-deadend" (Some snap7) 7 7 (Some (Bfs.mkPoint 1 1))
    (Some [(5, 1); (1, 5)]).

(** The heap order of [PQ]: no entry has a smaller [f] than its parent at
    index [(i - 1) >> 1]. *)
Definition heapOK (a : list AStar.Node) : Prop :=
  ∀ i ai ap, (0 < i)%nat → a !! i = Some ai → a !! ((i - 1) / 2)%nat = Some ap →
    AStar.node_f ap ≤ AStar.node_f ai.

(** The order holds except that the entry at [i] may be smaller than its
    parent; the children of [i] are not smaller than the parent of [i]. *)
Definition heapUp (a : list AStar.Node) (i : nat) : Prop :=
  (∀ j aj ap, (0 < j)%nat → j ≠ i → a !! j = Some aj →
     a !! ((j - 1) / 2)%nat = Some ap → AStar.node_f ap ≤ AStar.node_f aj)
  ∧ (∀ j aj ag, (0 < i)%nat → ((j - 1) / 2)%nat = i → (0 < j)%nat →
     a !! j = Some aj → a !! ((i - 1) / 2)%nat = Some ag →
     AStar.node_f ag ≤ AStar.node_f aj).

(** The order holds except that the entry at [i] may be larger than its
    children; the children of [i] are not smaller than the parent of [i]. *)
Definition heapDown (a : list AStar.Node) (i : nat) : Prop :=
  (∀ j aj ap, (0 < j)%nat → ((j - 1) / 2)%nat ≠ i → a !! j = Some aj →
     a !! ((j - 1) / 2)%nat = Some ap → AStar.node_f ap ≤ AStar.node_f aj)
  ∧ (∀ j aj ag, (0 < i)%nat → ((j - 1) / 2)%nat = i → (0 < j)%nat →
     a !! j = Some aj → a !! ((i - 1) / 2)%nat = Some ag →
     AStar.node_f ag ≤ AStar.node_f aj).

(** ** The frontier of the A* worker *)
Module AStarSpec.
Import GridSpec.

(** The coordinate of a frontier entry and of a [{x, y}] object. *)
Definition pt (n : AStar.Node) : Z * Z := (AStar.node_x n, AStar.node_y n).
Definition ptOf (p : AStar.Point) : Z * Z := (AStar.x p, AStar.y p).
Definition toPoint (c : Z * Z) : AStar.Point := AStar.mkPoint c.1 c.2.

(** An entry records a walk from start to its cell along [prev], the
    number of moves of that walk as [g], and [g] plus the Manhattan distance
    to the goal as [f]. *)
Definition validNode (g : list (list Z)) (cols rows : Z) (s : Z * Z)
    (endp : AStar.Point) (n : AStar.Node) : Prop :=
  walkFromTo g cols rows s (pt n) (rev (AStar.nodePath n))
  ∧ AStar.node_g n = Z.of_nat (length (AStar.nodePath n)) - 1
  ∧ AStar.node_f n = AStar.node_g n + AStar.h (toPoint (pt n)) endp
  ∧ inside cols rows (pt n).

(** The state of the search loop.  [C] holds the cells whose entry has been
    popped with its final [g]; [D], a part of [C], the cells whose
    neighbours have all been relaxed since. *)
Record AInv (g : list (list Z)) (cols rows : Z) (s : Z * Z)
    (endp : AStar.Point) (open : gmap (Z * Z) AStar.Node)
    (pq : list AStar.Node) (C D : gset (Z * Z)) : Prop := mkAInv {
  inv_heap : heapOK pq;
  inv_pq_valid : ∀ n, n ∈ pq → validNode g cols rows s endp n;
  inv_open_valid : ∀ v n, open !! v = Some n →
    validNode g cols rows s endp n ∧ pt n = v;
  inv_pq_open : ∀ n, n ∈ pq →
    ∃ n', open !! pt n = Some n' ∧ AStar.node_g n' ≤ AStar.node_g n;
  inv_open_pq : ∀ v n, open !! v = Some n → n ∈ pq ∨ v ∈ C;
  inv_closed_opt : ∀ v, v ∈ C →
    ∃ n, open !! v = Some n
      ∧ ∀ m, reachIn g cols rows s v m → AStar.node_g n + 1 ≤ Z.of_nat m;
  inv_closed_edges : ∀ v w, v ∈ D → gridStep g cols rows v w →
    ∃ nv nw, open !! v = Some nv ∧ open !! w = Some nw
      ∧ AStar.node_g nw ≤ AStar.node_g nv + 1;
  inv_start : ∃ n, open !! s = Some n ∧ AStar.node_g n = 0;
  inv_done_closed : D ⊆ C;
  inv_closed_inside : ∀ v, v ∈ C → inside cols rows v;
  inv_end : ptOf endp ∉ C }.

End AStarSpec.

Import AStarSpec.

(** The request to the BFS worker for the same grid and start, with the
    goal as the only target. *)
Definition bfsRequestOf (req : AStar.Request) (st en : AStar.Point) : Bfs.Request :=
  Bfs.mkRequest "bfs-deadend" (AStar.grid req) (AStar.cols req) (AStar.rows req)
    (Some (Bfs.mkPoint (AStar.x st) (AStar.y st))) (Some [ptOf en]).

Definition astarReq7 : AStar.Request :=
  AStar.mkRequest "astar" (Some snap7) 7 7 (Some (AStar.mkPoint 1 1))
    (Some (AStar.mkPoint 5 5)).

Definition astarReqWall : AStar.Request :=
  AStar.mkRequest "astar" (Some snap7) 7 7 (Some (AStar.mkPoint 1 1))
    (Some (AStar.mkPoint 4 1)).

Definition astarReqNoStart : AStar.Request :=
  AStar.mkRequest "astar" (Some snap7) 7 7 None (Some (AStar.mkPoint 5 5)).

Definition astarReqNoGrid : AStar.Request :=
  AStar.mkRequest "astar" None 7 7 (Some (AStar.mkPoint 1 1))
    (Some (AStar.mkPoint 5 5)).

Definition walk7 : list (Z * Z) :=
  [(1, 1); (1, 2); (1, 3); (1, 4); (1, 5); (2, 5); (3, 5); (4, 5); (5, 5)].

(** ** The heap of the A* worker as a sorter *)

(** The heap after the entries of [l] were pushed on an empty heap, first
    to last. *)
Definition pushAll (l : list AStar.Node) : list AStar.Node :=
  foldl AStar.push [] l.

(** The entries that up to [fuel] successive pops return. *)
Fixpoint popAll (fuel : nat) (a : list AStar.Node) : list AStar.Node :=
  match fuel with
  | O => []
  | S fuel' =>
      match AStar.pop a with
      | None => []
      | Some (r, a') => r :: popAll fuel' a'
      end
  end.

(** The first call of the search loop of the A* worker, with a budget of
    its own in place of [MAX_STEPS]. *)
Definition astarLoopFrom (budget : nat) (req : AStar.Request)
    (s e : AStar.Point) : Res (Reply * nat) :=
  let startNode := AStar.mkNode (AStar.x s) (AStar.y s) 0 (AStar.h s e) None in
  AStar.searchLoop budget req e
    (<[AStar.key (AStar.x s) (AStar.y s):=startNode]> ∅)
    (AStar.push [] startNode) O.

Import MazeUI.

(** ** Routes of the agent, and what the hint handlers send *)

(** The walkability grid of a maze: 1 for a path cell that is not filled. *)
Definition hintGrid (m : Grid) : list (list Z) :=
  (λ row : list MazeCell, walkNumber <$> row) <$> m.

(** One move of the agent: to a 4-neighbour that is walkable. *)
Definition routeStep (st : State) (m : Grid) (a b : Z * Z) : Prop :=
  Z.abs (a.1 - b.1) + Z.abs (a.2 - b.2) = 1 ∧ walkableB st m b.1 b.2 = true.

Fixpoint isRoute (st : State) (m : Grid) (p : list (Z * Z)) : Prop :=
  match p with
  | [] => True
  | a :: q =>
      match q with
      | [] => True
      | b :: _ => routeStep st m a b ∧ isRoute st m q
      end
  end.

(** [p] lists the cells of a route of the agent from [s] to [t]. *)
Definition routeFromTo (st : State) (m : Grid) (s t : Z * Z)
    (p : list (Z * Z)) : Prop :=
  head p = Some s ∧ last p = Some t ∧ isRoute st m p.

(** A target of the dead-end hint: a walkable cell with its flag set, other
    than the cell of the agent. *)
Definition flaggedTarget (st : State) (m : Grid) (p : Player) (c : Z * Z) : Prop :=
  walkableB st m c.1 c.2 = true
  ∧ (∃ cell, getCell m c.1 c.2 = Some cell ∧ deadEnd cell = true)
  ∧ c ≠ (gridX p, gridY p).

(** ** Reset, completion and the keyboard *)

(** Two grids whose cells have the same types, cell by cell. *)
Definition sameTypes (m m' : Grid) : Prop :=
  Forall2 (Forall2 (λ c c' : MazeCell, type c = type c')) m m'.

(** The state [a] with the fields that a recompute of the dead ends
    neither reads nor writes taken from [b]. *)
Definition rebase (b a : State) : State :=
  mkState (cols a) (rows a) (maze a) (player b) (start a) (end_ a)
    (originalPathCount a) (visitedCount b) (undoStack b) (score b) (highscore b).

(** A walkable cell counts 1; [openTotal] is the number of walkable cells
    of a grid. *)
Definition openWeight (c : MazeCell) : nat :=
  if isPath c && negb (filled c) then 1%nat else 0%nat.

Definition openTotal (m : Grid) : nat := total (total openWeight) m.

(** Every path cell of the grid lies off its border. *)
Definition enclosed (C R : Z) (m : Grid) : Prop :=
  ∀ x y c, getCell m x y = Some c → type c = path →
    0 < x < C - 1 ∧ 0 < y < R - 1.

(** [st'] is a fresh game on a maze two cells larger each way than that
    of [st], up to 51 and made odd, with score 0 and the highscore [hs]. *)
Definition nextMaze (st : State) (hs : Z) (st' : State) : Prop :=
  ∃ m', freshState st' m'
    ∧ cols st' = oddify (Z.min 51 (cols st + 2))
    ∧ rows st' = oddify (Z.min 51 (rows st + 2))
    ∧ score st' = 0 ∧ highscore st' = hs.

(** The keys that ask for a move, with the step asked for. *)
Definition keyTable : list (string * (Z * Z)) :=
  [ ("ArrowUp", (0, -1)); ("w", (0, -1)); ("W", (0, -1));
    ("ArrowDown", (0, 1)); ("s", (0, 1)); ("S", (0, 1));
    ("ArrowLeft", (-1, 0)); ("a", (-1, 0)); ("A", (-1, 0));
    ("ArrowRight", (1, 0)); ("d", (1, 0)); ("D", (1, 0)) ].

(** What happens at the keyboard and after it: a key goes down, a key goes
    up, the interval of a held key fires, or the browser calls one of the
    callbacks that it holds, by its place in the list of those not called
    yet.  Each event reads the outside values of its own moment. *)
Inductive KeyEvent : Type :=
  | KeyDown (env : Env) (k : string)
  | KeyUp (k : string)
  | HoldTick (env : Env)
  | ViewTransition (env : Env) (i : nat).

(** A sequence of such events, each handled to its end before the next. *)
Fixpoint pressKeys (evs : list KeyEvent) (st : State) (hold : Hold)
    (pending : list Transition) : Res (State * Hold * list Transition) :=
  match evs with
  | [] => Ok (st, hold, pending)
  | KeyDown env k :: evs' =>
      '(st', hold', t) ← keydown env st hold k;
      pressKeys evs' st' hold' (addPending pending t)
  | KeyUp k :: evs' => pressKeys evs' st (keyup hold k) pending
  | HoldTick env :: evs' =>
      '(st', t) ← holdTick env st hold;
      pressKeys evs' st' hold (addPending pending t)
  | ViewTransition env i :: evs' =>
      match pending !! i with
      | Some t =>
          st' ← runTransition env t st;
          pressKeys evs' st' hold (delete i pending)
      | None => pressKeys evs' st hold pending
      end
  end.

(** Events of play with reverse mode off and [Math.random()] in [0, 1). *)
Definition normalEvent (ev : KeyEvent) : Prop :=
  match ev with
  | KeyDown env _ | HoldTick env =>
      revChecked env = false ∧ rnd_ok (random env)
  | KeyUp _ => True
  | ViewTransition env _ => rnd_ok (random env)
  end.

Definition unitHold (hold : Hold) : Prop :=
  ∀ dx dy, hold = Some (dx, dy) → Z.abs dx + Z.abs dy = 1.

(** * Proofs: Dead ends, moves and undo *)

Lemma arr_get_Some {A} (a : list A) (i : Z) (v : A) :
  arr_get a i = Some v ↔ 0 ≤ i ∧ a !! Z.to_nat i = Some v.
Proof. unfold arr_get. case_decide; naive_solver. Qed.

Lemma arr_get_nonneg {A} (a : list A) (i : Z) :
  0 ≤ i → arr_get a i = a !! Z.to_nat i.
Proof. intros. unfold arr_get. by case_decide. Qed.

Lemma arr_get_neg {A} (a : list A) (i : Z) : ¬ 0 ≤ i → arr_get a i = None.
Proof. intros. unfold arr_get. by case_decide. Qed.

Lemma arr_get_lt {A} (a : list A) (i : Z) :
  0 ≤ i → (Z.to_nat i < length a)%nat → is_Some (arr_get a i).
Proof.
  intros Hi Hlt. unfold arr_get. rewrite decide_True by done.
  by apply lookup_lt_is_Some.
Qed.

Lemma getCell_Some m x y c :
  getCell m x y = Some c ↔
  0 ≤ x ∧ 0 ≤ y ∧ ∃ row, m !! Z.to_nat y = Some row ∧ row !! Z.to_nat x = Some c.
Proof.
  unfold getCell. split.
  - intros H. apply bind_Some in H as (row & Hr & Hc).
    apply arr_get_Some in Hr as [? ?]. apply arr_get_Some in Hc as [? ?]. eauto.
  - intros (Hx & Hy & row & Hr & Hc). apply bind_Some. exists row.
    split; apply arr_get_Some; auto.
Qed.

Lemma gridSized_getCell st m x y :
  gridSized (cols st) (rows st) m → inBounds st x y = true →
  is_Some (getCell m x y).
Proof.
  intros [Hlen Hrows] Hb. unfold inBounds in Hb.
  apply andb_prop in Hb as [Hb ?]. apply andb_prop in Hb as [Hb ?].
  apply andb_prop in Hb as [Hb ?].
  assert (Hy : (Z.to_nat y < length m)%nat) by lia.
  apply lookup_lt_is_Some in Hy as [row Hrow].
  assert (Hx : (Z.to_nat x < length row)%nat).
  { rewrite Forall_lookup in Hrows. rewrite (Hrows _ _ Hrow). lia. }
  apply lookup_lt_is_Some in Hx as [c Hc].
  exists c. apply getCell_Some. split; [lia|]. split; [lia|]. eauto.
Qed.

Lemma getCell_inBounds st m x y c :
  gridSized (cols st) (rows st) m → getCell m x y = Some c →
  inBounds st x y = true.
Proof.
  intros [Hlen Hrows] (Hx & Hy & row & Hr & Hc)%getCell_Some.
  pose proof (lookup_lt_Some _ _ _ Hr). pose proof (lookup_lt_Some _ _ _ Hc).
  assert (length row = Z.to_nat (cols st)).
  { rewrite Forall_lookup in Hrows. eauto. }
  unfold inBounds. repeat (apply andb_true_intro; split); lia.
Qed.

Lemma getCell_alter f m x y x' y' :
  0 ≤ x → 0 ≤ y →
  getCell (alter (alter f (Z.to_nat x)) (Z.to_nat y) m) x' y' =
  if decide (x' = x ∧ y' = y) then f <$> getCell m x' y' else getCell m x' y'.
Proof.
  intros Hx Hy. unfold getCell.
  destruct (decide (x' = x ∧ y' = y)) as [[-> ->]|Hne].
  - rewrite !arr_get_nonneg by done. rewrite list_lookup_alter_eq.
    destruct (m !! Z.to_nat y) as [row|]; simpl; [|done].
    rewrite !arr_get_nonneg by done. by rewrite list_lookup_alter_eq.
  - destruct (decide (0 ≤ y')) as [Hy'|]; [|by rewrite !arr_get_neg by lia].
    rewrite !arr_get_nonneg by done.
    destruct (decide (y' = y)) as [->|Hny].
    + rewrite list_lookup_alter_eq.
      destruct (m !! Z.to_nat y) as [row|]; simpl; [|done].
      destruct (decide (0 ≤ x')); [|by rewrite !arr_get_neg by lia].
      rewrite !arr_get_nonneg by done.
      rewrite list_lookup_alter_ne by (intros ?; apply Hne; split; lia). done.
    + rewrite list_lookup_alter_ne by lia. done.
Qed.

Lemma gridSized_alter f c r m i j :
  gridSized c r m → gridSized c r (alter (alter f i) j m).
Proof.
  intros [Hlen Hrows]. split; [by rewrite length_alter|].
  rewrite Forall_lookup in Hrows. apply Forall_lookup. intros k row Hk.
  destruct (decide (k = j)) as [->|Hne].
  - rewrite list_lookup_alter_eq in Hk.
    destruct (m !! j) as [row0|] eqn:E; simplify_eq/=.
    rewrite length_alter. eauto.
  - rewrite list_lookup_alter_ne in Hk by done. eauto.
Qed.

Lemma updCell_Ok f m x y c :
  getCell m x y = Some c →
  updCell f m x y = Ok (alter (alter f (Z.to_nat x)) (Z.to_nat y) m).
Proof. intros H. unfold updCell. rewrite H. done. Qed.

(** A state after generation: the grid has the recorded size. *)
Lemma inBounds_spec st x y :
  inBounds st x y = true ↔ 0 ≤ x < cols st ∧ 0 ≤ y < rows st.
Proof. unfold inBounds. rewrite !andb_true_iff. lia. Qed.

Lemma cellAt_Ok st m x y :
  maze st = Some m → gridSized (cols st) (rows st) m → inBounds st x y = true →
  ∃ c, getCell m x y = Some c ∧ cellAt st x y = Ok c.
Proof.
  intros Hm Hs Hb. destruct (gridSized_getCell st m x y Hs Hb) as [c Hc].
  exists c. split; [done|]. unfold cellAt. rewrite Hm. simpl. by rewrite Hc.
Qed.

Lemma isWalkable_spec st m x y :
  maze st = Some m → gridSized (cols st) (rows st) m →
  isWalkable st x y = Ok (walkableB st m x y).
Proof.
  intros Hm Hs. unfold isWalkable, walkableB.
  destruct (inBounds st x y) eqn:Hb; simpl; [|done].
  destruct (cellAt_Ok st m x y Hm Hs Hb) as (c & Hc & ->). simpl. by rewrite Hc.
Qed.

(** C9.  A move whose destination is not walkable (outside the grid, a wall
    or a filled cell) returns normally and leaves the state, with its grid,
    agent position, score, visit count and undo stack, exactly as it was;
    no callback is left pending. *)
Theorem attemptMove_blocked_noop env st m p dx dy :
  maze st = Some m → gridSized (cols st) (rows st) m → player st = Some p →
  walkableB st m (gridX p + dx) (gridY p + dy) = false →
  attemptMove env st dx dy = Ok (st, None).
Proof.
  intros Hm Hs Hp Hw. unfold attemptMove. rewrite Hp. simpl.
  rewrite (isWalkable_spec st m) by done. rewrite Hw. done.
Qed.

(** *** The local recompute *)

Lemma forEach_count {A} (P : A → bool) (l : list A) (n : Z) :
  forEach (λ cnt a, Ok (if P a then cnt + 1 else cnt)) l n
  = Ok (n + countIf P l).
Proof.
  revert n. induction l as [|a l IH]; intros n; simpl.
  - f_equal. lia.
  - rewrite IH. destruct (P a); f_equal; lia.
Qed.

Lemma countIf_ext {A} (P Q : A → bool) l :
  (∀ a, P a = Q a) → countIf P l = countIf Q l.
Proof. intros H. induction l as [|a l IH]; simpl; [done|]. by rewrite H, IH. Qed.

Lemma forEach_ext {A S} (f g : S → A → Res S) l s :
  (∀ s a, a ∈ l → f s a = g s a) → forEach f l s = forEach g l s.
Proof.
  revert s. induction l as [|a l IH]; intros s Hfg; simpl; [done|].
  rewrite Hfg by set_solver. destruct (g s a); simpl; try done.
  apply IH. intros. apply Hfg. set_solver.
Qed.

Lemma countOpenNeighbors_spec st m x y :
  maze st = Some m → gridSized (cols st) (rows st) m →
  countOpenNeighbors st x y = Ok (openCount st m x y).
Proof.
  intros Hm Hs. unfold countOpenNeighbors, openCount.
  rewrite (forEach_ext _
    (λ cnt d, Ok (if walkableB st m (x + d.1) (y + d.2) then cnt + 1 else cnt))).
  - rewrite forEach_count. done.
  - intros cnt [dx dy] _. simpl. unfold walkableB.
    destruct (inBounds st (x + dx) (y + dy)) eqn:Hb; simpl; [|done].
    destruct (cellAt_Ok st m _ _ Hm Hs Hb) as (c & Hc & ->). simpl. by rewrite Hc.
Qed.

Lemma set_maze_maze st m : maze st = Some m → set_maze (Some m) st = st.
Proof. destruct st; simpl; intros ->; done. Qed.

Lemma updAt_Ok f st m x y c :
  maze st = Some m → getCell m x y = Some c →
  updAt f st x y =
  Ok (set_maze (Some (alter (alter f (Z.to_nat x)) (Z.to_nat y) m)) st).
Proof.
  intros Hm Hc. unfold updAt. rewrite Hm. simpl.
  rewrite (updCell_Ok _ _ _ _ c) by done. done.
Qed.

Lemma recomputeNearCell_spec st m x y d :
  maze st = Some m → gridSized (cols st) (rows st) m →
  recomputeNearCell x y st d
  = Ok (set_maze (Some (nearCellGrid st m (x + d.1) (y + d.2))) st).
Proof.
  intros Hm Hs. unfold recomputeNearCell, nearCellGrid.
  destruct (inBounds st (x + d.1) (y + d.2)) eqn:Hb; simpl.
  2:{ by rewrite set_maze_maze. }
  destruct (cellAt_Ok st m _ _ Hm Hs Hb) as (c & Hc & ->). simpl.
  unfold isDeadEndDef, walkableB. rewrite Hb, Hc. simpl.
  destruct (isPath c) eqn:Hp; simpl.
  - destruct (filled c) eqn:Hf; simpl.
    + by rewrite (updAt_Ok _ _ m _ _ c).
    + rewrite (countOpenNeighbors_spec st m) by done. simpl.
      by rewrite (updAt_Ok _ _ m _ _ c).
  - by rewrite (updAt_Ok _ _ m _ _ c).
Qed.

Lemma sameShape_refl m : sameShape m m.
Proof. done. Qed.

Lemma sameShape_trans m1 m2 m3 :
  sameShape m1 m2 → sameShape m2 m3 → sameShape m1 m3.
Proof. intros H1 H2 x y. by rewrite H1. Qed.

Lemma sameShape_alter_deadEnd m b x y :
  0 ≤ x → 0 ≤ y →
  sameShape m (alter (alter (withDeadEnd b) (Z.to_nat x)) (Z.to_nat y) m).
Proof.
  intros Hx Hy cx cy. rewrite getCell_alter by done.
  case_decide; [|done]. by destruct (getCell m cx cy).
Qed.

Lemma walkableB_shape st st' m m' x y :
  cols st = cols st' → rows st = rows st' → sameShape m m' →
  walkableB st m x y = walkableB st' m' x y.
Proof.
  intros Hc Hr Hs. unfold walkableB, inBounds. rewrite Hc, Hr. f_equal.
  specialize (Hs x y).
  destruct (getCell m x y) as [c|], (getCell m' x y) as [c'|]; try done.
  simpl in Hs. injection Hs as Ht Hf. unfold isPath. by rewrite Ht, Hf.
Qed.

Lemma isDeadEndDef_shape st st' m m' x y :
  cols st = cols st' → rows st = rows st' →
  start st = start st' → end_ st = end_ st' → sameShape m m' →
  isDeadEndDef st m x y = isDeadEndDef st' m' x y.
Proof.
  intros Hc Hr Hst Hen Hs. unfold isDeadEndDef, openCount.
  rewrite Hst, Hen. rewrite (walkableB_shape st st' m m') by done.
  do 3 f_equal. f_equal.
  apply countIf_ext. intros d. by rewrite (walkableB_shape st st' m m').
Qed.

Lemma nearCellGrid_sized st m nx ny :
  gridSized (cols st) (rows st) m →
  gridSized (cols st) (rows st) (nearCellGrid st m nx ny).
Proof. intros. unfold nearCellGrid. case_match; [by apply gridSized_alter|done]. Qed.

Lemma nearCellGrid_shape st m nx ny : sameShape m (nearCellGrid st m nx ny).
Proof.
  unfold nearCellGrid. destruct (inBounds st nx ny) eqn:Hb; [|done].
  apply inBounds_spec in Hb. apply sameShape_alter_deadEnd; lia.
Qed.

Lemma nearCellGrid_get st m nx ny cx cy :
  getCell (nearCellGrid st m nx ny) cx cy =
  if decide (inBounds st cx cy = true ∧ cx = nx ∧ cy = ny)
  then withDeadEnd (isDeadEndDef st m cx cy) <$> getCell m cx cy
  else getCell m cx cy.
Proof.
  unfold nearCellGrid. destruct (inBounds st nx ny) eqn:Hb.
  - apply inBounds_spec in Hb. rewrite getCell_alter by lia.
    destruct (decide (cx = nx ∧ cy = ny)) as [[-> ->]|Hne].
    + rewrite decide_True; [done|]. split; [|done]. apply inBounds_spec. lia.
    + rewrite decide_False by naive_solver. done.
  - rewrite decide_False; [done|]. intros (? & -> & ->). congruence.
Qed.

(** The local recompute over a list of offsets: the flags of the cells it
    reaches are set to the definition, and nothing else changes. *)
Lemma recomputeNear_fold x y l : ∀ st m,
  maze st = Some m → gridSized (cols st) (rows st) m →
  ∃ m', forEach (recomputeNearCell x y) l st = Ok (set_maze (Some m') st)
    ∧ gridSized (cols st) (rows st) m' ∧ sameShape m m'
    ∧ ∀ cx cy, getCell m' cx cy =
        if decide (inBounds st cx cy = true ∧ (cx - x, cy - y) ∈ l)
        then withDeadEnd (isDeadEndDef st m cx cy) <$> getCell m cx cy
        else getCell m cx cy.
Proof.
  induction l as [|d l IH]; intros st m Hm Hs.
  - exists m. simpl. rewrite set_maze_maze by done. split_and!; try done.
    intros cx cy. rewrite decide_False; [done|]. set_solver.
  - simpl. rewrite (recomputeNearCell_spec st m) by done. simpl.
    set (m1 := nearCellGrid st m (x + d.1) (y + d.2)).
    destruct (IH (set_maze (Some m1) st) m1) as (m' & Hrun & Hs' & Hsh & Hget).
    { done. } { by apply (nearCellGrid_sized st). }
    exists m'. split_and!.
    + rewrite Hrun. done.
    + done.
    + eapply sameShape_trans; [apply nearCellGrid_shape|done].
    + intros cx cy. rewrite Hget. subst m1.
      rewrite nearCellGrid_get.
      rewrite (isDeadEndDef_shape (set_maze _ st) st _ m)
        by (try done; intros ??; symmetry; apply nearCellGrid_shape).
      change (inBounds (set_maze _ st) cx cy) with (inBounds st cx cy).
      destruct (decide (inBounds st cx cy = true ∧ (cx - x, cy - y) ∈ l)) as [[Hb Hin]|Hn].
      * rewrite (decide_True (P := _ ∧ _ ∈ d :: l)) by set_solver.
        case_decide; [|done].
        destruct (getCell m cx cy); simpl; done.
      * destruct (decide (inBounds st cx cy = true ∧ cx = x + d.1 ∧ cy = y + d.2))
          as [(Hb & -> & ->)|Hn2].
        -- rewrite decide_True; [done|]. split; [done|].
           replace (x + d.1 - x, y + d.2 - y) with d; [set_solver|].
           destruct d; simpl; f_equal; lia.
        -- rewrite decide_False; [done|]. intros [Hb Hin].
           apply elem_of_cons in Hin as [Heq|Hin]; [|naive_solver].
           apply Hn2. split; [done|]. destruct d; simplify_eq/=. lia.
Qed.

(** *** The full recompute *)

Lemma sameFrame_refl st : sameFrame st st.
Proof. by repeat split. Qed.

Lemma sameFrame_trans s1 s2 s3 : sameFrame s1 s2 → sameFrame s2 s3 → sameFrame s1 s3.
Proof. unfold sameFrame. intros H1 H2. destruct_and!. split_and!; congruence. Qed.

Lemma pathB_shape st st' m m' x y :
  cols st = cols st' → rows st = rows st' → sameShape m m' →
  pathB st m x y = pathB st' m' x y.
Proof.
  intros Hc Hr Hs. unfold pathB, inBounds. rewrite Hc, Hr. f_equal.
  specialize (Hs x y).
  destruct (getCell m x y) as [c|], (getCell m' x y) as [c'|]; try done.
  simpl in Hs. injection Hs as Ht Hf. unfold isPath. by rewrite Ht.
Qed.

Lemma fullDef_shape st st' m m' x y :
  sameFrame st st' → sameShape m m' → fullDef st m x y = fullDef st' m' x y.
Proof.
  intros (Hc & Hr & _ & Hst & Hen & _) Hs. unfold fullDef, pathCount.
  rewrite Hst, Hen. rewrite (pathB_shape st st' m m') by done.
  do 3 f_equal. f_equal.
  apply countIf_ext. intros d. by rewrite (pathB_shape st st' m m').
Qed.

Lemma countPathNeighbors_spec st m x y :
  maze st = Some m → gridSized (cols st) (rows st) m →
  countPathNeighbors st x y = Ok (pathCount st m x y).
Proof.
  intros Hm Hs. unfold countPathNeighbors, pathCount.
  rewrite (forEach_ext _
    (λ cnt d, Ok (if pathB st m (x + d.1) (y + d.2) then cnt + 1 else cnt))).
  - rewrite forEach_count. done.
  - intros cnt [dx dy] _. simpl. unfold pathB.
    destruct (inBounds st (x + dx) (y + dy)) eqn:Hb; simpl; [|done].
    destruct (cellAt_Ok st m _ _ Hm Hs Hb) as (c & Hc & ->). simpl. by rewrite Hc.
Qed.

Lemma recomputeAllCell_spec st m x y :
  maze st = Some m → gridSized (cols st) (rows st) m → inBounds st x y = true →
  ∃ st' m', recomputeAllCell y st x = Ok st' ∧ sameFrame st st'
    ∧ maze st' = Some m' ∧ gridSized (cols st) (rows st) m' ∧ sameShape m m'
    ∧ ∀ cx cy, getCell m' cx cy =
        if decide (cx = x ∧ cy = y)
        then withDeadEnd (fullDef st m cx cy) <$> getCell m cx cy
        else getCell m cx cy.
Proof.
  intros Hm Hs Hb. unfold recomputeAllCell.
  destruct (cellAt_Ok st m _ _ Hm Hs Hb) as (c & Hc & ->). simpl.
  rewrite (updAt_Ok _ _ m _ _ c) by done. simpl.
  pose proof Hb as Hb'. apply inBounds_spec in Hb'.
  set (m1 := alter (alter (withDeadEnd false) (Z.to_nat x)) (Z.to_nat y) m).
  assert (Hs1 : gridSized (cols st) (rows st) m1) by by apply gridSized_alter.
  assert (Hsh1 : sameShape m m1) by (apply sameShape_alter_deadEnd; lia).
  assert (Hc1 : getCell m1 x y = Some (withDeadEnd false c)).
  { unfold m1. rewrite getCell_alter by lia. rewrite decide_True by done.
    by rewrite Hc. }
  destruct (type c) eqn:Ht.
  - eexists _, m1. split_and!; try done.
    intros cx cy. unfold m1. rewrite getCell_alter by lia.
    case_decide as Hd; [|done]. destruct Hd as [-> ->].
    unfold fullDef, pathB. rewrite Hb, Hc. unfold isPath. rewrite Ht. done.
  - rewrite (countPathNeighbors_spec _ m1) by done. simpl.
    rewrite (updAt_Ok _ _ m1 _ _ (withDeadEnd false c)) by done.
    eexists _, _. split_and!; try done.
    + by apply gridSized_alter.
    + eapply sameShape_trans; [done|]. apply sameShape_alter_deadEnd; lia.
    + intros cx cy. rewrite getCell_alter by lia.
      case_decide as Hd.
      2:{ unfold m1. rewrite getCell_alter by lia. by rewrite decide_False. }
      destruct Hd as [-> ->]. rewrite Hc1, Hc. simpl. f_equal.
      unfold withDeadEnd; simpl. f_equal.
      rewrite (fullDef_shape st
        (set_originalPathCount (originalPathCount st + 1) (set_maze (Some m1) st))
        m m1) by (done || by repeat split).
      unfold fullDef at 1. simpl.
      unfold pathB.
      change (inBounds (set_originalPathCount _ _) x y) with (inBounds st x y).
      rewrite Hb, Hc1. unfold isPath. simpl. rewrite Ht.
      by rewrite bool_decide_eq_true_2.
Qed.

(** A loop whose every step repaints the [deadEnd] flag of some cells with
    a value that depends on the grid's shape only. *)
Section Painting.
Context {A : Type}.
Variable step : State → A → Res State.
Variable paints : A → Z → Z → Prop.
Variable def : State → Grid → Z → Z → bool.
Variable pre : State → A → Prop.
Context `{∀ a cx cy, Decision (paints a cx cy)}.

Hypothesis step_paints : ∀ st m a,
  maze st = Some m → gridSized (cols st) (rows st) m → pre st a →
  ∃ st' m', step st a = Ok st' ∧ sameFrame st st'
    ∧ maze st' = Some m' ∧ gridSized (cols st) (rows st) m' ∧ sameShape m m'
    ∧ ∀ cx cy, getCell m' cx cy =
        if decide (paints a cx cy)
        then withDeadEnd (def st m cx cy) <$> getCell m cx cy
        else getCell m cx cy.
Hypothesis def_shape : ∀ st st' m m' x y,
  sameFrame st st' → sameShape m m' → def st m x y = def st' m' x y.
Hypothesis pre_frame : ∀ st st' a, sameFrame st st' → pre st a → pre st' a.

Lemma forEach_paints l : ∀ st m,
  maze st = Some m → gridSized (cols st) (rows st) m →
  (∀ a, a ∈ l → pre st a) →
  ∃ st' m', forEach step l st = Ok st' ∧ sameFrame st st'
    ∧ maze st' = Some m' ∧ gridSized (cols st) (rows st) m' ∧ sameShape m m'
    ∧ ∀ cx cy, getCell m' cx cy =
        if decide (Exists (λ a, paints a cx cy) l)
        then withDeadEnd (def st m cx cy) <$> getCell m cx cy
        else getCell m cx cy.
Proof.
  induction l as [|a l IH]; intros st m Hm Hs Hpre.
  - exists st, m. simpl. by split_and!.
  - simpl.
    destruct (step_paints st m a Hm Hs) as (st1 & m1 & -> & Hf1 & Hm1 & Hs1 & Hsh1 & Hg1).
    { apply Hpre. set_solver. }
    simpl. pose proof Hf1 as (Hc & Hr & _).
    destruct (IH st1 m1) as (st' & m' & Hrun & Hf' & Hm' & Hs' & Hsh' & Hg').
    { done. } { by rewrite <- Hc, <- Hr. }
    { intros b Hb. eapply pre_frame; [done|]. apply Hpre. set_solver. }
    exists st', m'. split_and!; try done.
    + by eapply sameFrame_trans.
    + by rewrite Hc, Hr.
    + by eapply sameShape_trans.
    + intros cx cy. rewrite Hg', Hg1.
      rewrite <- (def_shape st st1 m m1) by done.
      destruct (decide (Exists (λ a0, paints a0 cx cy) l)) as [Hl|Hl].
      * rewrite (decide_True (P := Exists _ (a :: l))) by by apply Exists_cons_tl.
        case_decide; [|done]. by destruct (getCell m cx cy).
      * destruct (decide (paints a cx cy)) as [Ha|Ha].
        -- rewrite decide_True; [done|]. by apply Exists_cons_hd.
        -- rewrite decide_False; [done|]. rewrite Exists_cons. naive_solver.
Qed.
End Painting.

Lemma recomputeAll_row y st m :
  maze st = Some m → gridSized (cols st) (rows st) m → 0 ≤ y < rows st →
  ∃ st' m', forEach (recomputeAllCell y) (seqZ 0 (cols st)) st = Ok st'
    ∧ sameFrame st st'
    ∧ maze st' = Some m' ∧ gridSized (cols st) (rows st) m' ∧ sameShape m m'
    ∧ ∀ cx cy, getCell m' cx cy =
        if decide (cy = y ∧ 0 ≤ cx < cols st)
        then withDeadEnd (fullDef st m cx cy) <$> getCell m cx cy
        else getCell m cx cy.
Proof.
  intros Hm Hs Hy.
  destruct (forEach_paints (recomputeAllCell y)
    (λ x cx cy, cx = x ∧ cy = y) fullDef
    (λ st x, inBounds st x y = true)) with (l := seqZ 0 (cols st)) (st := st) (m := m)
    as (st' & m' & Hrun & Hf & Hm' & Hs' & Hsh & Hg); try done.
  - intros s g x ???. by apply recomputeAllCell_spec.
  - intros. by apply fullDef_shape.
  - intros s s' x (Hc & Hr & _). unfold inBounds. by rewrite Hc, Hr.
  - intros x Hx%elem_of_seqZ. apply inBounds_spec. lia.
  - exists st', m'. split_and!; try done.
    intros cx cy. rewrite Hg. apply decide_ext.
    rewrite Exists_exists. setoid_rewrite elem_of_seqZ. naive_solver lia.
Qed.

(** The full recompute ends normally on a sized grid; it keeps cell types
    and filled flags and gives every cell the flag [fullDef]. *)
Lemma recomputeAllDeadEnds_spec st m :
  maze st = Some m → gridSized (cols st) (rows st) m →
  ∃ st' m', recomputeAllDeadEnds st = Ok st' ∧ sameFrame st st'
    ∧ maze st' = Some m' ∧ gridSized (cols st) (rows st) m' ∧ sameShape m m'
    ∧ ∀ cx cy, inBounds st cx cy = true →
        getCell m' cx cy = withDeadEnd (fullDef st m cx cy) <$> getCell m cx cy.
Proof.
  intros Hm Hs. unfold recomputeAllDeadEnds. rewrite Hm.
  set (st0 := set_originalPathCount 0 st).
  destruct (forEach_paints
    (λ st y, forEach (recomputeAllCell y) (seqZ 0 (cols st)) st)
    (λ y cx cy, cy = y ∧ 0 ≤ cx < cols st) fullDef
    (λ s y, 0 ≤ y < rows s ∧ cols s = cols st))
    with (l := seqZ 0 (rows st)) (st := st0) (m := m)
    as (st' & m' & Hrun & Hf & Hm' & Hs' & Hsh & Hg); try done.
  - intros s g y Hsm Hsg [Hy Hcs].
    destruct (recomputeAll_row y s g) as (s' & g' & ? & ? & ? & ? & ? & Hgg); try done.
    exists s', g'. split_and!; try done. intros cx cy. rewrite Hgg.
    apply decide_ext. by rewrite Hcs.
  - intros. by apply fullDef_shape.
  - intros s s' y (Hc & Hr & _) [? ?]. by rewrite <- Hc, <- Hr.
  - intros y Hy%elem_of_seqZ. simpl. split; [lia|done].
  - exists st', m'. split_and!; try done.
    intros cx cy Hb%inBounds_spec. rewrite Hg.
    rewrite decide_True.
    + rewrite (fullDef_shape st0 st m m); [done| unfold sameFrame; by split_and! | done].
    + rewrite Exists_exists. exists cy. rewrite elem_of_seqZ. lia.
Qed.

(** *** Filling or clearing one cell, then the local recompute *)

Lemma getCell_alter_filled m b fx fy cx cy :
  0 ≤ fx → 0 ≤ fy →
  getCell (alter (alter (withFilled b) (Z.to_nat fx)) (Z.to_nat fy) m) cx cy =
  if decide (cx = fx ∧ cy = fy) then withFilled b <$> getCell m cx cy
  else getCell m cx cy.
Proof. intros. by rewrite getCell_alter. Qed.

Lemma walkableB_alter_other st m f fx fy x y :
  0 ≤ fx → 0 ≤ fy → ¬ (x = fx ∧ y = fy) →
  walkableB st (alter (alter f (Z.to_nat fx)) (Z.to_nat fy) m) x y
  = walkableB st m x y.
Proof.
  intros. unfold walkableB. rewrite getCell_alter by done.
  by rewrite decide_False.
Qed.

(** The definition at a cell reads that cell and its four neighbours, so a
    change at [(fx, fy)] is seen only there and next to it. *)
Lemma isDeadEndDef_alter_far st m f fx fy x y :
  0 ≤ fx → 0 ≤ fy →
  (x - fx, y - fy) ∉ [(0, 0); (1, 0); (-1, 0); (0, 1); (0, -1)] →
  isDeadEndDef st (alter (alter f (Z.to_nat fx)) (Z.to_nat fy) m) x y
  = isDeadEndDef st m x y.
Proof.
  intros Hx Hy Hfar. unfold isDeadEndDef, openCount.
  rewrite walkableB_alter_other; [|done|done|].
  2:{ intros [-> ->]. apply Hfar. replace (fx - fx) with 0 by lia.
      replace (fy - fy) with 0 by lia. set_solver. }
  do 3 f_equal. f_equal. unfold dirs4. simpl.
  rewrite !walkableB_alter_other; try done.
  all: intros [E1 E2]; apply Hfar.
  - replace (x - fx) with 0 by lia. replace (y - fy) with 1 by lia. set_solver.
  - replace (x - fx) with 0 by lia. replace (y - fy) with (-1) by lia. set_solver.
  - replace (x - fx) with 1 by lia. replace (y - fy) with 0 by lia. set_solver.
  - replace (x - fx) with (-1) by lia. replace (y - fy) with 0 by lia. set_solver.
Qed.

(** [state.maze[fy][fx].filled = b; recomputeDeadendsNear(fx, fy)] *)
Lemma fill_recompute_spec st m b fx fy c :
  maze st = Some m → gridSized (cols st) (rows st) m →
  getCell m fx fy = Some c →
  let mf := alter (alter (withFilled b) (Z.to_nat fx)) (Z.to_nat fy) m in
  ∃ m', (st1 ← updAt (withFilled b) st fx fy; recomputeDeadendsNear st1 fx fy)
          = Ok (set_maze (Some m') st)
    ∧ gridSized (cols st) (rows st) m' ∧ sameShape mf m'
    ∧ ∀ cx cy, getCell m' cx cy =
        if decide (inBounds st cx cy = true ∧ (cx - fx, cy - fy) ∈ coords9)
        then withDeadEnd (isDeadEndDef st mf cx cy) <$> getCell mf cx cy
        else getCell mf cx cy.
Proof.
  intros Hm Hs Hc mf. rewrite (updAt_Ok _ _ m _ _ c) by done. simpl.
  destruct (recomputeNear_fold fx fy coords9 (set_maze (Some mf) st) mf)
    as (m' & Hrun & Hs' & Hsh & Hg).
  { done. } { by apply gridSized_alter. }
  exists m'. by split_and!.
Qed.

(** *** attemptMove and undo *)

Lemma state_ext (a b : State) :
  cols a = cols b → rows a = rows b → maze a = maze b → player a = player b →
  start a = start b → end_ a = end_ b →
  originalPathCount a = originalPathCount b → visitedCount a = visitedCount b →
  undoStack a = undoStack b → score a = score b → highscore a = highscore b →
  a = b.
Proof. destruct a, b; simpl; intros; by subst. Qed.

Ltac state_eq :=
  apply state_ext;
  cbn [cols rows maze player start end_ originalPathCount visitedCount
       undoStack score highscore set_cols set_rows set_maze set_player
       set_start set_end set_originalPathCount set_visitedCount
       set_undoStack set_score set_highscore];
  (done || lia || congruence).

Lemma takeSnapshot_spec env st m x y :
  maze st = Some m → gridSized (cols st) (rows st) m → inBounds st x y = true →
  takeSnapshot env st x y =
  Ok (mkSnapshot x y (if negb (revChecked env) && walkableB st m x y
                      then Some (mkPoint x y) else None)).
Proof.
  intros Hm Hs Hb. unfold takeSnapshot.
  destruct (revChecked env); simpl; [done|].
  destruct (cellAt_Ok st m _ _ Hm Hs Hb) as (c & Hc & ->). simpl.
  unfold walkableB. rewrite Hb, Hc. simpl. by destruct (isPath c && negb (filled c)).
Qed.

Lemma awardDeadEnd_spec env st m s e nx ny cd :
  maze st = Some m → start st = Some s → end_ st = Some e →
  getCell m nx ny = Some cd →
  let hit := deadEnd cd && negb (atPoint s nx ny) && negb (atPoint e nx ny) in
  awardDeadEnd env st nx ny =
  Ok (set_maze (Some (bonusGrid hit m nx ny))
        (set_score (score st + (moveGain env hit - 1)) st)).
Proof.
  intros Hm Hst Hen Hcd hit. unfold awardDeadEnd, cellAt. rewrite Hm. simpl.
  rewrite Hcd. simpl. rewrite Hst, Hen. simpl.
  subst hit. unfold atPoint, moveGain, bonusGrid.
  destruct (deadEnd cd); simpl.
  2:{ f_equal. state_eq. }
  destruct ((nx =? px s) && (ny =? py s)); simpl.
  { f_equal. state_eq. }
  destruct ((nx =? px e) && (ny =? py e)); simpl.
  { f_equal. state_eq. }
  unfold updAt. simpl. rewrite Hm. simpl.
  rewrite (updCell_Ok _ _ _ _ cd) by done. simpl.
  f_equal. state_eq.
Qed.

Lemma bonusGrid_sized c r hit m nx ny :
  gridSized c r m → gridSized c r (bonusGrid hit m nx ny).
Proof. intros. unfold bonusGrid. destruct hit; [by apply gridSized_alter|done]. Qed.

Lemma bonusGrid_shape hit m nx ny :
  0 ≤ nx → 0 ≤ ny → sameShape m (bonusGrid hit m nx ny).
Proof.
  intros. unfold bonusGrid. destruct hit; [|done].
  by apply sameShape_alter_deadEnd.
Qed.

Lemma bonusGrid_get hit m nx ny cx cy :
  0 ≤ nx → 0 ≤ ny → ¬ (cx = nx ∧ cy = ny) →
  getCell (bonusGrid hit m nx ny) cx cy = getCell m cx cy.
Proof.
  intros. unfold bonusGrid. destruct hit; [|done].
  rewrite getCell_alter by done. by rewrite decide_False.
Qed.

(** What a successful move does before the completion check. *)
Lemma attemptMove_spec env st m p s e dx dy cd :
  gameState st m p s e →
  let nx := gridX p + dx in
  let ny := gridY p + dy in
  walkableB st m nx ny = true →
  getCell m nx ny = Some cd →
  let toFill := if negb (revChecked env) && walkableB st m (gridX p) (gridY p)
                then Some (mkPoint (gridX p) (gridY p)) else None in
  let hit := deadEnd cd && negb (atPoint s nx ny) && negb (atPoint e nx ny) in
  let mA := bonusGrid hit m nx ny in
  ∃ m1,
    attemptMove env st dx dy =
    checkCompletion env
      (mkState (cols st) (rows st) (Some m1) (Some (mkPlayer nx ny))
         (start st) (end_ st) (originalPathCount st) (visitedCount st + 1)
         (undoStack st ++ [mkSnapshot (gridX p) (gridY p) toFill])
         (score st + moveGain env hit) (highscore st))
    ∧ gridSized (cols st) (rows st) m1
    ∧ match toFill with
      | None => m1 = mA
      | Some _ =>
          let mf := alter (alter (withFilled true) (Z.to_nat (gridX p)))
                      (Z.to_nat (gridY p)) mA in
          sameShape mf m1
          ∧ ∀ cx cy, getCell m1 cx cy =
              if decide (inBounds st cx cy = true
                         ∧ (cx - gridX p, cy - gridY p) ∈ coords9)
              then withDeadEnd (isDeadEndDef st mf cx cy) <$> getCell mf cx cy
              else getCell mf cx cy
      end.
Proof.
  intros [Hm Hs Hp Hin Hst Hen] nx ny Hw Hcd toFill hit mA.
  unfold attemptMove. rewrite Hp. simpl.
  rewrite (isWalkable_spec st m) by done. fold nx ny. rewrite Hw. simpl.
  rewrite (takeSnapshot_spec env st m) by done. fold toFill. simpl.
  erewrite awardDeadEnd_spec; [|done..]. simpl. fold hit. fold mA.
  set (stA := set_maze _ _).
  assert (HsA : gridSized (cols st) (rows st) mA) by by apply bonusGrid_sized.
  subst toFill.
  destruct (negb (revChecked env) && walkableB st m (gridX p) (gridY p)) eqn:Hf.
  - simpl.
    destruct (gridSized_getCell st mA (gridX p) (gridY p) HsA Hin) as [c' HcA].
    destruct (fill_recompute_spec stA mA true (gridX p) (gridY p) c')
      as (m1 & Hrun & Hs1 & Hsh1 & Hg1); try done.
    exists m1. split; [|by split_and!].
    simpl in Hrun. rewrite Hrun. simpl. do 2 f_equal. subst stA. state_eq.
  - exists mA. split; [|by split_and!]. simpl. do 2 f_equal. subst stA. state_eq.
Qed.

Lemma undo_spec st m p stk r :
  maze st = Some m → gridSized (cols st) (rows st) m → player st = Some p →
  undoStack st = stk ++ [r] →
  (∀ f, snapFilled r = Some f → inBounds st (px f) (py f) = true) →
  ∃ m2,
    undo st = Ok (mkState (cols st) (rows st) (Some m2)
                    (Some (mkPlayer (prevX r) (prevY r)))
                    (start st) (end_ st) (originalPathCount st)
                    (visitedCount st) stk (score st) (highscore st))
    ∧ gridSized (cols st) (rows st) m2
    ∧ match snapFilled r with
      | None => m2 = m
      | Some f =>
          let mu := alter (alter (withFilled false) (Z.to_nat (px f)))
                      (Z.to_nat (py f)) m in
          sameShape mu m2
          ∧ ∀ cx cy, getCell m2 cx cy =
              if decide (inBounds st cx cy = true
                         ∧ (cx - px f, cy - py f) ∈ coords9)
              then withDeadEnd (isDeadEndDef st mu cx cy) <$> getCell mu cx cy
              else getCell mu cx cy
      end.
Proof.
  intros Hm Hs Hp Hu Hfin. unfold undo.
  rewrite Hu, last_snoc, removelast_last.
  destruct (snapFilled r) as [f|] eqn:Hr; simpl.
  - destruct (gridSized_getCell st m (px f) (py f) Hs (Hfin f eq_refl)) as [c Hc].
    destruct (fill_recompute_spec (set_undoStack stk st) m false (px f) (py f) c)
      as (m2 & Hrun & Hs2 & Hsh2 & Hg2); try done.
    exists m2. split; [|by split_and!].
    simpl in Hrun. rewrite Hrun. simpl. rewrite Hp. simpl. done.
  - exists m. split; [|by split_and!]. rewrite Hp. simpl. f_equal. state_eq.
Qed.

Lemma checkCompletion_not_end env st p e :
  player st = Some p → end_ st = Some e → atPoint e (gridX p) (gridY p) = false →
  checkCompletion env st = Ok (st, None).
Proof.
  intros Hp He Hne. unfold checkCompletion. rewrite Hp, He. simpl.
  unfold atPoint in Hne. by rewrite Hne.
Qed.

(** Where the regeneration is not run inside the call, the completion
    check leaves everything but the score and the highscore alone. *)
Lemma checkCompletion_kept env st p e :
  player st = Some p → end_ st = Some e →
  atPoint e (gridX p) (gridY p) = false ∨ supportsViewTransition env = true →
  ∃ s1 pending, checkCompletion env st = Ok (s1, pending)
    ∧ cols s1 = cols st ∧ rows s1 = rows st ∧ maze s1 = maze st
    ∧ player s1 = player st ∧ start s1 = start st ∧ end_ s1 = end_ st
    ∧ originalPathCount s1 = originalPathCount st
    ∧ visitedCount s1 = visitedCount st ∧ undoStack s1 = undoStack st
    ∧ score st ≤ score s1 ∧ highscore st ≤ highscore s1
    ∧ (if atPoint e (gridX p) (gridY p)
       then pending = Some (mkTransition (Z.min 51 (cols st + 2))
                                         (Z.min 51 (rows st + 2)))
            ∧ score s1 = score st + Z.max 0 (100 - elapsedSec env)
            ∧ highscore s1 = Z.max (highscore st) (score s1)
       else pending = None ∧ s1 = st).
Proof.
  intros Hp He Hcase.
  destruct (atPoint e (gridX p) (gridY p)) eqn:Hat.
  - destruct Hcase as [?|Hvt]; [done|].
    unfold checkCompletion. rewrite Hp, He. cbn [deref mbind Res_bind].
    unfold atPoint in Hat. rewrite Hat. cbv zeta.
    unfold withViewTransition. rewrite Hvt.
    eexists _, _. split; [reflexivity|].
    rewrite Z.mul_1_r.
    set (b := Z.max 0 _). assert (0 ≤ b) by lia.
    destruct (highscore (set_score (score st + b) st)
              <? score (set_score (score st + b) st)) eqn:Hhs; simpl in *.
    + apply Z.ltb_lt in Hhs. split_and!; done || lia.
    + apply Z.ltb_ge in Hhs. split_and!; done || lia.
  - exists st, None. rewrite (checkCompletion_not_end env st p e) by done.
    split_and!; done || lia.
Qed.

Lemma cell_ext (c c' : MazeCell) :
  type c = type c' → filled c = filled c' → deadEnd c = deadEnd c' → c = c'.
Proof. destruct c, c'; simpl; congruence. Qed.

Lemma sameShape_sym m m' : sameShape m m' → sameShape m' m.
Proof. intros H x y. by rewrite H. Qed.

(** Filling and then clearing a cell that was not filled restores the
    shape of the grid. *)
Lemma sameShape_fill_unfill m mA m1 m2 x y c :
  0 ≤ x → 0 ≤ y → getCell m x y = Some c → filled c = false →
  sameShape m mA →
  sameShape (alter (alter (withFilled true) (Z.to_nat x)) (Z.to_nat y) mA) m1 →
  sameShape (alter (alter (withFilled false) (Z.to_nat x)) (Z.to_nat y) m1) m2 →
  sameShape m m2.
Proof.
  intros Hx Hy Hc Hf HA H1 H2 cx cy.
  rewrite <- H2. rewrite getCell_alter by done.
  specialize (H1 cx cy). rewrite getCell_alter in H1 by done.
  specialize (HA cx cy).
  destruct (decide (cx = x ∧ cy = y)) as [[-> ->]|Hne].
  - rewrite Hc in HA. simpl in HA.
    destruct (getCell mA x y) as [cA|]; [|done].
    destruct (getCell m1 x y) as [c1|]; [|done].
    simpl in HA, H1. rewrite Hc. simpl.
    injection HA as Ht1 Hf1. injection H1 as Ht2 Hf2. do 2 f_equal; congruence.
  - by rewrite HA, H1.
Qed.

Lemma offset_unit_in_coords9 dx dy x y :
  Z.abs dx + Z.abs dy = 1 → (x + dx - x, y + dy - y) ∈ coords9.
Proof.
  intros H. replace (x + dx - x) with dx by lia. replace (y + dy - y) with dy by lia.
  assert ((dx = 1 ∧ dy = 0) ∨ (dx = -1 ∧ dy = 0) ∨ (dx = 0 ∧ dy = 1) ∨ (dx = 0 ∧ dy = -1))
    as [[-> ->]|[[-> ->]|[[-> ->]|[-> ->]]]] by lia; unfold coords9; set_solver.
Qed.

Lemma offset_zero_in_coords9 x y : (x - x, y - y) ∈ coords9.
Proof. rewrite !Z.sub_diag. unfold coords9. set_solver. Qed.

(** C4 (amended).  A successful move that returns with the maze in place
    (it does not reach End, or the regeneration is deferred), followed at
    once by [undo]: the agent is back where it stood, the undo stack is as
    before, and every cell has the type and the filled flag it had; the
    score keeps what the move added.  The dead-end flags: when the move
    fills no cell, the grid is exactly as before unless the move took the
    dead-end bonus, and then the flag of the destination stays cleared;
    when the move fills the cell it leaves, every cell is exactly as
    before if and only if the flags in reach of the recompute around that
    cell agreed with the definition and a destination whose bonus was
    taken lies in that reach, as it does after a unit step. *)
Theorem undo_after_move env st m p s e dx dy :
  gameState st m p s e →
  walkableB st m (gridX p + dx) (gridY p + dy) = true →
  atPoint e (gridX p + dx) (gridY p + dy) = false
  ∨ supportsViewTransition env = true →
  ∃ s1 pending s2 m2,
    attemptMove env st dx dy = Ok (s1, pending) ∧ undo s1 = Ok s2
    ∧ player s2 = Some p ∧ undoStack s2 = undoStack st
    ∧ maze s2 = Some m2 ∧ sameShape m m2
    ∧ score s2 = score s1 ∧ score st < score s1
    ∧ (fillsDeparted env st m p = false →
       if takesBonus m s e (gridX p + dx) (gridY p + dy)
       then ∃ c c2, getCell m (gridX p + dx) (gridY p + dy) = Some c
              ∧ getCell m2 (gridX p + dx) (gridY p + dy) = Some c2
              ∧ deadEnd c = true ∧ deadEnd c2 = false
       else m2 = m)
    ∧ (fillsDeparted env st m p = true →
       (∀ cx cy, getCell m2 cx cy = getCell m cx cy)
       ↔ flagsNear st m (gridX p) (gridY p)
         ∧ (takesBonus m s e (gridX p + dx) (gridY p + dy) = true →
            (dx, dy) ∈ coords9))
    ∧ (Z.abs dx + Z.abs dy = 1 → (dx, dy) ∈ coords9).
Proof.
  intros Hgs Hw Hcase. pose proof Hgs as [Hm Hs Hp Hin Hst Hen].
  set (nx := gridX p + dx) in *. set (ny := gridY p + dy) in *.
  assert (Hbd : inBounds st nx ny = true).
  { unfold walkableB in Hw. by apply andb_prop in Hw as [? _]. }
  destruct (gridSized_getCell st m nx ny Hs Hbd) as [cd Hcd].
  destruct (attemptMove_spec env st m p s e dx dy cd Hgs Hw Hcd)
    as (m1 & Hmove & Hs1 & Hm1).
  fold nx ny in Hmove, Hm1.
  set (hit := deadEnd cd && negb (atPoint s nx ny) && negb (atPoint e nx ny)) in *.
  assert (Hhit : takesBonus m s e nx ny = hit).
  { unfold takesBonus. by rewrite Hcd. }
  rewrite Hhit. unfold fillsDeparted.
  set (toFill := if negb (revChecked env) && walkableB st m (gridX p) (gridY p)
                 then Some (mkPoint (gridX p) (gridY p)) else None) in *.
  set (s0 := mkState _ _ _ _ _ _ _ _ _ _ _) in Hmove.
  destruct (checkCompletion_kept env s0 (mkPlayer nx ny) e)
    as (s1 & pending & Hcc & Hc1 & Hr1 & Hmz1 & Hp1 & Hst1 & Hen1 & _ & _ & Hus1
        & Hsc1 & _); [done|done|done|].
  rewrite Hcc in Hmove.
  change (cols s0) with (cols st) in Hc1. change (rows s0) with (rows st) in Hr1.
  change (maze s0) with (Some m1) in Hmz1.
  change (player s0) with (Some (mkPlayer nx ny)) in Hp1.
  change (start s0) with (start st) in Hst1. change (end_ s0) with (end_ st) in Hen1.
  change (undoStack s0)
    with (undoStack st ++ [mkSnapshot (gridX p) (gridY p) toFill]) in Hus1.
  change (score s0) with (score st + moveGain env hit) in Hsc1.
  assert (Hib : ∀ cx cy, inBounds s1 cx cy = inBounds st cx cy).
  { intros. unfold inBounds. by rewrite Hc1, Hr1. }
  pose proof Hin as Hin'. apply inBounds_spec in Hin'.
  pose proof Hbd as Hbd'. apply inBounds_spec in Hbd'.
  destruct (undo_spec s1 m1 (mkPlayer nx ny) (undoStack st)
              (mkSnapshot (gridX p) (gridY p) toFill))
    as (m2 & Hundo & Hs2 & Hm2); try done.
  { by rewrite Hc1, Hr1. }
  { simpl. subst toFill. intros f Hf. rewrite Hib.
    destruct (negb (revChecked env) && walkableB st m (gridX p) (gridY p));
      [|done]. by injection Hf as <-. }
  cbn [prevX prevY snapFilled] in Hundo, Hm2.
  assert (HshA : sameShape m (bonusGrid hit m nx ny)) by (apply bonusGrid_shape; lia).
  assert (Hgain : 0 < moveGain env hit).
  { unfold moveGain. destruct hit; [|lia].
    unfold bonusPreset. repeat case_match; vm_compute; done. }
  assert (Hshape : sameShape m m2).
  { subst toFill.
    destruct (negb (revChecked env) && walkableB st m (gridX p) (gridY p)) eqn:Hf.
    - simpl in Hm2. destruct Hm1 as [Hsh1 _]. destruct Hm2 as [Hsh2 _].
      apply andb_prop in Hf as [_ Hpw]. unfold walkableB in Hpw.
      rewrite Hin in Hpw. simpl in Hpw.
      destruct (getCell m (gridX p) (gridY p)) as [c|] eqn:Hc; [|done].
      apply andb_prop in Hpw as [_ Hnf]. apply negb_true_iff in Hnf.
      eapply (sameShape_fill_unfill m _ m1 m2 (gridX p) (gridY p) c); try done; lia.
    - simpl in Hm2. subst m2 m1. done. }
  eexists s1, pending, _, m2.
  split; [exact Hmove|]. split; [exact Hundo|].
  split; [simpl; by destruct p|].
  split; [done|]. split; [done|]. split; [done|]. split; [done|].
  split; [lia|].
  assert (Hoff : (nx - gridX p, ny - gridY p) = (dx, dy)).
  { subst nx ny. f_equal; lia. }
  split; [|split].
  - (* the move fills nothing *)
    intros Hnf. subst toFill. rewrite Hnf in Hm1, Hm2. subst m2 m1.
    destruct hit eqn:Hh; [|done].
    exists cd. unfold bonusGrid. rewrite getCell_alter by lia.
    rewrite decide_True by done. rewrite Hcd. simpl.
    eexists. split; [done|]. split; [reflexivity|].
    split; [|done]. unfold hit in Hh. by apply andb_prop in Hh as [[? _]%andb_prop _].
  - (* the move fills the cell it leaves *)
    intros Hf. subst toFill. rewrite Hf in Hm1, Hm2. simpl in Hm1, Hm2.
    destruct Hm1 as [Hsh1 Hg1]. destruct Hm2 as [Hsh2 Hg2].
    apply andb_prop in Hf as [_ Hpw].
    assert (∃ c0, getCell m (gridX p) (gridY p) = Some c0 ∧ filled c0 = false)
      as (c0 & Hc0 & Hnf).
    { unfold walkableB in Hpw. rewrite Hin in Hpw. simpl in Hpw.
      destruct (getCell m (gridX p) (gridY p)) as [c0|]; [|done].
      apply andb_prop in Hpw as [_ Hnf]. apply negb_true_iff in Hnf. eauto. }
    assert (Hdef : ∀ cx cy,
      isDeadEndDef s1
        (alter (alter (withFilled false) (Z.to_nat (gridX p))) (Z.to_nat (gridY p)) m1)
        cx cy = isDeadEndDef st m cx cy).
    { intros cx cy. symmetry.
      apply isDeadEndDef_shape; [done|done|done|done|].
      apply (sameShape_fill_unfill m (bonusGrid hit m nx ny) m1 _
               (gridX p) (gridY p) c0);
        [lia|lia|done|done|done|done|apply sameShape_refl]. }
    assert (Hfar : ∀ cx cy,
      ¬ (inBounds st cx cy = true ∧ (cx - gridX p, cy - gridY p) ∈ coords9) →
      getCell m2 cx cy = getCell (bonusGrid hit m nx ny) cx cy).
    { intros cx cy Hfar.
      assert (Hnp : ¬ (cx = gridX p ∧ cy = gridY p)).
      { intros [-> ->]. apply Hfar. split; [done|]. apply offset_zero_in_coords9. }
      rewrite Hg2, Hib. rewrite decide_False by done.
      rewrite getCell_alter by lia. rewrite decide_False by done.
      rewrite Hg1. rewrite decide_False by done.
      rewrite getCell_alter by lia. by rewrite decide_False. }
    split.
    + intros Hall. split.
      * intros cx cy c Hbc Hnear Hc.
        pose proof (Hall cx cy) as Heq. rewrite Hg2, Hib in Heq.
        rewrite decide_True in Heq by done. rewrite Hc in Heq.
        destruct (getCell (alter _ _ m1) cx cy) as [cu|]; [|done].
        simpl in Heq. injection Heq as <-. simpl. apply Hdef.
      * intros Hh. destruct (decide ((dx, dy) ∈ coords9)) as [|Hout]; [done|].
        exfalso. pose proof (Hall nx ny) as Heq.
        rewrite Hfar in Heq by (rewrite Hoff; tauto).
        rewrite Hh in Heq. unfold bonusGrid in Heq.
        rewrite getCell_alter in Heq by lia. rewrite decide_True in Heq by done.
        rewrite Hcd in Heq. simpl in Heq. injection Heq as Heq.
        unfold hit in Hh. apply andb_prop in Hh as [[Hd _]%andb_prop _].
        rewrite <- Heq in Hd. done.
    + intros [Hloc Hreach] cx cy.
      pose proof (Hshape cx cy) as Hsc.
      destruct (decide (inBounds st cx cy = true
                        ∧ (cx - gridX p, cy - gridY p) ∈ coords9))
        as [[Hbc Hnear]|Hfarc].
      * destruct (getCell m cx cy) as [c|] eqn:Hc;
          destruct (getCell m2 cx cy) as [c2|] eqn:Hc2; try done.
        simpl in Hsc. injection Hsc as Ht Hfl. f_equal. symmetry.
        apply cell_ext; [done|done|].
        rewrite Hg2, Hib in Hc2. rewrite decide_True in Hc2 by done.
        destruct (getCell (alter _ _ m1) cx cy) as [cu|]; [|done].
        simpl in Hc2. injection Hc2 as <-. simpl.
        rewrite (Hloc cx cy c) by done. symmetry. apply Hdef.
      * rewrite Hfar by done.
        destruct (decide (cx = nx ∧ cy = ny)) as [[-> ->]|Hnd].
        -- destruct hit eqn:Hh; [|done].
           exfalso. apply Hfarc. split; [done|]. rewrite Hoff. by apply Hreach.
        -- by rewrite bonusGrid_get by (done || lia).
  - intros Hunit. rewrite <- Hoff. subst nx ny. by apply offset_unit_in_coords9.
Qed.

(** *** Example states *)

Lemma tGrid_sized : gridSized 5 5 tGrid.
Proof. split; [done|]. repeat constructor. Qed.

Lemma tGridFilled_sized : gridSized 5 5 tGridFilled.
Proof. split; [done|]. repeat constructor. Qed.

Lemma tState_game :
  gameState tState tGrid (mkPlayer 2 2) (mkPoint 1 1) (mkPoint 3 1).
Proof. split; try done. apply tGrid_sized. Qed.

(** C9, at an instance: from (2,2) a step to the left runs into a wall. *)
Lemma attemptMove_blocked_noop_witness :
  attemptMove (envWith false) tState (-1) 0 = Ok (tState, None).
Proof.
  apply (attemptMove_blocked_noop (envWith false) tState tGrid (mkPlayer 2 2) (-1) 0).
  - reflexivity.
  - apply tGrid_sized.
  - reflexivity.
  - vm_compute. reflexivity.
Defined.

(** C4, as stated, fails: in reverse mode the move into the dead end (2,3)
    clears its flag, and the following [undo] leaves it cleared. *)
Lemma undo_after_move_counterexample :
  ∃ s1 s2 m1 m2,
    attemptMove (envWith true) tState 0 1 = Ok (s1, None) ∧ undo s1 = Ok s2
    ∧ maze s1 = Some m1 ∧ maze s2 = Some m2
    ∧ deadEnd <$> getCell tGrid 2 3 = Some true
    ∧ deadEnd <$> getCell m1 2 3 = Some false
    ∧ deadEnd <$> getCell m2 2 3 = Some false.
Proof.
  do 4 eexists. split_and!; vm_compute; reflexivity.
Qed.

(** C4 (amended), at an instance: normal mode, from (2,2) into the dead
    end (2,3) and back. *)
Lemma undo_after_move_witness :
  ∃ s1 pending s2 m2,
    attemptMove (envWith false) tState 0 1 = Ok (s1, pending) ∧ undo s1 = Ok s2
    ∧ player s2 = Some (mkPlayer 2 2) ∧ undoStack s2 = undoStack tState
    ∧ maze s2 = Some m2 ∧ sameShape tGrid m2
    ∧ score s2 = score s1 ∧ score tState < score s1
    ∧ (fillsDeparted (envWith false) tState tGrid (mkPlayer 2 2) = false →
       if takesBonus tGrid (mkPoint 1 1) (mkPoint 3 1) (2 + 0) (2 + 1)
       then ∃ c c2, getCell tGrid (2 + 0) (2 + 1) = Some c
              ∧ getCell m2 (2 + 0) (2 + 1) = Some c2
              ∧ deadEnd c = true ∧ deadEnd c2 = false
       else m2 = tGrid)
    ∧ (fillsDeparted (envWith false) tState tGrid (mkPlayer 2 2) = true →
       (∀ cx cy, getCell m2 cx cy = getCell tGrid cx cy)
       ↔ flagsNear tState tGrid 2 2
         ∧ (takesBonus tGrid (mkPoint 1 1) (mkPoint 3 1) (2 + 0) (2 + 1) = true →
            (0, 1) ∈ coords9))
    ∧ (Z.abs 0 + Z.abs 1 = 1 → (0, 1) ∈ coords9).
Proof.
  apply (undo_after_move (envWith false) tState tGrid (mkPlayer 2 2)
           (mkPoint 1 1) (mkPoint 3 1) 0 1).
  - apply tState_game.
  - vm_compute. reflexivity.
  - left. vm_compute. reflexivity.
Defined.

(** C2, as stated, fails on a grid with a filled cell: (2,1) is path, not
    filled, and (3,1) is its only walkable neighbour, yet the full
    recompute counts the filled (1,1) as well and leaves the flag false. *)
Lemma recomputeAllDeadEnds_counterexample :
  ∃ st' m', recomputeAllDeadEnds corridorState = Ok st' ∧ maze st' = Some m'
    ∧ deadEnd <$> getCell m' 2 1 = Some false
    ∧ isDeadEndDef st' m' 2 1 = true
    ∧ ¬ deadEndsCorrect st'.
Proof.
  eexists _, _. split_and!; try (vm_compute; reflexivity).
  intros (m & Hm & Hall). injection Hm as <-.
  specialize (Hall 2 1 cP eq_refl eq_refl). vm_compute in Hall. done.
Qed.

Lemma unfilled_getCell (m : Grid) :
  Forall (Forall (λ c, filled c = false)) m →
  ∀ x y c, getCell m x y = Some c → filled c = false.
Proof.
  intros Hnf0 x y c (_ & _ & row & Hr & Hc)%getCell_Some.
  rewrite Forall_lookup in Hnf0. specialize (Hnf0 _ _ Hr).
  rewrite Forall_lookup in Hnf0. by apply (Hnf0 _ _ Hc).
Qed.

(** Where no cell is filled, a path cell is a walkable cell, and the count
    of path neighbours is the count of walkable neighbours. *)
Lemma fullDef_unfilled st m x y :
  (∀ x y c, getCell m x y = Some c → filled c = false) →
  fullDef st m x y = isDeadEndDef st m x y.
Proof.
  intros Hnf. unfold fullDef, isDeadEndDef, pathCount, openCount.
  assert (Hpw : ∀ a b, pathB st m a b = walkableB st m a b).
  { intros a b. unfold pathB, walkableB. f_equal.
    destruct (getCell m a b) as [c1|] eqn:Hc1; [|done].
    rewrite (Hnf a b c1 Hc1). simpl. by rewrite andb_true_r. }
  rewrite Hpw. do 3 f_equal. f_equal. apply countIf_ext. intros d. apply Hpw.
Qed.

(** The full recompute on a grid whose cells are all unfilled. *)
Lemma recomputeAll_unfilled_cells st m :
  maze st = Some m → gridSized (cols st) (rows st) m →
  (∀ x y c, getCell m x y = Some c → filled c = false) →
  ∃ st' m', recomputeAllDeadEnds st = Ok st' ∧ sameFrame st st'
    ∧ maze st' = Some m' ∧ gridSized (cols st') (rows st') m'
    ∧ sameShape m m' ∧ deadEndsCorrect st'.
Proof.
  intros Hm Hs Hnf.
  destruct (recomputeAllDeadEnds_spec st m Hm Hs)
    as (st' & m' & Hrun & Hfr & Hm' & Hs' & Hsh & Hg).
  pose proof Hfr as (Hc & Hr & _ & Hst & Hen & _).
  exists st', m'. split_and!; try done.
  { by rewrite <- Hc, <- Hr. }
  exists m'. split; [done|]. intros x y c Hb Hcell.
  assert (Hb' : inBounds st x y = true) by (unfold inBounds in *; by rewrite Hc, Hr).
  rewrite Hg in Hcell by done.
  destruct (getCell m x y) as [c0|] eqn:Hc0; [|done].
  simpl in Hcell. injection Hcell as <-. simpl.
  rewrite <- (isDeadEndDef_shape st st' m m') by done.
  by apply fullDef_unfilled.
Qed.

(** C2 (amended).  On a grid in which no cell is filled, the full
    recompute ends normally, keeps every cell's type and filled flag, and
    leaves every cell's dead-end flag equal to the definition: path, not
    filled, exactly one walkable 4-neighbour, neither Start nor End. *)
Theorem recomputeAllDeadEnds_unfilled st m :
  maze st = Some m → gridSized (cols st) (rows st) m →
  Forall (Forall (λ c, filled c = false)) m →
  ∃ st' m', recomputeAllDeadEnds st = Ok st' ∧ sameFrame st st'
    ∧ maze st' = Some m' ∧ gridSized (cols st') (rows st') m'
    ∧ sameShape m m' ∧ deadEndsCorrect st'.
Proof.
  intros Hm Hs Hnf. apply recomputeAll_unfilled_cells; [done|done|].
  by apply unfilled_getCell.
Qed.

Lemma recomputeAllDeadEnds_unfilled_witness :
  ∃ st' m', recomputeAllDeadEnds tState = Ok st' ∧ sameFrame tState st'
    ∧ maze st' = Some m' ∧ gridSized (cols st') (rows st') m'
    ∧ sameShape tGrid m' ∧ deadEndsCorrect st'.
Proof.
  apply (recomputeAllDeadEnds_unfilled tState tGrid).
  - reflexivity.
  - apply tGrid_sized.
  - repeat constructor.
Defined.

(** * Proofs: The generator *)

Lemma reach_mono m m' a b :
  (∀ c, isPathAt m c → isPathAt m' c) → reach m a b → reach m' a b.
Proof.
  intros Hm. induction 1.
  - apply reach_here. auto.
  - eapply reach_step; eauto.
Qed.

Lemma reach_trans m a b c : reach m a b → reach m b c → reach m a c.
Proof. intros Hab. induction 1; [done|]. eapply reach_step; eauto. Qed.

Lemma total_alter {A} (w : A → nat) f (l : list A) i a :
  l !! i = Some a →
  (total w (alter f i l) + w a = total w l + w (f a))%nat.
Proof.
  unfold total. revert i. induction l as [|x l IH]; intros [|i] Hi; simplify_eq/=.
  - lia.
  - specialize (IH i Hi). lia.
Qed.

Lemma total_replicate {A} (w : A → nat) n a :
  total w (replicate n a) = (n * w a)%nat.
Proof.
  unfold total. induction n as [|n IH]; [done|].
  change (sum_list (w <$> replicate (S n) a))
    with (w a + sum_list (w <$> replicate n a))%nat.
  rewrite IH. lia.
Qed.

Lemma wallCount_alter f m x y c :
  getCell m x y = Some c →
  (wallCount (alter (alter f (Z.to_nat x)) (Z.to_nat y) m) + wallWeight c
   = wallCount m + wallWeight (f c))%nat.
Proof.
  intros (Hx & Hy & row & Hr & Hc)%getCell_Some. unfold wallCount.
  pose proof (total_alter (total wallWeight) (alter f (Z.to_nat x)) m _ _ Hr).
  pose proof (total_alter wallWeight f row _ _ Hc). lia.
Qed.

Lemma pristine_alter f m i j :
  (∀ c, filled c = false ∧ deadEnd c = false →
        filled (f c) = false ∧ deadEnd (f c) = false) →
  pristine m → pristine (alter (alter f i) j m).
Proof.
  intros Hf Hp. unfold pristine in *. rewrite Forall_lookup in Hp.
  apply Forall_lookup. intros k row Hk.
  destruct (decide (k = j)) as [->|Hne].
  - rewrite list_lookup_alter_eq in Hk.
    destruct (m !! j) as [row0|] eqn:E; simplify_eq/=.
    specialize (Hp _ _ E). rewrite Forall_lookup in Hp.
    apply Forall_lookup. intros k c Hc.
    destruct (decide (k = i)) as [->|Hni].
    + rewrite list_lookup_alter_eq in Hc.
      destruct (row0 !! i) as [c0|] eqn:E0; simplify_eq/=. eauto.
    + rewrite list_lookup_alter_ne in Hc by done. eauto.
  - rewrite list_lookup_alter_ne in Hk by done. eauto.
Qed.

Lemma isPathAt_alter_type m x y a :
  0 ≤ x → 0 ≤ y →
  isPathAt m a → isPathAt (alter (alter (withType path) (Z.to_nat x)) (Z.to_nat y) m) a.
Proof.
  intros Hx Hy (c & Hc & Ht). unfold isPathAt. rewrite getCell_alter by done.
  case_decide.
  - rewrite Hc. simpl. eauto.
  - eauto.
Qed.

Lemma isPathAt_alter_here m x y c :
  getCell m x y = Some c →
  isPathAt (alter (alter (withType path) (Z.to_nat x)) (Z.to_nat y) m) (x, y).
Proof.
  intros Hc. pose proof Hc as (Hx & Hy & _)%getCell_Some.
  unfold isPathAt. simpl. rewrite getCell_alter by done.
  rewrite decide_True by done. rewrite Hc. simpl. eauto.
Qed.

Lemma elem_dirs2 d :
  d ∈ dirs2 ↔ d = (2, 0) ∨ d = (-2, 0) ∨ d = (0, 2) ∨ d = (0, -2).
Proof. unfold dirs2. set_solver. Qed.

Lemma sized_get C R m x y :
  gridSized C R m → 0 ≤ x < C → 0 ≤ y < R → is_Some (getCell m x y).
Proof.
  intros Hs Hx Hy.
  apply (gridSized_getCell (mkState C R None None None None 0 0 [] 0 0)); [done|].
  apply inBounds_spec. simpl. lia.
Qed.

Lemma tryCarve_spec C R m cx cy dirs :
  gridSized C R m → isRoom C R (cx, cy) → (∀ d, d ∈ dirs → d ∈ dirs2) →
  match tryCarve C R m cx cy dirs with
  | Ok None =>
      ∀ d, d ∈ dirs → isRoom C R (cx + d.1, cy + d.2) →
           isPathAt m (cx + d.1, cy + d.2)
  | Ok (Some (m', n)) =>
      ∃ d cn, d ∈ dirs ∧ n = (cx + d.1, cy + d.2) ∧ isRoom C R n
        ∧ getCell m n.1 n.2 = Some cn ∧ type cn = wall ∧ m' = carved m cx cy d
  | _ => False
  end.
Proof.
  intros Hs (Hx & Hy & Hox & Hoy) Hd. simpl in *.
  induction dirs as [|[dx dy] ds IH]; simpl.
  - intros d Hin. set_solver.
  - assert (Hds : ∀ d, d ∈ ds → d ∈ dirs2) by (intros; apply Hd; set_solver).
    specialize (IH Hds).
    assert (Hdd : (dx, dy) ∈ dirs2) by (apply Hd; set_solver).
    assert (Hodd : Z.odd (cx + dx) = true ∧ Z.odd (cy + dy) = true).
    { apply elem_dirs2 in Hdd. rewrite !Z.odd_add.
      destruct Hdd as [?|[?|[?|?]]]; simplify_eq; rewrite Hox, Hoy; done. }
    destruct ((0 <? cx + dx) && (cx + dx <? C - 1) && (0 <? cy + dy)
              && (cy + dy <? R - 1)) eqn:Hrange.
    + rewrite !andb_true_iff in Hrange.
      destruct (sized_get C R m (cx + dx) (cy + dy) Hs) as [c Hc]; [lia|lia|].
      rewrite Hc. simpl. destruct (type c) eqn:Ht.
      * assert (Hmid : is_Some (getCell m (cx + dx / 2) (cy + dy / 2))).
        { apply (sized_get C R); [done|..];
          apply elem_dirs2 in Hdd; destruct Hdd as [?|[?|[?|?]]]; simplify_eq;
          change (2 / 2) with 1; change (-2 / 2) with (-1); change (0 / 2) with 0; lia. }
        destruct Hmid as [cm Hcm].
        rewrite (updCell_Ok _ _ _ _ cm) by done. simpl.
        assert (Hmidpos : 0 ≤ cx + dx / 2 ∧ 0 ≤ cy + dy / 2).
        { apply getCell_Some in Hcm. lia. }
        rewrite (updCell_Ok _ _ _ _ (if decide (cx + dx = cx + dx / 2 ∧ cy + dy = cy + dy / 2)
                                     then withType path c else c)).
        2:{ rewrite getCell_alter by lia. case_decide; by rewrite Hc. }
        simpl. exists (dx, dy), c. split_and!; try done; simpl; try lia.
        { set_solver. }
        { unfold isRoom. simpl. destruct Hodd. split_and!; done || lia. }
      * destruct (tryCarve C R m cx cy ds) as [[[m' n]|]| |]; try done.
        -- destruct IH as (d & cn & Hin & ?). exists d, cn. split; [set_solver|done].
        -- intros d Hin Hroom. apply elem_of_cons in Hin as [->|Hin]; [|by apply IH].
           exists c. done.
    + destruct (tryCarve C R m cx cy ds) as [[[m' n]|]| |]; try done.
      * destruct IH as (d & cn & Hin & ?). exists d, cn. split; [set_solver|done].
      * intros d Hin Hroom. apply elem_of_cons in Hin as [->|Hin]; [|by apply IH].
        destruct Hroom as (? & ? & _). simpl in *.
        rewrite !andb_false_iff in Hrange. lia.
Qed.

Lemma isPathAt_carved m cx cy d a :
  0 ≤ cx + d.1 → 0 ≤ cy + d.2 → 0 ≤ cx + d.1 / 2 → 0 ≤ cy + d.2 / 2 →
  isPathAt m a → isPathAt (carved m cx cy d) a.
Proof.
  intros. unfold carved. apply isPathAt_alter_type; [done..|].
  by apply isPathAt_alter_type.
Qed.

Lemma carve_push C R m stack cx cy d cn :
  carveInv C R m stack → last stack = Some (cx, cy) → d ∈ dirs2 →
  isRoom C R (cx + d.1, cy + d.2) →
  getCell m (cx + d.1) (cy + d.2) = Some cn → type cn = wall →
  carveInv C R (carved m cx cy d) (stack ++ [(cx + d.1, cy + d.2)])
  ∧ (wallCount (carved m cx cy d) < wallCount m)%nat.
Proof.
  intros [Hs Hpr Hst Hconn Hdone Hstart] Hlast Hd Hroom Hcn Hwall.
  assert (Htop : (cx, cy) ∈ stack).
  { apply last_Some in Hlast as [l' ->]. set_solver. }
  destruct (Hst _ Htop) as [Hroomc Hpathc].
  pose proof Hroomc as (Hx & Hy & Hox & Hoy). simpl in *.
  pose proof Hroom as (Hnx & Hny & _). simpl in *.
  assert (Hmidr : 0 ≤ cx + d.1 / 2 < C ∧ 0 ≤ cy + d.2 / 2 < R
                  ∧ adjacent (cx, cy) (cx + d.1 / 2, cy + d.2 / 2)
                  ∧ adjacent (cx + d.1 / 2, cy + d.2 / 2) (cx + d.1, cy + d.2)).
  { unfold adjacent. simpl.
    apply elem_dirs2 in Hd; destruct Hd as [?|[?|[?|?]]]; simplify_eq; simpl in *;
      change (2 / 2) with 1; change (-2 / 2) with (-1); change (0 / 2) with 0; lia. }
  destruct Hmidr as (Hmx & Hmy & Hadj1 & Hadj2).
  destruct (sized_get C R m (cx + d.1 / 2) (cy + d.2 / 2) Hs) as [cm Hcm]; [lia|lia|].
  set (m1 := alter (alter (withType path) (Z.to_nat (cx + d.1 / 2)))
               (Z.to_nat (cy + d.2 / 2)) m).
  assert (Hmono : ∀ a, isPathAt m a → isPathAt (carved m cx cy d) a).
  { intros a. apply isPathAt_carved; lia. }
  assert (Hmidp : isPathAt (carved m cx cy d) (cx + d.1 / 2, cy + d.2 / 2)).
  { unfold carved. apply isPathAt_alter_type; [lia|lia|].
    by apply (isPathAt_alter_here m _ _ cm). }
  assert (Hcn1 : is_Some (getCell m1 (cx + d.1) (cy + d.2))).
  { unfold m1. rewrite getCell_alter by lia. case_decide; rewrite Hcn; eauto. }
  destruct Hcn1 as [cn1 Hcn1].
  assert (Hnp : isPathAt (carved m cx cy d) (cx + d.1, cy + d.2)).
  { unfold carved. fold m1. by apply (isPathAt_alter_here m1 _ _ cn1). }
  split.
  - split.
    + unfold carved. by do 2 apply gridSized_alter.
    + unfold carved. do 2 (apply pristine_alter; [by intros ? [? ?]|]). done.
    + intros a [Ha| ->%list_elem_of_singleton]%elem_of_app.
      * destruct (Hst a Ha). split; [done|]. by apply Hmono.
      * done.
    + intros a (c & Hc & Ht). unfold carved in Hc. fold m1 in Hc.
      rewrite getCell_alter in Hc by lia.
      destruct (decide (a.1 = cx + d.1 ∧ a.2 = cy + d.2)) as [[E1 E2]|Hne1].
      { replace a with (cx + d.1, cy + d.2) by (destruct a; simpl in *; congruence).
        eapply reach_step; [|exact Hadj2|done].
        eapply reach_step; [|exact Hadj1|done].
        eapply reach_mono; [exact Hmono|]. by apply Hconn. }
      unfold m1 in Hc. rewrite getCell_alter in Hc by lia.
      destruct (decide (a.1 = cx + d.1 / 2 ∧ a.2 = cy + d.2 / 2)) as [[E1 E2]|Hne2].
      { replace a with (cx + d.1 / 2, cy + d.2 / 2) by (destruct a; simpl in *; congruence).
        eapply reach_step; [|exact Hadj1|done].
        eapply reach_mono; [exact Hmono|]. by apply Hconn. }
      eapply reach_mono; [exact Hmono|]. apply Hconn. by exists c.
    + intros a d' Hra (c & Hc & Ht) Hnin Hd' Hra'.
      assert (Hna : a ≠ (cx + d.1, cy + d.2)) by set_solver.
      assert (Hpa : isPathAt m a).
      { unfold carved in Hc. fold m1 in Hc. rewrite getCell_alter in Hc by lia.
        rewrite decide_False in Hc.
        2:{ intros [? ?]. apply Hna. destruct a; simpl in *; congruence. }
        unfold m1 in Hc. rewrite getCell_alter in Hc by lia.
        case_decide as Hmid; [|by exists c].
        exfalso. destruct Hra as (_ & _ & Ho1 & Ho2). destruct Hmid as [E1 E2].
        rewrite E1 in Ho1. rewrite E2 in Ho2. rewrite Z.odd_add in Ho1, Ho2.
        rewrite Hox in Ho1. rewrite Hoy in Ho2.
        apply elem_dirs2 in Hd; destruct Hd as [?|[?|[?|?]]]; simplify_eq; simpl in *;
          done. }
      apply Hmono. apply Hdone; try done. set_solver.
    + by apply Hmono.
  - unfold carved. fold m1.
    pose proof (wallCount_alter (withType path) m1 _ _ cn1 Hcn1) as H1.
    pose proof (wallCount_alter (withType path) m _ _ cm Hcm) as H2.
    fold m1 in H2.
    assert (wallWeight cn1 = 1%nat).
    { unfold m1 in Hcn1. rewrite getCell_alter in Hcn1 by lia.
      rewrite decide_False in Hcn1.
      - unfold wallWeight. by simplify_eq; rewrite Hwall.
      - apply elem_dirs2 in Hd; destruct Hd as [?|[?|[?|?]]]; simplify_eq; simpl in *;
          change (2 / 2) with 1; change (-2 / 2) with (-1); change (0 / 2) with 0; lia. }
    unfold wallWeight at 2 in H1. unfold wallWeight at 2 in H2. simpl in H1, H2.
    unfold wallWeight in H2 at 1. destruct (type cm); lia.
Qed.

Lemma carve_pop C R m stack top :
  carveInv C R m stack → last stack = Some top →
  (∀ d, d ∈ dirs2 → isRoom C R (top.1 + d.1, top.2 + d.2) →
        isPathAt m (top.1 + d.1, top.2 + d.2)) →
  carveInv C R m (removelast stack).
Proof.
  intros [Hs Hpr Hst Hconn Hdone Hstart] Hlast Htests.
  apply last_Some in Hlast as [l' ->]. rewrite removelast_last.
  split; try done.
  - intros a Ha. apply Hst. set_solver.
  - intros a d Hra Hpa Hnin Hd Hra'.
    destruct (decide (a = top)) as [->|Hne].
    + by apply Htests.
    + apply Hdone; try done. set_solver.
Qed.

Lemma swap_elem_of {A} (l : list A) i j x : x ∈ l → x ∈ swap l i j.
Proof.
  intros Hx. unfold swap.
  destruct (l !! i) as [a|] eqn:Ei; [|done].
  destruct (l !! j) as [b|] eqn:Ej; [|done].
  apply list_elem_of_lookup in Hx as [k Hk].
  pose proof (lookup_lt_Some _ _ _ Ei). pose proof (lookup_lt_Some _ _ _ Ej).
  destruct (decide (k = j)) as [->|Hkj].
  - (* x = b, now at index i unless i = j *)
    destruct (decide (i = j)) as [->|Hij].
    + apply list_elem_of_lookup. exists j.
      rewrite list_lookup_insert_eq by (by rewrite length_insert). congruence.
    + apply list_elem_of_lookup. exists i.
      rewrite list_lookup_insert_ne by done.
      rewrite list_lookup_insert_eq by done. congruence.
  - destruct (decide (k = i)) as [->|Hki].
    + apply list_elem_of_lookup. exists j.
      rewrite list_lookup_insert_eq by (by rewrite length_insert). congruence.
    + apply list_elem_of_lookup. exists k.
      rewrite !list_lookup_insert_ne by done. done.
Qed.

Lemma swap_elem_of_inv {A} (l : list A) i j x : x ∈ swap l i j → x ∈ l.
Proof.
  unfold swap.
  destruct (l !! i) as [a|] eqn:Ei; [|done].
  destruct (l !! j) as [b|] eqn:Ej; [|done].
  intros [k Hk]%list_elem_of_lookup.
  destruct (decide (k = j)) as [->|Hkj].
  - rewrite list_lookup_insert_eq in Hk.
    + simplify_eq. by eapply list_elem_of_lookup_2.
    + rewrite length_insert. by eapply lookup_lt_Some.
  - rewrite list_lookup_insert_ne in Hk by done.
    destruct (decide (k = i)) as [->|Hki].
    + rewrite list_lookup_insert_eq in Hk by (by eapply lookup_lt_Some).
      simplify_eq. by eapply list_elem_of_lookup_2.
    + rewrite list_lookup_insert_ne in Hk by done. by eapply list_elem_of_lookup_2.
Qed.

Lemma shuffleFrom_elem_of rnd k dirs i x :
  x ∈ (shuffleFrom rnd k dirs i).1 ↔ x ∈ dirs.
Proof.
  revert k dirs. induction i as [|i IH]; intros k dirs; simpl; [done|].
  rewrite IH. split; [apply swap_elem_of_inv|apply swap_elem_of].
Qed.

Lemma carveLoop_S fuel rnd k C R m stack :
  carveLoop (S fuel) rnd k C R m stack =
  match last stack with
  | None => Ok (m, k)
  | Some (cx, cy) =>
      let '(dirs, k) := shuffleFrom rnd k dirs2 (length dirs2 - 1) in
      r ← tryCarve C R m cx cy dirs;
      match r with
      | Some (m, n) => carveLoop fuel rnd k C R m (stack ++ [n])
      | None => carveLoop fuel rnd k C R m (removelast stack)
      end
  end.
Proof. done. Qed.

Lemma carveLoop_spec fuel : ∀ rnd k C R m stack,
  carveInv C R m stack → (2 * wallCount m + length stack < fuel)%nat →
  ∃ m' k', carveLoop fuel rnd k C R m stack = Ok (m', k') ∧ carveInv C R m' [].
Proof.
  induction fuel as [|fuel IH]; intros rnd k C R m stack Hinv Hfuel; [lia|].
  rewrite carveLoop_S. destruct (last stack) as [[cx cy]|] eqn:Hlast.
  2:{ apply last_None in Hlast as ->. eauto. }
  destruct (shuffleFrom rnd k dirs2 (length dirs2 - 1)) as [dirs k1] eqn:Hsh.
  assert (Hdirs : ∀ d, d ∈ dirs ↔ d ∈ dirs2).
  { intros d. rewrite <- (shuffleFrom_elem_of rnd k dirs2 (length dirs2 - 1)).
    by rewrite Hsh. }
  assert (Htop : (cx, cy) ∈ stack).
  { apply last_Some in Hlast as [l' ->]. set_solver. }
  destruct (ci_stack _ _ _ _ Hinv _ Htop) as [Hroom _].
  pose proof (tryCarve_spec C R m cx cy dirs (ci_sized _ _ _ _ Hinv) Hroom) as Hspec.
  destruct (tryCarve C R m cx cy dirs) as [[[m' n]|]| |]; cbn [mbind Res_bind].
  - destruct Hspec as (d & cn & Hd & -> & Hrn & Hcn & Hw & ->).
    { intros d. apply Hdirs. }
    destruct (carve_push C R m stack cx cy d cn) as [Hinv' Hlt]; try done.
    { by apply Hdirs. }
    apply IH; [done|]. rewrite length_app. simpl. lia.
  - apply IH.
    + eapply carve_pop; [done|done|]. intros d Hd. apply Hspec.
      { intros d'. apply Hdirs. } { by apply Hdirs. }
    + apply last_Some in Hlast as [l' ->]. rewrite removelast_last.
      rewrite length_app in Hfuel. simpl in Hfuel. lia.
  - destruct Hspec. intros d. apply Hdirs.
  - destruct Hspec. intros d. apply Hdirs.
Qed.

Lemma Qfloor_unit_range (r : Q) (n : Z) :
  (0 <= r)%Q → (r < 1)%Q → 1 ≤ n → 0 ≤ Qfloor (r * inject_Z n) < n.
Proof.
  intros H0 H1 Hn.
  assert (Hn0 : (inject_Z 0 < inject_Z n)%Q) by (rewrite <- Zlt_Qlt; lia).
  change (inject_Z 0) with 0%Q in Hn0.
  split.
  - change 0 with (Qfloor 0). apply Qfloor_resp_le.
    apply Qmult_le_0_compat; [done|]. by apply Qlt_le_weak.
  - apply Z.lt_nge. intros Hge.
    assert (Hle : (inject_Z n <= r * inject_Z n)%Q).
    { eapply Qle_trans; [|apply Qfloor_le]. by rewrite <- Zle_Qle. }
    assert (Hlt : (r * inject_Z n < 1 * inject_Z n)%Q).
    { by apply Qmult_lt_compat_r. }
    rewrite Qmult_1_l in Hlt. eapply Qlt_irrefl. eapply Qle_lt_trans; eauto.
Qed.

Lemma extraLoop_spec n : ∀ rnd k C R chance m,
  rnd_ok rnd → 3 ≤ C → 3 ≤ R → gridSized C R m → pristine m →
  ∃ m', extraLoop n rnd k C R chance m = Ok m' ∧ gridSized C R m'
    ∧ pristine m' ∧ ∀ a, isPathAt m a → isPathAt m' a.
Proof.
  induction n as [|n IH]; intros rnd k C R chance m Hrnd HC HR Hs Hp; simpl.
  { eauto. }
  destruct (Qltb (rnd (S (S k))) chance); [|by apply IH].
  destruct (Hrnd k) as [Ha0 Ha1]. destruct (Hrnd (S k)) as [Hb0 Hb1].
  pose proof (Qfloor_unit_range (rnd k) (C - 2) Ha0 Ha1 ltac:(lia)).
  pose proof (Qfloor_unit_range (rnd (S k)) (R - 2) Hb0 Hb1 ltac:(lia)).
  set (rx := 1 + Qfloor (rnd k * inject_Z (C - 2))) in *.
  set (ry := 1 + Qfloor (rnd (S k) * inject_Z (R - 2))) in *.
  destruct (sized_get C R m rx ry Hs) as [c Hc]; [lia|lia|].
  rewrite (updCell_Ok _ _ _ _ c) by done. simpl.
  destruct (IH rnd (S (S (S k))) C R chance
              (alter (alter (withType path) (Z.to_nat rx)) (Z.to_nat ry) m))
    as (m' & Hrun & Hs' & Hp' & Hmono); try done.
  { by apply gridSized_alter. }
  { apply pristine_alter; [by intros ? [? ?]|done]. }
  exists m'. split_and!; try done.
  intros a Ha. apply Hmono. apply isPathAt_alter_type; [lia|lia|done].
Qed.

(** When the stack is empty every room has been carved. *)
Lemma all_rooms_path C R m a :
  carveInv C R m [] → isRoom C R a → isPathAt m a.
Proof.
  intros Hinv (Hx & Hy & Hox & Hoy). destruct a as [x y]. simpl in *.
  assert (Hrow : ∀ i : nat, 1 + 2 * Z.of_nat i < C - 1 →
                 isPathAt m (1 + 2 * Z.of_nat i, 1)).
  { induction i as [|i IH]; intros Hi.
    - apply (ci_start _ _ _ _ Hinv).
    - replace (1 + 2 * Z.of_nat (S i), 1)
        with ((1 + 2 * Z.of_nat i, 1).1 + (2, 0).1, (1 + 2 * Z.of_nat i, 1).2 + (2, 0).2)
        by (simpl; f_equal; lia).
      apply (ci_done _ _ _ _ Hinv).
      + unfold isRoom. simpl. rewrite Z.odd_add_mul_2. split_and!; done || lia.
      + apply IH. lia.
      + set_solver.
      + apply elem_dirs2. auto.
      + unfold isRoom. simpl.
        replace (1 + 2 * Z.of_nat i + 2) with (1 + 2 * (Z.of_nat i + 1)) by lia.
        rewrite Z.odd_add_mul_2. split_and!; done || lia. }
  assert (Hxi : ∃ i : nat, x = 1 + 2 * Z.of_nat i).
  { exists (Z.to_nat ((x - 1) / 2)). rewrite Z2Nat.id by (apply Z.div_pos; lia).
    rewrite (Zodd_div2 x) at 1 by (by apply Zodd_bool_iff).
    rewrite Z.div2_div.
    assert ((x - 1) / 2 = x / 2); [|lia].
    rewrite (Z.div_mod x 2) at 1 by lia. rewrite Zmod_odd, Hox.
    replace (2 * (x / 2) + 1 - 1) with ((x / 2) * 2) by lia.
    by rewrite Z.div_mul. }
  destruct Hxi as [i ->].
  assert (Hcol : ∀ j : nat, 1 + 2 * Z.of_nat j < R - 1 →
                 isPathAt m (1 + 2 * Z.of_nat i, 1 + 2 * Z.of_nat j)).
  { induction j as [|j IH]; intros Hj.
    - apply Hrow. lia.
    - replace (1 + 2 * Z.of_nat i, 1 + 2 * Z.of_nat (S j))
        with ((1 + 2 * Z.of_nat i, 1 + 2 * Z.of_nat j).1 + (0, 2).1,
              (1 + 2 * Z.of_nat i, 1 + 2 * Z.of_nat j).2 + (0, 2).2)
        by (simpl; f_equal; lia).
      apply (ci_done _ _ _ _ Hinv).
      + unfold isRoom. simpl. rewrite !Z.odd_add_mul_2. split_and!; done || lia.
      + apply IH. lia.
      + set_solver.
      + apply elem_dirs2. auto.
      + unfold isRoom. simpl.
        replace (1 + 2 * Z.of_nat j + 2) with (1 + 2 * (Z.of_nat j + 1)) by lia.
        replace (1 + 2 * Z.of_nat i + 0) with (1 + 2 * Z.of_nat i) by lia.
        rewrite !Z.odd_add_mul_2. split_and!; done || lia. }
  assert (Hyj : ∃ j : nat, y = 1 + 2 * Z.of_nat j).
  { exists (Z.to_nat ((y - 1) / 2)). rewrite Z2Nat.id by (apply Z.div_pos; lia).
    assert ((y - 1) / 2 = y / 2).
    { rewrite (Z.div_mod y 2) at 1 by lia. rewrite Zmod_odd, Hoy.
      replace (2 * (y / 2) + 1 - 1) with ((y / 2) * 2) by lia.
      by rewrite Z.div_mul. }
    pose proof (Z.div_mod y 2 ltac:(lia)) as E. rewrite Zmod_odd, Hoy in E. lia. }
  destruct Hyj as [j ->]. apply Hcol. lia.
Qed.

Lemma oddify_spec c : 2 ≤ c → 3 ≤ oddify c ∧ Z.odd (oddify c) = true.
Proof.
  intros Hc. unfold oddify. destruct (Z.rem c 2 =? 0) eqn:E.
  - apply Z.eqb_eq in E. rewrite Z.rem_mod_nonneg in E by lia.
    rewrite Z.odd_add. rewrite Zmod_odd in E. destruct (Z.odd c); [done|]. split; [lia|done].
  - apply Z.eqb_neq in E. rewrite Z.rem_mod_nonneg in E by lia.
    rewrite Zmod_odd in E. destruct (Z.odd c) eqn:Ho; [|done].
    split; [|done]. destruct (decide (c = 2)) as [->|]; [done|lia].
Qed.

Lemma getCell_replicate C R c x y c' :
  getCell (replicate R (replicate C c)) x y = Some c' → c' = c.
Proof.
  intros (_ & _ & row & Hr & Hc)%getCell_Some.
  apply lookup_replicate in Hr as [-> _]. by apply lookup_replicate in Hc as [-> _].
Qed.

Lemma isPathAt_shape m m' a : sameShape m m' → isPathAt m a → isPathAt m' a.
Proof.
  intros Hs (c & Hc & Ht). specialize (Hs a.1 a.2). rewrite Hc in Hs.
  destruct (getCell m' a.1 a.2) as [c'|] eqn:E; [|done].
  simpl in Hs. injection Hs as Ht' _. exists c'. split; congruence.
Qed.

Lemma pristine_unfilled m : pristine m → Forall (Forall (λ c, filled c = false)) m.
Proof.
  intros H. eapply Forall_impl; [exact H|]. intros row Hrow. simpl in Hrow.
  eapply Forall_impl; [exact Hrow|]. by intros c [? ?].
Qed.

Lemma unfilled_shape C R m m' :
  gridSized C R m → gridSized C R m' → sameShape m m' →
  Forall (Forall (λ c, filled c = false)) m →
  Forall (Forall (λ c, filled c = false)) m'.
Proof.
  intros Hs Hs' Hsh Hf. apply Forall_lookup. intros j row' Hr'.
  apply Forall_lookup. intros i c' Hc'.
  assert (Hg' : getCell m' (Z.of_nat i) (Z.of_nat j) = Some c').
  { apply getCell_Some. split; [lia|]. split; [lia|]. exists row'.
    by rewrite !Nat2Z.id. }
  specialize (Hsh (Z.of_nat i) (Z.of_nat j)). rewrite Hg' in Hsh.
  destruct (getCell m (Z.of_nat i) (Z.of_nat j)) as [c|] eqn:Hg; [|done].
  simpl in Hsh. injection Hsh as _ Hfl. rewrite <- Hfl.
  apply getCell_Some in Hg as (_ & _ & row & Hr & Hc).
  rewrite Forall_lookup in Hf. specialize (Hf _ _ Hr).
  rewrite Forall_lookup in Hf. by apply (Hf _ _ Hc).
Qed.

Lemma carveInv_init C R :
  3 ≤ C → 3 ≤ R →
  let m0 := replicate (Z.to_nat R) (replicate (Z.to_nat C) (mkCell wall false false)) in
  let m1 := alter (alter (withType path) (Z.to_nat 1)) (Z.to_nat 1) m0 in
  updCell (withType path) m0 1 1 = Ok m1
  ∧ carveInv C R m1 [(1, 1)]
  ∧ (2 * wallCount m1 + 1 < carveFuel C R)%nat.
Proof.
  intros HC HR m0 m1.
  assert (Hs0 : gridSized C R m0).
  { split; [apply length_replicate|].
    apply Forall_replicate. apply length_replicate. }
  destruct (sized_get C R m0 1 1 Hs0) as [c0 Hc0]; [lia|lia|].
  assert (Hp1 : isPathAt m1 (1, 1)) by by apply (isPathAt_alter_here m0 1 1 c0).
  split; [by rewrite (updCell_Ok _ _ _ _ c0)|]. split.
  - split.
    + by apply gridSized_alter.
    + apply pristine_alter; [by intros ? [? ?]|].
      apply Forall_replicate. by apply Forall_replicate.
    + intros a ->%list_elem_of_singleton. split; [|done].
      unfold isRoom. simpl. split_and!; done || lia.
    + intros a (c & Hc & Ht). unfold m1 in Hc. rewrite getCell_alter in Hc by lia.
      case_decide as Ha.
      * replace a with (1, 1) by (destruct a; simpl in *; f_equal; lia).
        by apply reach_here.
      * apply getCell_replicate in Hc. by subst c.
    + intros a d Hra (c & Hc & Ht) Hnin.
      unfold m1 in Hc. rewrite getCell_alter in Hc by lia.
      case_decide as Ha.
      * exfalso. apply Hnin. replace a with (1, 1); [set_solver|].
        destruct a; simpl in *; f_equal; lia.
      * apply getCell_replicate in Hc. by subst c.
    + done.
  - pose proof (wallCount_alter (withType path) m0 1 1 c0 Hc0) as Hw.
    fold m1 in Hw. apply getCell_replicate in Hc0. subst c0.
    unfold wallWeight in Hw at 1 2. simpl in Hw.
    assert (wallCount m0 = (Z.to_nat R * Z.to_nat C)%nat).
    { unfold wallCount, m0. rewrite !total_replicate. unfold wallWeight. simpl. lia. }
    unfold carveFuel. nia.
Qed.

Lemma deadEndsCorrect_frame st st' :
  cols st = cols st' → rows st = rows st' → maze st = maze st' →
  start st = start st' → end_ st = end_ st' →
  deadEndsCorrect st → deadEndsCorrect st'.
Proof.
  intros Hc Hr Hm Hs He (m & Hmz & Hall). exists m. split; [congruence|].
  intros x y c Hb Hcell.
  rewrite <- (isDeadEndDef_shape st st' m m) by done.
  apply Hall; [|done]. unfold inBounds in *. by rewrite Hc, Hr.
Qed.

(** The generator ends normally on every size of at least 2 by 2, and
    produces a fresh game state whose End is reachable from its Start. *)
Lemma generateMazeIterative_spec env st0 :
  2 ≤ cols st0 → 2 ≤ rows st0 → rnd_ok (random env) →
  ∃ st m, generateMazeIterative env st0 = Ok st ∧ freshState st m
    ∧ cols st = oddify (cols st0) ∧ rows st = oddify (rows st0)
    ∧ score st = 0 ∧ highscore st = highscore st0.
Proof.
  intros Hc0 Hr0 Hrnd. unfold generateMazeIterative. cbv zeta.
  set (stc := if Z.rem (cols st0) 2 =? 0 then _ else _).
  set (st1 := if Z.rem (rows stc) 2 =? 0 then _ else _).
  assert (Hst1 : cols st1 = oddify (cols st0) ∧ rows st1 = oddify (rows st0)
                 ∧ highscore st1 = highscore st0).
  { subst st1 stc. unfold oddify.
    destruct (Z.rem (cols st0) 2 =? 0); simpl;
      destruct (Z.rem (rows st0) 2 =? 0); simpl; done. }
  destruct Hst1 as (HC & HR & Hhs).
  destruct (oddify_spec _ Hc0) as [HC3 HCo]. destruct (oddify_spec _ Hr0) as [HR3 HRo].
  rewrite <- HC in HC3, HCo. rewrite <- HR in HR3, HRo.
  set (C := cols st1) in *. set (R := rows st1) in *.
  destruct (carveInv_init C R HC3 HR3) as (Hupd & Hinv0 & Hfuel).
  rewrite Hupd. cbn [mbind Res_bind].
  destruct (carveLoop_spec (carveFuel C R) (random env) 0 C R _ _ Hinv0 Hfuel)
    as (m2 & k2 & Hloop & Hinv2).
  rewrite Hloop. cbn [mbind Res_bind].
  set (n := Z.to_nat _).
  destruct (extraLoop_spec n (random env) k2 C R (shuffle (presetOf (difficulty env))) m2)
    as (m3 & Hext & Hs3 & Hp3 & Hmono3); try done.
  { apply (ci_sized _ _ _ _ Hinv2). } { apply (ci_pristine _ _ _ _ Hinv2). }
  rewrite Hext. cbn [mbind Res_bind].
  destruct (sized_get C R m3 1 1 Hs3) as [c1 Hc1]; [lia|lia|].
  rewrite (updCell_Ok _ _ _ _ c1) by done. cbn [mbind Res_bind].
  set (m4 := alter _ _ m3).
  assert (Hs4 : gridSized C R m4) by by apply gridSized_alter.
  change (cols (set_end _ _)) with C. change (rows (set_end _ _)) with R.
  destruct (sized_get C R m4 (C - 2) (R - 2) Hs4) as [c2 Hc2]; [lia|lia|].
  rewrite (updCell_Ok _ _ _ _ c2) by done. cbn [mbind Res_bind].
  set (m5 := alter _ _ m4).
  assert (Hs5 : gridSized C R m5) by by apply gridSized_alter.
  assert (Hp5 : pristine m5).
  { do 2 (apply pristine_alter; [by intros ? [? ?]|]). done. }
  assert (Hmono5 : ∀ a, isPathAt m2 a → isPathAt m5 a).
  { intros a Ha. unfold m5, m4.
    apply isPathAt_alter_type; [lia|lia|]. apply isPathAt_alter_type; [lia|lia|].
    by apply Hmono3. }
  set (st5 := set_maze (Some m5) _).
  destruct (recomputeAll_unfilled_cells st5 m5)
    as (st6 & m6 & Hrec & Hfr & Hm6 & Hs6 & Hsh6 & Hflags); try done.
  { apply unfilled_getCell. by apply pristine_unfilled. }
  rewrite Hrec. cbn [mbind Res_bind].
  destruct Hfr as (Hc6 & Hr6 & Hpl6 & Hst6 & Hen6 & Hvc6 & Hus6 & Hsc6 & Hhs6).
  change (cols st5) with C in Hc6. change (rows st5) with R in Hr6.
  change (start st5) with (Some (mkPoint 1 1)) in Hst6.
  change (end_ st5) with (Some (mkPoint (C - 2) (R - 2))) in Hen6.
  change (highscore st5) with (highscore st1) in Hhs6.
  eexists _, m6. split; [reflexivity|]. split_and!.
  - split; cbn [cols rows maze player start end_ undoStack set_score
                set_undoStack set_visitedCount set_player].
    + lia.
    + lia.
    + done.
    + done.
    + done.
    + done.
    + rewrite <- Hen6. by rewrite <- Hc6, <- Hr6.
    + done.
    + rewrite <- Hc6, <- Hr6 in Hs6.
      apply (unfilled_shape C R m5 m6); try done. by apply pristine_unfilled.
    + eapply deadEndsCorrect_frame; [..|exact Hflags]; done.
    + apply (isPathAt_shape m5); [done|]. apply Hmono5. apply (ci_start _ _ _ _ Hinv2).
    + rewrite <- Hc6, <- Hr6.
      eapply reach_mono; [intros a; apply (isPathAt_shape m5 m6 a Hsh6)|].
      eapply reach_mono; [exact Hmono5|].
      apply (ci_conn _ _ _ _ Hinv2). apply (all_rooms_path C R); [done|].
      unfold isRoom. simpl. rewrite !Z.odd_sub. rewrite HCo, HRo. split_and!; done || lia.
  - simpl. congruence.
  - simpl. congruence.
  - done.
  - simpl. congruence.
Qed.

Lemma generateMazeIterative_Ok_dims env st0 st :
  generateMazeIterative env st0 = Ok st → 2 ≤ cols st0 ∧ 2 ≤ rows st0.
Proof.
  intros H. destruct (decide (2 ≤ cols st0 ∧ 2 ≤ rows st0)) as [|Hn]; [done|].
  exfalso. unfold generateMazeIterative in H. cbv zeta in H.
  set (stc := if Z.rem (cols st0) 2 =? 0 then _ else _) in H.
  set (st1 := if Z.rem (rows stc) 2 =? 0 then _ else _) in H.
  assert (Hst1 : cols st1 = oddify (cols st0) ∧ rows st1 = oddify (rows st0)).
  { subst st1 stc. unfold oddify.
    destruct (Z.rem (cols st0) 2 =? 0); simpl;
      destruct (Z.rem (rows st0) 2 =? 0); simpl; done. }
  destruct Hst1 as [HC HR].
  assert (Hsmall : cols st1 ≤ 1 ∨ rows st1 ≤ 1).
  { rewrite HC, HR. unfold oddify.
    destruct (Z.rem (cols st0) 2 =? 0) eqn:E1; destruct (Z.rem (rows st0) 2 =? 0) eqn:E2;
      try lia.
    - destruct (decide (cols st0 = 1)) as [E|]; [by rewrite E in E1|].
      destruct (decide (rows st0 = 1)) as [E|]; [by rewrite E in E2|]. lia.
    - destruct (decide (cols st0 = 1)) as [E|]; [by rewrite E in E1|]. lia.
    - destruct (decide (rows st0 = 1)) as [E|]; [by rewrite E in E2|]. lia. }
  set (m0 := replicate _ _) in H.
  assert (Hnone : getCell m0 1 1 = None).
  { unfold getCell, arr_get. rewrite !decide_True by lia.
    destruct (m0 !! Z.to_nat 1) as [row|] eqn:Hr; [|done]. simpl.
    apply lookup_replicate in Hr as [-> Hlt].
    destruct Hsmall; [|lia]. apply lookup_replicate_None. lia. }
  unfold updCell in H. rewrite Hnone in H. done.
Qed.

(** C6.  With [Math.random()] in [0, 1), the generator ends normally on
    every requested size of at least 2 by 2, and whenever it produces a
    grid, whatever the size, the difficulty and the random values, End is
    reachable from Start over path cells. *)
Theorem generated_end_reachable env st0 :
  rnd_ok (random env) →
  (2 ≤ cols st0 → 2 ≤ rows st0 → ∃ st, generateMazeIterative env st0 = Ok st)
  ∧ ∀ st, generateMazeIterative env st0 = Ok st →
      ∃ m s e, maze st = Some m ∧ start st = Some s ∧ end_ st = Some e
        ∧ reach m (px s, py s) (px e, py e).
Proof.
  intros Hrnd. split.
  - intros Hc Hr.
    destruct (generateMazeIterative_spec env st0 Hc Hr Hrnd) as (st & m & Hgen & _).
    eauto.
  - intros st Hgen. destruct (generateMazeIterative_Ok_dims _ _ _ Hgen) as [Hc Hr].
    destruct (generateMazeIterative_spec env st0 Hc Hr Hrnd)
      as (st' & m & Hgen' & Hfresh & _).
    rewrite Hgen in Hgen'. injection Hgen' as <-.
    destruct Hfresh. eexists m, _, _. split_and!; try done.
Qed.

Lemma rnd_ok_zero : rnd_ok (λ _, 0%Q).
Proof. intros n. split; [apply Qle_refl|reflexivity]. Qed.

Lemma generated_end_reachable_witness :
  (2 ≤ 7 → 2 ≤ 7 → ∃ st, generateMazeIterative (envWith false) (blankState 7 7) = Ok st)
  ∧ ∀ st, generateMazeIterative (envWith false) (blankState 7 7) = Ok st →
      ∃ m s e, maze st = Some m ∧ start st = Some s ∧ end_ st = Some e
        ∧ reach m (px s, py s) (px e, py e).
Proof.
  apply (generated_end_reachable (envWith false) (blankState 7 7)).
  simpl. apply rnd_ok_zero.
Defined.

(** * Proofs: Sequences of moves and undos *)

Lemma pathB_alter_flag st m f x y a b :
  0 ≤ x → 0 ≤ y → (∀ c, type (f c) = type c) →
  pathB st (alter (alter f (Z.to_nat x)) (Z.to_nat y) m) a b = pathB st m a b.
Proof.
  intros Hx Hy Hf. unfold pathB. rewrite getCell_alter by done.
  case_decide; [|done]. destruct (getCell m a b) as [c|]; [|done].
  simpl. unfold isPath. by rewrite Hf.
Qed.

Lemma freshState_gameInv st m : freshState st m → gameInv st.
Proof.
  intros [HC HR Hm Hs Hp Hst Hen Hus Hunf Hfl Hsp Hre].
  split; [lia|lia| |done].
  assert (Hb : inBounds st 1 1 = true) by (apply inBounds_spec; lia).
  exists m, (mkPlayer 1 1), (mkPoint 1 1), (mkPoint (cols st - 2) (rows st - 2)).
  split; [by split|]. split.
  - unfold walkableB. simpl. rewrite Hb. destruct Hsp as (c & Hc & Ht).
    simpl in Hc. rewrite Hc. simpl.
    apply getCell_Some in Hc as (_ & _ & row & Hr & Hc).
    rewrite Forall_lookup in Hunf. specialize (Hunf _ _ Hr).
    rewrite Forall_lookup in Hunf. rewrite (Hunf _ _ Hc).
    unfold isPath. by rewrite Ht.
  - rewrite Hus. constructor.
Qed.

Lemma near5_in_coords9 (d : Z * Z) :
  d ∈ [(0, 0); (1, 0); (-1, 0); (0, 1); (0, -1)] → d ∈ coords9.
Proof.
  rewrite !list_elem_of_In. unfold coords9. simpl. intuition.
Qed.

(** After a cell's filled flag is written and the dead ends around it are
    recomputed, all flags are right if those away from the cell were. *)
Lemma refill_flags st st2 m0 m2 fx fy b :
  0 ≤ fx → 0 ≤ fy →
  cols st = cols st2 → rows st = rows st2 →
  start st = start st2 → end_ st = end_ st2 →
  maze st2 = Some m2 →
  let mu := alter (alter (withFilled b) (Z.to_nat fx)) (Z.to_nat fy) m0 in
  sameShape mu m2 →
  (∀ cx cy, getCell m2 cx cy =
     if decide (inBounds st cx cy = true ∧ (cx - fx, cy - fy) ∈ coords9)
     then withDeadEnd (isDeadEndDef st mu cx cy) <$> getCell mu cx cy
     else getCell mu cx cy) →
  (∀ cx cy c, inBounds st cx cy = true → (cx - fx, cy - fy) ∉ coords9 →
     getCell m0 cx cy = Some c → deadEnd c = isDeadEndDef st m0 cx cy) →
  deadEndsCorrect st2.
Proof.
  intros Hfx Hfy Hc Hr Hs He Hm2 mu Hsh Hg Hfar.
  exists m2. split; [done|]. intros x y c Hb Hcell.
  assert (Hb' : inBounds st x y = true) by (unfold inBounds in *; by rewrite Hc, Hr).
  rewrite <- (isDeadEndDef_shape st st2 mu m2) by done.
  rewrite Hg in Hcell. case_decide as Hnear.
  - destruct (getCell mu x y) as [cu|]; [|done]. simpl in Hcell. by injection Hcell as <-.
  - assert (Hoff : (x - fx, y - fy) ∉ coords9) by naive_solver.
    unfold mu in Hcell. rewrite getCell_alter in Hcell by done.
    rewrite decide_False in Hcell.
    2:{ intros [-> ->]. apply Hoff. apply offset_zero_in_coords9. }
    rewrite (Hfar x y c) by done. symmetry. unfold mu.
    apply isDeadEndDef_alter_far; [done|done|].
    intros Hin. apply Hoff. by apply near5_in_coords9.
Qed.

Lemma undo_gameInv st : gameInv st → ∃ st', undo st = Ok st' ∧ gameInv st'.
Proof.
  intros [HC HR (m & p & s & e & Hgs & Hpw & Hstk) Hfl].
  pose proof Hgs as [Hm Hs Hp Hin Hst Hen].
  destruct (last (undoStack st)) as [r|] eqn:Hlast.
  2:{ exists st. split; [by unfold undo; rewrite Hlast|].
      split; [done|done| |done]. by exists m, p, s, e. }
  apply last_Some in Hlast as [stk Hus].
  rewrite Hus in Hstk. apply Forall_app in Hstk as [Hstk Hr].
  apply Forall_singleton in Hr as [Hrf Hrp].
  assert (Hrb : inBounds st (prevX r) (prevY r) = true).
  { unfold pathB in Hrp. by apply andb_prop in Hrp as [? _]. }
  pose proof Hrb as Hrb'. apply inBounds_spec in Hrb'.
  destruct (undo_spec st m p stk r Hm Hs Hp Hus) as (m2 & Hundo & Hs2 & Hm2).
  { intros f Hf. rewrite Hrf in Hf. by injection Hf as <-. }
  rewrite Hrf in Hm2. simpl in Hm2. destruct Hm2 as [Hsh2 Hg2].
  eexists. split; [exact Hundo|].
  set (mu := alter (alter (withFilled false) (Z.to_nat (prevX r)))
               (Z.to_nat (prevY r)) m) in *.
  split; [done|done| |].
  - exists m2, (mkPlayer (prevX r) (prevY r)), s, e. split; [by split|]. split.
    + simpl. unfold walkableB.
      change (inBounds _ (prevX r) (prevY r)) with (inBounds st (prevX r) (prevY r)).
      rewrite Hrb. simpl.
      unfold pathB in Hrp. rewrite Hrb in Hrp. simpl in Hrp.
      destruct (getCell m (prevX r) (prevY r)) as [c|] eqn:Hc; [|done].
      pose proof (Hsh2 (prevX r) (prevY r)) as Hsc. unfold mu in Hsc.
      rewrite getCell_alter in Hsc by lia. rewrite decide_True in Hsc by done.
      rewrite Hc in Hsc. simpl in Hsc.
      destruct (getCell m2 (prevX r) (prevY r)) as [c2|]; [|done].
      simpl in Hsc. injection Hsc as Ht Hf. unfold isPath in *.
      by rewrite <- Ht, <- Hf, Hrp.
    + simpl. eapply Forall_impl; [exact Hstk|]. intros r' [? Hp']. split; [done|].
      rewrite <- (pathB_shape st _ mu m2) by done.
      unfold mu. by rewrite pathB_alter_flag by (lia || done).
  - eapply (refill_flags st _ m m2 (prevX r) (prevY r) false); try done; try lia.
    intros cx cy c Hb _ Hc. destruct Hfl as (m' & Hm' & Hall).
    rewrite Hm in Hm'. injection Hm' as <-. by apply Hall.
Qed.

Lemma checkCompletion_at_end env st p e :
  player st = Some p → end_ st = Some e → atPoint e (gridX p) (gridY p) = true →
  supportsViewTransition env = false →
  checkCompletion env st =
  (st' ← generateMazeIterative env
     (set_rows (Z.min 51 (rows st + 2))
        (set_cols (Z.min 51 (cols st + 2))
           (set_maze None
              (let st1 := set_score (score st + Z.max 0 (100 - elapsedSec env * 1)) st in
               if highscore st1 <? score st1
               then set_highscore (score st1) st1 else st1))));
   Ok (st', None)).
Proof.
  intros Hp He Hat Hvt. unfold checkCompletion. rewrite Hp, He. simpl.
  unfold atPoint in Hat. rewrite Hat. cbv zeta.
  unfold withViewTransition, runTransition. rewrite Hvt. cbv zeta.
  by destruct (highscore st <? score st + Z.max 0 (100 - elapsedSec env * 1)).
Qed.

(** The invariant reads the size, the grid, the agent, Start, End and the
    undo stack only. *)
Lemma gameInv_frame st st' :
  cols st' = cols st → rows st' = rows st → maze st' = maze st →
  player st' = player st → start st' = start st → end_ st' = end_ st →
  undoStack st' = undoStack st →
  gameInv st → gameInv st'.
Proof.
  intros Hc Hr Hm Hp Hs He Hu [HC HR (m & p & s & e & Hgs & Hpw & Hstk) Hfl].
  destruct Hgs as [Hgm Hgs Hgp Hgi Hgst Hgen].
  assert (Hib : ∀ x y, inBounds st' x y = inBounds st x y).
  { intros. unfold inBounds. by rewrite Hc, Hr. }
  split; [lia|lia| |].
  - exists m, p, s, e. split.
    + split; [congruence|by rewrite Hc, Hr|congruence|by rewrite Hib
             |congruence|congruence].
    + split.
      * by rewrite (walkableB_shape st' st m m).
      * rewrite Hu. eapply Forall_impl; [exact Hstk|]. intros r [? ?].
        split; [done|]. by rewrite (pathB_shape st' st m m).
  - by apply (deadEndsCorrect_frame st st').
Qed.

Lemma runTransition_gameInv env t st :
  2 ≤ newW t → 2 ≤ newH t → rnd_ok (random env) →
  ∃ st', runTransition env t st = Ok st' ∧ gameInv st'.
Proof.
  intros Hw Hh Hrnd. unfold runTransition. cbv zeta.
  destruct (generateMazeIterative_spec env
              (set_rows (newH t) (set_cols (newW t) (set_maze None st))))
    as (st' & m' & Hgen & Hfresh & _); [done|done|done|].
  exists st'. split; [done|]. by eapply freshState_gameInv.
Qed.

Lemma attemptMove_gameInv env st dx dy :
  gameInv st → normalOp (OpMove env dx dy) →
  ∃ st' t, attemptMove env st dx dy = Ok (st', t) ∧ gameInv st'
    ∧ pendingOk (addPending [] t).
Proof.
  intros Hinv (Hrev & Hunit & Hrnd).
  pose proof Hinv as [HC HR (m & p & s & e & Hgs & Hpw & Hstk) Hfl].
  pose proof Hgs as [Hm Hs Hp Hin Hst Hen].
  set (nx := gridX p + dx). set (ny := gridY p + dy).
  destruct (walkableB st m nx ny) eqn:Hw.
  2:{ exists st, None. split; [|by split; [|constructor]].
      unfold attemptMove. rewrite Hp. simpl.
      rewrite (isWalkable_spec st m) by done. fold nx ny. by rewrite Hw. }
  assert (Hbd : inBounds st nx ny = true).
  { unfold walkableB in Hw. by apply andb_prop in Hw as [? _]. }
  pose proof Hin as Hin'. apply inBounds_spec in Hin'.
  pose proof Hbd as Hbd'. apply inBounds_spec in Hbd'.
  destruct (gridSized_getCell st m nx ny Hs Hbd) as [cd Hcd].
  destruct (attemptMove_spec env st m p s e dx dy cd Hgs Hw Hcd)
    as (m1 & Hmove & Hs1 & Hm1).
  fold nx ny in Hmove, Hm1. rewrite Hrev, Hpw in Hmove, Hm1.
  simpl in Hmove, Hm1. destruct Hm1 as [Hsh1 Hg1].
  set (hit := deadEnd cd && negb (atPoint s nx ny) && negb (atPoint e nx ny)) in *.
  set (mA := bonusGrid hit m nx ny) in *.
  set (s1 := mkState _ _ _ _ _ _ _ _ _ _ _) in Hmove.
  assert (HshA : sameShape m mA) by (apply bonusGrid_shape; lia).
  assert (Hinv1 : gameInv s1).
  { split; [done|done| |].
    - exists m1, (mkPlayer nx ny), s, e. split; [by split|]. split.
      + simpl. rewrite <- (walkableB_shape st s1 _ m1 nx ny eq_refl eq_refl Hsh1).
        rewrite walkableB_alter_other; [|lia|lia|].
        * by rewrite <- (walkableB_shape st st m mA).
        * unfold nx, ny. lia.
      + simpl. apply Forall_app. split.
        * eapply Forall_impl; [exact Hstk|]. intros r' [? Hp']. split; [done|].
          rewrite <- (pathB_shape st s1 _ m1 _ _ eq_refl eq_refl Hsh1).
          rewrite pathB_alter_flag by (lia || done).
          by rewrite <- (pathB_shape st st m mA).
        * apply Forall_singleton. simpl. split; [done|].
          rewrite <- (pathB_shape st s1 _ m1 _ _ eq_refl eq_refl Hsh1).
          rewrite pathB_alter_flag by (lia || done).
          rewrite <- (pathB_shape st st m mA) by done.
          unfold walkableB in Hpw. unfold pathB.
          apply andb_prop in Hpw as [-> Hpw]. simpl.
          destruct (getCell m (gridX p) (gridY p)); [|done].
          by apply andb_prop in Hpw as [-> _].
    - eapply (refill_flags st s1 mA m1 (gridX p) (gridY p) true); try done; try lia.
      intros cx cy c Hb Hfar Hc.
      rewrite <- (isDeadEndDef_shape st st m mA) by done.
      destruct Hfl as (m' & Hm' & Hall). rewrite Hm in Hm'. injection Hm' as <-.
      apply Hall; [done|]. rewrite <- Hc. symmetry. apply bonusGrid_get; [lia|lia|].
      intros [-> ->]. apply Hfar. by apply offset_unit_in_coords9. }
  destruct (decide (atPoint e nx ny = true ∧ supportsViewTransition env = false))
    as [[Hat Hvt]|Hkept].
  - (* End is reached and the regeneration runs inside the call *)
    rewrite (checkCompletion_at_end env s1 (mkPlayer nx ny) e) in Hmove by done.
    set (s2 := set_rows _ _) in Hmove.
    destruct (generateMazeIterative_spec env s2) as (st' & m' & Hgen & Hfresh & _);
      [simpl; lia|simpl; lia|done|].
    exists st', None. rewrite Hmove, Hgen.
    split; [done|]. split; [by eapply freshState_gameInv|constructor].
  - (* the maze stays in place *)
    destruct (checkCompletion_kept env s1 (mkPlayer nx ny) e)
      as (s1' & t & Hcc & Hc1 & Hr1 & Hmz1 & Hp1 & Hst1 & Hen1 & _ & _ & Hus1
          & _ & _ & Hpend); [done|done| |].
    { cbn [gridX gridY].
      destruct (atPoint e nx ny), (supportsViewTransition env);
        try (by left); try (by right). exfalso. apply Hkept. by split. }
    exists s1', t. rewrite Hmove. split; [done|]. split.
    + by apply (gameInv_frame s1).
    + change (gridX (mkPlayer nx ny)) with nx in Hpend.
      change (gridY (mkPlayer nx ny)) with ny in Hpend.
      destruct (atPoint e nx ny).
      * destruct Hpend as (-> & _). apply Forall_singleton.
        change (cols s1) with (cols st). change (rows s1) with (rows st).
        simpl. lia.
      * destruct Hpend as [-> _]. constructor.
Qed.

(** Normal-mode play, with the deferred regenerations called at any later
    moment and in any order, keeps the dead-end flags equal to the
    definition. *)
Lemma run_gameInv ops : ∀ st pending,
  gameInv st → pendingOk pending → Forall normalOp ops →
  ∃ st' pending', run ops st pending = Ok (st', pending') ∧ gameInv st'.
Proof.
  induction ops as [|op ops IH]; intros st pending Hinv Hpend Hops.
  { by exists st, pending. }
  apply Forall_cons in Hops as [Hop Hops].
  destruct op as [env dx dy| |env i]; cbn [run].
  - destruct (attemptMove_gameInv env st dx dy Hinv Hop)
      as (st1 & t & -> & Hinv1 & Ht).
    cbn [mbind Res_bind]. apply IH; [done| |done].
    destruct t as [t|]; [|done]. apply Forall_app. by split.
  - destruct (undo_gameInv st Hinv) as (st1 & -> & Hinv1).
    cbn [mbind Res_bind]. by apply IH.
  - destruct (pending !! i) as [t|] eqn:Hi; [|by apply IH].
    pose proof (Forall_lookup_1 _ _ _ _ Hpend Hi) as [Hw Hh].
    destruct (runTransition_gameInv env t st Hw Hh Hop) as (st1 & -> & Hinv1).
    cbn [mbind Res_bind]. apply IH; [done| |done].
    by apply Forall_delete.
Qed.

(** C1 (amended).  From a freshly generated grid, after any sequence of
    unit-step moves made with reverse mode off, of undos, and of deferred
    regenerations called at any later moment, every call has returned
    normally and the local recompute has left every cell's dead-end flag
    equal to the definition (path, not filled, exactly one walkable
    4-neighbour, neither Start nor End), which is what a recompute of the
    whole grid by that definition gives. *)
Theorem incremental_deadEnds_correct env0 st0 ops :
  2 ≤ cols st0 → 2 ≤ rows st0 → rnd_ok (random env0) → Forall normalOp ops →
  ∃ st st' pending,
    generateMazeIterative env0 st0 = Ok st ∧ run ops st [] = Ok (st', pending)
    ∧ deadEndsCorrect st'.
Proof.
  intros Hc Hr Hrnd Hops.
  destruct (generateMazeIterative_spec env0 st0 Hc Hr Hrnd)
    as (st & m & Hgen & Hfresh & _).
  destruct (run_gameInv ops st []) as (st' & pending & Hrun & Hinv);
    [|constructor|done|].
  { by eapply freshState_gameInv. }
  exists st, st', pending. split_and!; try done. apply Hinv.
Qed.

Lemma normalOp_move_down : normalOp (OpMove (envWith false) 0 1).
Proof. split_and!; [reflexivity|reflexivity|apply rnd_ok_zero]. Qed.

Lemma incremental_deadEnds_correct_witness :
  ∃ st st' pending,
    generateMazeIterative (envWith false) (blankState 7 7) = Ok st
    ∧ run [OpMove (envWith false) 0 1; OpUndo; OpMove (envWith false) 0 1] st []
      = Ok (st', pending)
    ∧ deadEndsCorrect st'.
Proof.
  apply (incremental_deadEnds_correct (envWith false) (blankState 7 7)).
  - simpl. lia.
  - simpl. lia.
  - simpl. apply rnd_ok_zero.
  - repeat constructor; apply normalOp_move_down.
Defined.

(** C1, as stated, fails: after the first move on a fresh 7 by 7 grid the
    local recompute has flagged the cell the agent stands on, (1,2), whose
    only open neighbour is (1,3); [recomputeAllDeadEnds] on the same grid
    counts the filled Start as well and clears the flag. *)
Lemma local_vs_full_counterexample :
  ∃ st st1 st2 m1 m2,
    generateMazeIterative (envWith false) (blankState 7 7) = Ok st
    ∧ run [OpMove (envWith false) 0 1] st [] = Ok (st1, [])
    ∧ recomputeAllDeadEnds st1 = Ok st2
    ∧ maze st1 = Some m1 ∧ maze st2 = Some m2
    ∧ deadEnd <$> getCell m1 1 2 = Some true
    ∧ deadEnd <$> getCell m2 1 2 = Some false.
Proof.
  do 5 eexists. split_and!; vm_compute; reflexivity.
Qed.

(** * Proofs: The BFS worker *)

Lemma isWalk_snoc g cols rows p a b :
  isWalk g cols rows (p ++ [a]) → gridStep g cols rows a b →
  isWalk g cols rows ((p ++ [a]) ++ [b]).
Proof.
  induction p as [|x p IH]; simpl; intros Hw Hs.
  - done.
  - destruct p as [|y p]; simpl in *.
    + destruct Hw as [Hxa _]. done.
    + destruct Hw as [Hxy Hw]. split; [done|]. by apply IH.
Qed.

Lemma isWalk_app_inv g cols rows p a :
  isWalk g cols rows (p ++ [a]) → isWalk g cols rows p.
Proof.
  induction p as [|x p IH]; simpl; [done|].
  destruct p as [|y p]; simpl in *; [done|].
  intros [Hxy Hw]. split; [done|]. by apply IH.
Qed.

Lemma isWalk_last_step g cols rows p a b :
  isWalk g cols rows ((p ++ [a]) ++ [b]) → gridStep g cols rows a b.
Proof.
  induction p as [|x p IH]; simpl.
  - by intros [? _].
  - destruct p as [|y p]; simpl in *; intros [_ Hw]; by apply IH.
Qed.

(** Walks and [reachIn] describe the same thing. *)
Lemma walk_reachIn g cols rows s t p :
  walkFromTo g cols rows s t p → reachIn g cols rows s t (length p).
Proof.
  revert t. induction p as [|a p IH] using rev_ind; intros t (Hh & Hl & Hw).
  - done.
  - rewrite last_snoc in Hl. injection Hl as ->.
    destruct p as [|b p _] using rev_ind.
    + simpl in Hh. injection Hh as ->. apply reachIn_start.
    + rewrite length_app. simpl. rewrite Nat.add_1_r.
      apply (reachIn_step _ _ _ _ b).
      * apply IH. split_and!.
        -- destruct p; simpl in *; done.
        -- by rewrite last_snoc.
        -- by eapply isWalk_app_inv.
      * by eapply isWalk_last_step.
Qed.

Lemma reachIn_walk g cols rows s t n :
  reachIn g cols rows s t n →
  ∃ p, walkFromTo g cols rows s t p ∧ length p = n.
Proof.
  induction 1 as [|v w n _ (p & (Hh & Hl & Hw) & Hlen) Hstep].
  - exists [s]. by repeat split.
  - exists (p ++ [w]). split; [|rewrite length_app; simpl; lia].
    destruct p as [|a p _] using rev_ind; [done|].
    rewrite last_snoc in Hl. injection Hl as ->. split_and!.
    + destruct p; simpl in *; done.
    + by rewrite last_snoc.
    + by apply isWalk_snoc.
Qed.

Lemma allCells_length cols rows : length (allCells cols rows) = Z.to_nat (cols * rows).
Proof. unfold allCells. by rewrite length_fmap, length_seqZ. Qed.

Lemma allCells_elem cols rows c : inside cols rows c → c ∈ allCells cols rows.
Proof.
  intros [Hx Hy]. unfold allCells. apply list_elem_of_fmap.
  exists (c.2 * cols + c.1). split.
  - destruct c as [x y]. simpl in *. f_equal.
    + rewrite Z.add_comm, Z.mod_add by lia. by rewrite Z.mod_small.
    + rewrite Z.add_comm, Z.div_add by lia. rewrite Z.div_small by lia. lia.
  - apply elem_of_seqZ. nia.
Qed.

(** A set of cells inside the grid has at most [cols * rows] elements. *)
Lemma size_inside (cols rows : Z) (X : gset (Z * Z)) :
  (∀ c : Z * Z, c ∈ X → inside cols rows c) →
  (size X ≤ Z.to_nat (cols * rows))%nat.
Proof.
  intros HX. rewrite <- allCells_length. unfold size, set_size. simpl.
  apply submseteq_length. apply NoDup_submseteq; [apply NoDup_elements|].
  intros c Hc. apply allCells_elem. apply HX. by apply elem_of_elements.
Qed.

(** ** bfs-worker.js *)

Lemma snapshot_row cols rows g y :
  snapshotSized cols rows g → 0 ≤ y < rows → is_Some (arr_get g y).
Proof.
  intros [Hlen _] Hy. unfold arr_get. rewrite decide_True by lia.
  apply lookup_lt_is_Some. lia.
Qed.

Lemma bfs_walkableAt_spec cols rows g x y :
  snapshotSized cols rows g → 0 ≤ y < rows →
  ∃ b, Bfs.walkableAt g x y = Ok b ∧ (b = true ↔ openCell g (x, y)).
Proof.
  intros Hs Hy. destruct (snapshot_row cols rows g y Hs Hy) as [row Hrow].
  unfold Bfs.walkableAt, openCell. simpl. rewrite Hrow. simpl.
  eexists. split; [done|].
  destruct (arr_get row x) as [v|] eqn:Hv.
  - rewrite Z.eqb_eq. split.
    + intros ->. eauto.
    + intros (row' & Hr' & Hv'). congruence.
  - split; [done|]. intros (row' & Hr' & Hv'). congruence.
Qed.

Lemma bfs_filterWalkable_spec cols rows g l :
  snapshotSized cols rows g → (∀ c, c ∈ l → inside cols rows c) →
  ∃ l', Bfs.filterWalkable g l = Ok l'
    ∧ ∀ w, w ∈ l' ↔ w ∈ l ∧ openCell g w.
Proof.
  intros Hs. induction l as [|[x y] l IH]; intros Hin; simpl.
  - exists []. split; [done|]. set_solver.
  - destruct (bfs_walkableAt_spec cols rows g x y Hs) as (b & -> & Hb).
    { apply (Hin (x, y)). set_solver. }
    destruct IH as (l' & -> & Hl'). { intros c Hc. apply Hin. set_solver. }
    simpl. eexists. split; [done|]. intros w. destruct b.
    + rewrite !elem_of_cons, Hl'. split.
      * intros [->|[? ?]]; [|by auto]. split; [by left|]. by apply Hb.
      * intros [[->|?] ?]; auto.
    + rewrite elem_of_cons, Hl'. split.
      * intros [? ?]. auto.
      * intros [[->|?] Ho]; [|done]. apply Hb in Ho. done.
Qed.

Lemma bfs_candidates_spec cols rows x y w :
  inside cols rows (x, y) →
  w ∈ Bfs.candidates cols rows x y ↔
  Z.abs (x - w.1) + Z.abs (y - w.2) = 1 ∧ inside cols rows w.
Proof.
  intros [Hx Hy]. simpl in *. unfold Bfs.candidates, inside.
  rewrite !elem_of_app. destruct w as [a b]. simpl.
  destruct (0 <? x) eqn:E1; destruct (x <? cols - 1) eqn:E2;
    destruct (0 <? y) eqn:E3; destruct (y <? rows - 1) eqn:E4;
    rewrite ?list_elem_of_singleton, ?elem_of_nil;
    split; intros H; simplify_eq; try lia;
    repeat match goal with
           | H : _ ∨ _ |- _ => destruct H
           | H : False |- _ => destruct H
           | H : (_, _) = (_, _) |- _ => injection H as -> ->
           end; try lia;
    assert ((a = x - 1 ∧ b = y) ∨ (a = x + 1 ∧ b = y) ∨ (a = x ∧ b = y - 1)
            ∨ (a = x ∧ b = y + 1)) as [[-> ->]|[[-> ->]|[[-> ->]|[-> ->]]]] by lia;
    auto; lia.
Qed.

Lemma bfs_neighbors_spec cols rows g x y :
  snapshotSized cols rows g → inside cols rows (x, y) →
  ∃ l, Bfs.neighbors g cols rows x y = Ok l
    ∧ ∀ w, w ∈ l ↔ gridStep g cols rows (x, y) w.
Proof.
  intros Hs Hin. unfold Bfs.neighbors.
  destruct (bfs_filterWalkable_spec cols rows g (Bfs.candidates cols rows x y) Hs)
    as (l & -> & Hl).
  { intros c Hc. by apply (bfs_candidates_spec cols rows x y c Hin) in Hc as [_ ?]. }
  exists l. split; [done|]. intros w. rewrite Hl.
  rewrite (bfs_candidates_spec cols rows x y w Hin). unfold gridStep. simpl. tauto.
Qed.

Lemma reconstruct_chain fuel parent v l :
  chain parent v l → (length l ≤ fuel)%nat →
  Bfs.reconstruct fuel parent (Some v) = Ok l.
Proof.
  intros Hc. revert fuel. induction Hc as [v Hv|v u l Hv Hc IH]; intros fuel Hf.
  - destruct fuel; simpl in *; [lia|]. rewrite Hv. simpl.
    by destruct fuel.
  - destruct fuel; simpl in *; [lia|]. rewrite Hv. simpl.
    rewrite IH by lia. done.
Qed.

Lemma chain_mono (parent parent' : gmap (Z * Z) (option (Z * Z))) v l :
  parent ⊆ parent' → chain parent v l → chain parent' v l.
Proof.
  intros Hsub. induction 1.
  - apply chain_root. by eapply lookup_weaken.
  - eapply chain_cons; [by eapply lookup_weaken|done].
Qed.

Lemma visit_cases u st n :
  Bfs.visit u st n =
  if decide (n ∈ Bfs.visited st) then st
  else Bfs.mkSearch (Bfs.q st ++ [n]) ({[n]} ∪ Bfs.visited st)
         (<[n:=Some u]> (Bfs.parent st)).
Proof. by destruct n. Qed.

Lemma visit_fold u nbs : ∀ st,
  ∃ new, Bfs.q (foldl (Bfs.visit u) st nbs) = Bfs.q st ++ new
    ∧ NoDup new
    ∧ (∀ w, w ∈ new ↔ w ∈ nbs ∧ w ∉ Bfs.visited st)
    ∧ Bfs.visited (foldl (Bfs.visit u) st nbs)
      = Bfs.visited st ∪ list_to_set new
    ∧ ∀ w, Bfs.parent (foldl (Bfs.visit u) st nbs) !! w
           = if decide (w ∈ new) then Some (Some u) else Bfs.parent st !! w.
Proof.
  induction nbs as [|n nbs IH]; intros st; simpl.
  - exists []. rewrite app_nil_r. split_and!; try done.
    + constructor.
    + set_solver.
    + set_solver.
  - rewrite visit_cases.
    destruct (decide (n ∈ Bfs.visited st)) as [Hn|Hn].
    + destruct (IH st) as (new & Hq & Hnd & Hmem & Hvis & Hpar).
      exists new. split_and!; try done. intros w. rewrite Hmem. set_solver.
    + set (st1 := Bfs.mkSearch _ _ _).
      destruct (IH st1) as (new & Hq & Hnd & Hmem & Hvis & Hpar).
      exists (n :: new). simpl in *. split_and!.
      * rewrite Hq. by rewrite <- app_assoc.
      * constructor; [|done]. rewrite Hmem. set_solver.
      * intros w. rewrite elem_of_cons, Hmem. split.
        -- intros [->|[? ?]]; set_solver.
        -- intros [[->|?]%elem_of_cons ?]; [by left|].
           destruct (decide (w = n)) as [->|]; [by left|]. right. set_solver.
      * rewrite Hvis. set_solver.
      * intros w. rewrite Hpar. destruct (decide (w ∈ new)) as [Hw|Hw].
        -- rewrite decide_True by set_solver. done.
        -- destruct (decide (w = n)) as [->|Hne].
           ++ rewrite decide_True by set_solver. by rewrite lookup_insert_eq.
           ++ rewrite decide_False by set_solver. by rewrite lookup_insert_ne.
Qed.

Lemma walkFromTo_snoc g cols rows s u v p :
  walkFromTo g cols rows s u p → gridStep g cols rows u v →
  walkFromTo g cols rows s v (p ++ [v]).
Proof.
  intros (Hh & Hl & Hw) Hstep.
  destruct p as [|a p _] using rev_ind; [done|].
  rewrite last_snoc in Hl. injection Hl as ->. split_and!.
  - destruct p; simpl in *; done.
  - by rewrite last_snoc.
  - by apply isWalk_snoc.
Qed.

Section BfsProof.
Variables (g : list (list Z)) (cols rows : Z) (s : Z * Z).
Variable deadSet : gset (Z * Z).
Hypothesis Hsized : snapshotSized cols rows g.
Hypothesis Hstart : inside cols rows s.

Lemma bfsInv_init :
  bfsInv g cols rows s deadSet
    (Bfs.mkSearch [s] {[s]} (<[s:=None]> ∅)) (λ _, 1%nat) 0.
Proof.
  split; cbn [Bfs.q Bfs.visited Bfs.parent].
  - intros v. rewrite elem_of_singleton. split.
    + intros ->. rewrite lookup_insert_eq. eauto.
    + intros [x Hx]. destruct (decide (v = s)); [done|].
      rewrite lookup_insert_ne in Hx by done. by rewrite lookup_empty in Hx.
  - intros v ->%elem_of_singleton. exists [s]. split_and!; try done.
    apply chain_root. by rewrite lookup_insert_eq.
  - by intros v ->%elem_of_singleton.
  - intros v ->%list_elem_of_singleton. set_solver.
  - apply NoDup_singleton.
  - intros. lia.
  - intros. lia.
  - intros v ->%elem_of_singleton Hn. set_solver.
  - split; [set_solver|done].
  - by rewrite size_singleton.
  - intros v _. rewrite size_singleton. lia.
Qed.

(** Every cell that a walk of [m] cells reaches is visited at a level of
    at most [m], unless an entry of the queue is at most that deep. *)
Lemma bfs_frontier st lev n w m :
  bfsInv g cols rows s deadSet st lev n → reachIn g cols rows s w m →
  (w ∈ Bfs.visited st ∧ (lev w ≤ m)%nat)
  ∨ ∃ x, x ∈ Bfs.q st ∧ (lev x ≤ m)%nat.
Proof.
  intros Hinv. induction 1 as [|v w m _ IH Hstep].
  - left. destruct (b_start _ _ _ _ _ _ _ _ Hinv) as [? ->]. done.
  - destruct IH as [[Hv Hlev]|(x & Hx & Hlev)].
    + destruct (decide (v ∈ Bfs.q st)) as [Hq|Hq].
      * right. exists v. split; [done|lia].
      * destruct (b_done _ _ _ _ _ _ _ _ Hinv v Hv Hq) as (_ & _ & Hnb).
        destruct (Hnb w Hstep) as [Hw Hlw]. left. split; [done|lia].
    + right. exists x. split; [done|lia].
Qed.

Lemma bfsInv_step u rest V P lev n nbs :
  bfsInv g cols rows s deadSet (Bfs.mkSearch (u :: rest) V P) lev n →
  u ∉ deadSet →
  (∀ w, w ∈ nbs ↔ gridStep g cols rows u w) →
  ∃ lev',
    bfsInv g cols rows s deadSet
      (foldl (Bfs.visit u) (Bfs.mkSearch rest V P) nbs) lev' (S n).
Proof.
  intros Hinv Hnd Hnbs.
  destruct (visit_fold u nbs (Bfs.mkSearch rest V P))
    as (new & Hq & Hnew_nd & Hnew & Hvis & Hpar).
  simpl in Hq, Hnew, Hvis, Hpar.
  set (st' := foldl (Bfs.visit u) (Bfs.mkSearch rest V P) nbs) in *.
  destruct Hinv as [Hdom Hchain Hins HqV Hnodup Hmono Hspan Hdone [HsV Hls] Hcount Hlevs].
  simpl in *.
  apply NoDup_cons in Hnodup as [Hu_rest Hrest_nd].
  assert (HuV : u ∈ V) by (apply HqV; set_solver).
  assert (Hnew_notV : ∀ w, w ∈ new → w ∉ V) by (intros w Hw; by apply Hnew in Hw as [_ ?]).
  assert (Hsub : P ⊆ Bfs.parent st').
  { apply map_subseteq_spec. intros w x Hw. rewrite Hpar.
    rewrite decide_False; [done|]. intros Hin. apply (Hnew_notV w Hin).
    apply Hdom. eauto. }
  set (lev' := λ w, if decide (w ∈ new) then S (lev u) else lev w).
  assert (HlevV : ∀ w, w ∈ V → lev' w = lev w).
  { intros w Hw. unfold lev'. rewrite decide_False; [done|]. intros Hin.
    by apply (Hnew_notV w). }
  assert (Hlevnew : ∀ w, w ∈ new → lev' w = S (lev u)).
  { intros w Hw. unfold lev'. by rewrite decide_True. }
  assert (Hlev_rest : ∀ x, x ∈ rest → (lev u ≤ lev x)%nat).
  { intros x [i Hi]%list_elem_of_lookup.
    apply (Hmono 0%nat (S i) u x); [lia|done|done]. }
  assert (Hspan_u : ∀ y, y ∈ u :: rest → (lev y ≤ lev u + 1)%nat).
  { intros y Hy. by apply (Hspan u y). }
  assert (Hsize : size (Bfs.visited st') = (size V + length new)%nat).
  { rewrite Hvis. rewrite size_union by set_solver.
    by rewrite size_list_to_set. }
  exists lev'. split.
  - intros v. rewrite Hvis, Hpar. destruct (decide (v ∈ new)) as [Hv|Hv].
    + split; [eauto|set_solver].
    + rewrite <- Hdom. set_solver.
  - intros v. rewrite Hvis. intros [Hv|Hv%elem_of_list_to_set]%elem_of_union.
    + destruct (Hchain v Hv) as (l & Hl & Hlen & Hw). exists l.
      rewrite HlevV by done. split_and!; try done. by eapply chain_mono.
    + destruct (Hchain u HuV) as (l & Hl & Hlen & Hw).
      exists (v :: l). split_and!.
      * eapply chain_cons; [|by eapply chain_mono].
        rewrite Hpar. by rewrite decide_True.
      * rewrite Hlevnew by done. simpl. lia.
      * simpl. apply (walkFromTo_snoc _ _ _ _ u); [done|].
        apply Hnbs. by apply Hnew in Hv as [? _].
  - intros v. rewrite Hvis. intros [Hv|Hv%elem_of_list_to_set]%elem_of_union.
    + by apply Hins.
    + apply Hnew in Hv as [Hv _]. apply Hnbs in Hv. apply Hv.
  - intros v. rewrite Hq, Hvis. intros [Hv|Hv]%elem_of_app.
    + apply elem_of_union_l. apply HqV. set_solver.
    + apply elem_of_union_r. by apply elem_of_list_to_set.
  - rewrite Hq. apply NoDup_app. split_and!; try done.
    intros x Hx Hx'. apply (Hnew_notV x Hx'). apply HqV. set_solver.
  - intros i j x y Hij. rewrite Hq. intros Hi Hj.
    apply lookup_app_Some in Hi as [Hi|[Hil Hi]];
      apply lookup_app_Some in Hj as [Hj|[Hjl Hj]].
    + assert (x ∈ rest) by by eapply list_elem_of_lookup_2.
      assert (y ∈ rest) by by eapply list_elem_of_lookup_2.
      rewrite !HlevV by (apply HqV; set_solver).
      apply (Hmono (S i) (S j) x y); [lia|done|done].
    + assert (x ∈ rest) by by eapply list_elem_of_lookup_2.
      assert (y ∈ new) by by eapply list_elem_of_lookup_2.
      rewrite HlevV by (apply HqV; set_solver). rewrite Hlevnew by done.
      assert (Hxq : x ∈ u :: rest) by set_solver.
      specialize (Hspan_u x Hxq). lia.
    + apply lookup_lt_Some in Hj. lia.
    + assert (x ∈ new) by by eapply list_elem_of_lookup_2.
      assert (y ∈ new) by by eapply list_elem_of_lookup_2.
      rewrite !Hlevnew by done. lia.
  - intros h y. rewrite Hq. intros Hh Hy.
    assert (Hh' : h ∈ rest ++ new).
    { destruct (rest ++ new); simplify_eq/=. set_solver. }
    assert (Hlh : (lev u ≤ lev' h)%nat).
    { apply elem_of_app in Hh' as [Hh'|Hh'].
      - rewrite HlevV by (apply HqV; set_solver). by apply Hlev_rest.
      - rewrite Hlevnew by done. lia. }
    assert (Hly : (lev' y ≤ lev u + 1)%nat).
    { apply elem_of_app in Hy as [Hy|Hy].
      - rewrite HlevV by (apply HqV; set_solver). apply Hspan_u. set_solver.
      - rewrite Hlevnew by done. lia. }
    lia.
  - intros v. rewrite Hvis, Hq. intros Hv Hvq.
    assert (HvV : v ∈ V).
    { apply elem_of_union in Hv as [?|Hv%elem_of_list_to_set]; [done|].
      exfalso. apply Hvq. set_solver. }
    rewrite (HlevV v HvV).
    destruct (decide (v = u)) as [->|Hvu].
    + split_and!; [done| |].
      * intros x [Hx|Hx]%elem_of_app.
        -- rewrite HlevV by (apply HqV; set_solver). by apply Hlev_rest.
        -- rewrite Hlevnew by done. lia.
      * intros w Hstep. destruct (decide (w ∈ V)) as [Hw|Hw].
        -- split; [set_solver|]. rewrite HlevV by done.
           destruct (decide (w ∈ u :: rest)) as [Hwq|Hwq].
           ++ by apply Hspan_u.
           ++ destruct (Hdone w Hw Hwq) as (_ & Hle & _).
              assert (Huq : u ∈ u :: rest) by set_solver.
              specialize (Hle u Huq). lia.
        -- assert (w ∈ new) by (apply Hnew; split; [by apply Hnbs|done]).
           split; [set_solver|]. rewrite Hlevnew by done. lia.
    + assert (Hvq0 : v ∉ u :: rest) by set_solver.
      destruct (Hdone v HvV Hvq0) as (Hnd' & Hle & Hnb).
      split_and!; [done| |].
      * intros x [Hx|Hx]%elem_of_app.
        -- rewrite HlevV by (apply HqV; set_solver). apply Hle. set_solver.
        -- rewrite Hlevnew by done.
           assert (Huq : u ∈ u :: rest) by set_solver.
           specialize (Hle u Huq). lia.
      * intros w Hstep. destruct (Hnb w Hstep) as [Hw Hlw].
        split; [set_solver|]. by rewrite HlevV.
  - split; [set_solver|]. by rewrite HlevV.
  - rewrite Hsize, Hq, length_app. lia.
  - intros v. rewrite Hsize. rewrite Hvis.
    intros [Hv|Hv%elem_of_list_to_set]%elem_of_union.
    + rewrite HlevV by done. specialize (Hlevs v Hv). lia.
    + rewrite Hlevnew by done. specialize (Hlevs u HuV).
      assert (0 < length new)%nat; [|lia].
      destruct new; [set_solver|simpl; lia].
Qed.
End BfsProof.

Section BfsLoop.
Variables (g : list (list Z)) (cols rows : Z) (s : Z * Z).
Variable deadSet : gset (Z * Z).
Hypothesis Hsized : snapshotSized cols rows g.
Hypothesis Hstart : inside cols rows s.

(** The loop ends normally within [cols * rows] dequeues; a path it
    posts leads to a target and no target is nearer; it posts [null]
    only when no target can be reached. *)
Lemma bfs_searchLoop_spec fuel : ∀ fuel0 st lev n,
  bfsInv g cols rows s deadSet st lev n →
  (Z.to_nat (cols * rows) ≤ fuel + n)%nat →
  (Z.to_nat (cols * rows) ≤ fuel0)%nat →
  ∃ r n', Bfs.searchLoop fuel fuel0 g cols rows deadSet st n = Ok (Posted r, n')
    ∧ (n' ≤ Z.to_nat (cols * rows))%nat
    ∧ match r with
      | Some pth =>
          ∃ t, t ∈ deadSet ∧ walkFromTo g cols rows s t pth
            ∧ ∀ t' m, t' ∈ deadSet → reachIn g cols rows s t' m →
                      (length pth ≤ m)%nat
      | None => ∀ t' m, t' ∈ deadSet → ¬ reachIn g cols rows s t' m
      end.
Proof.
  induction fuel as [|fuel IH]; intros fuel0 st lev n Hinv Hfuel Hfuel0.
  - (* no fuel: the queue must be empty *)
    pose proof (b_count _ _ _ _ _ _ _ _ Hinv) as Hcount.
    pose proof (size_inside cols rows (Bfs.visited st)
                  (b_inside _ _ _ _ _ _ _ _ Hinv)) as Hsize.
    destruct st as [q V P]. simpl in *.
    destruct q as [|[cx cy] rest]; simpl in *; [|lia].
    exists None, n. split_and!; [done|lia|].
    intros t' m Ht Hreach.
    destruct (bfs_frontier g cols rows s deadSet _ _ _ _ _ Hinv Hreach)
      as [[Hv _]|(x & Hx & _)]; simpl in *; [|set_solver].
    destruct (b_done _ _ _ _ _ _ _ _ Hinv t' Hv) as (Hnd & _); simpl; set_solver.
  - pose proof (b_count _ _ _ _ _ _ _ _ Hinv) as Hcount.
    pose proof (size_inside cols rows (Bfs.visited st)
                  (b_inside _ _ _ _ _ _ _ _ Hinv)) as Hsize.
    destruct st as [q V P]. simpl in Hcount, Hsize. simpl.
    destruct q as [|[cx cy] rest].
    { exists None, n. split_and!; [done|lia|].
      intros t' m Ht Hreach.
      destruct (bfs_frontier g cols rows s deadSet _ _ _ _ _ Hinv Hreach)
        as [[Hv _]|(x & Hx & _)]; simpl in *; [|set_solver].
      destruct (b_done _ _ _ _ _ _ _ _ Hinv t' Hv) as (Hnd & _); simpl; set_solver. }
    simpl in Hcount. unfold Bfs.key.
    assert (HuV : (cx, cy) ∈ V).
    { apply (b_q _ _ _ _ _ _ _ _ Hinv). simpl. set_solver. }
    destruct (decide ((cx, cy) ∈ deadSet)) as [Hdead|Hdead].
    + destruct (b_chain _ _ _ _ _ _ _ _ Hinv _ HuV) as (l & Hl & Hlen & Hw).
      simpl in Hl.
      pose proof (b_levsize _ _ _ _ _ _ _ _ Hinv _ HuV) as Hls. simpl in Hls.
      rewrite (reconstruct_chain fuel0 P (cx, cy) l Hl) by lia. simpl.
      exists (Some (rev l)), (S n). split_and!; [done|lia|].
      exists (cx, cy). split_and!; [done|done|].
      intros t' m Ht Hreach. rewrite length_rev, Hlen.
      destruct (bfs_frontier g cols rows s deadSet _ _ _ _ _ Hinv Hreach)
        as [[Hv Hlev]|(x & Hx & Hlev)]; simpl in *.
      * destruct (decide (t' ∈ (cx, cy) :: rest)) as [Hq|Hq].
        -- apply list_elem_of_lookup in Hq as [i Hi].
           pose proof (b_mono _ _ _ _ _ _ _ _ Hinv 0%nat i (cx, cy) t') as Hm.
           simpl in Hm. specialize (Hm ltac:(lia) eq_refl Hi). lia.
        -- destruct (b_done _ _ _ _ _ _ _ _ Hinv t' Hv Hq) as (Hnd & _). done.
      * apply list_elem_of_lookup in Hx as [i Hi].
        pose proof (b_mono _ _ _ _ _ _ _ _ Hinv 0%nat i (cx, cy) x) as Hm.
        simpl in Hm. specialize (Hm ltac:(lia) eq_refl Hi). lia.
    + destruct (bfs_neighbors_spec cols rows g cx cy Hsized) as (nbs & -> & Hnbs).
      { apply (b_inside _ _ _ _ _ _ _ _ Hinv). done. }
      simpl.
      destruct (bfsInv_step g cols rows s deadSet Hsized Hstart (cx, cy) rest V P
                  lev n nbs Hinv Hdead Hnbs) as (lev' & Hinv').
      apply (IH fuel0 _ lev' (S n) Hinv'); lia.
Qed.
End BfsLoop.

Lemma deadSet_elem (l : list (Z * Z)) (k : Z * Z) :
  k ∈ (list_to_set ((λ '(x, y), Bfs.key x y) <$> l) : gset (Z * Z)) ↔ k ∈ l.
Proof.
  rewrite elem_of_list_to_set.
  assert (((λ '(x, y), Bfs.key x y) <$> l) = l) as ->; [|done].
  induction l as [|[x y] l IH]; [done|].
  rewrite fmap_cons, IH. done.
Qed.

(** The worker on a request that carries a sized grid and a start inside
    it. *)
Lemma bfs_onmessage_spec fuel req g st :
  Bfs.cmd req = "bfs-deadend" →
  Bfs.grid req = Some g → Bfs.start req = Some st →
  snapshotSized (Bfs.cols req) (Bfs.rows req) g →
  inside (Bfs.cols req) (Bfs.rows req) (Bfs.x st, Bfs.y st) →
  (Z.to_nat (Bfs.cols req * Bfs.rows req) ≤ fuel)%nat →
  let s := (Bfs.x st, Bfs.y st) in
  let targets := default [] (Bfs.deadEnds req) in
  ∃ r n, Bfs.onmessage fuel req = Ok (Posted r, n)
    ∧ (n ≤ Z.to_nat (Bfs.cols req * Bfs.rows req))%nat
    ∧ match r with
      | Some pth =>
          ∃ t, t ∈ targets
            ∧ walkFromTo g (Bfs.cols req) (Bfs.rows req) s t pth
            ∧ ∀ t' m, t' ∈ targets →
                reachIn g (Bfs.cols req) (Bfs.rows req) s t' m →
                (length pth ≤ m)%nat
      | None => ∀ t' m, t' ∈ targets →
                ¬ reachIn g (Bfs.cols req) (Bfs.rows req) s t' m
      end.
Proof.
  intros Hcmd Hg Hst Hsized Hin Hfuel s targets.
  unfold Bfs.onmessage. rewrite Hcmd, Hg, Hst. simpl.
  set (deadSet := list_to_set _ : gset (Z * Z)).
  destruct (bfs_searchLoop_spec g (Bfs.cols req) (Bfs.rows req) s deadSet Hsized Hin
              fuel fuel _ _ 0%nat
              (bfsInv_init g (Bfs.cols req) (Bfs.rows req) s deadSet Hsized Hin))
    as (r & n & Hrun & Hn & Hr); [lia|lia|].
  exists r, n. split; [exact Hrun|]. split; [done|].
  destruct r as [pth|].
  - destruct Hr as (t & Ht & Hw & Hopt). exists t. split_and!; [|done|].
    + by apply deadSet_elem in Ht.
    + intros t' m Ht'. apply Hopt. by apply deadSet_elem.
  - intros t' m Ht'. apply Hr. by apply deadSet_elem.
Qed.

(** C10.  On a request with a sized grid and a start inside it, whatever
    the target list (absent, empty, unreachable), the search ends normally
    with one posted result after at most [cols * rows] dequeues, and the
    result is [null] when no target can be reached. *)
Theorem bfs_terminates fuel req g st :
  Bfs.cmd req = "bfs-deadend" →
  Bfs.grid req = Some g → Bfs.start req = Some st →
  snapshotSized (Bfs.cols req) (Bfs.rows req) g →
  inside (Bfs.cols req) (Bfs.rows req) (Bfs.x st, Bfs.y st) →
  (Z.to_nat (Bfs.cols req * Bfs.rows req) ≤ fuel)%nat →
  ∃ r n, Bfs.onmessage fuel req = Ok (Posted r, n)
    ∧ (n ≤ Z.to_nat (Bfs.cols req * Bfs.rows req))%nat
    ∧ ((∀ t p, t ∈ default [] (Bfs.deadEnds req) →
          ¬ walkFromTo g (Bfs.cols req) (Bfs.rows req) (Bfs.x st, Bfs.y st) t p) →
       r = None).
Proof.
  intros Hcmd Hg Hst Hsized Hin Hfuel.
  destruct (bfs_onmessage_spec fuel req g st Hcmd Hg Hst Hsized Hin Hfuel)
    as (r & n & Hrun & Hn & Hr).
  exists r, n. split_and!; [done|done|].
  intros Hnone. destruct r as [pth|]; [|done].
  destruct Hr as (t & Ht & Hw & _). by destruct (Hnone t pth Ht).
Qed.

(** C7.  On such a request the search ends normally, and a path that it
    posts is a walk from start to a target, no longer than any walk from
    start to any target; when start is itself a target the posted path is
    [[start]]. *)
Theorem bfs_nearest_target fuel req g st :
  Bfs.cmd req = "bfs-deadend" →
  Bfs.grid req = Some g → Bfs.start req = Some st →
  snapshotSized (Bfs.cols req) (Bfs.rows req) g →
  inside (Bfs.cols req) (Bfs.rows req) (Bfs.x st, Bfs.y st) →
  (Z.to_nat (Bfs.cols req * Bfs.rows req) ≤ fuel)%nat →
  let s := (Bfs.x st, Bfs.y st) in
  let targets := default [] (Bfs.deadEnds req) in
  ∃ r n, Bfs.onmessage fuel req = Ok (Posted r, n)
    ∧ (∀ pth, r = Some pth →
        ∃ t, t ∈ targets
          ∧ walkFromTo g (Bfs.cols req) (Bfs.rows req) s t pth
          ∧ ∀ t' p', t' ∈ targets →
              walkFromTo g (Bfs.cols req) (Bfs.rows req) s t' p' →
              (length pth ≤ length p')%nat)
    ∧ (s ∈ targets → r = Some [s]).
Proof.
  intros Hcmd Hg Hst Hsized Hin Hfuel s targets.
  destruct (bfs_onmessage_spec fuel req g st Hcmd Hg Hst Hsized Hin Hfuel)
    as (r & n & Hrun & Hn & Hr).
  fold s targets in Hr.
  exists r, n. split_and!; [done| |].
  - intros pth ->. destruct Hr as (t & Ht & Hw & Hopt).
    exists t. split_and!; [done|done|].
    intros t' p' Ht' Hw'. apply (Hopt t'); [done|]. by apply walk_reachIn.
  - intros Hs. destruct r as [pth|].
    + destruct Hr as (t & Ht & (Hh & Hl & Hw) & Hopt).
      specialize (Hopt s 1%nat Hs (reachIn_start _ _ _ _)).
      destruct pth as [|a [|b pth]]; simpl in *; [done| |lia].
      by injection Hh as ->.
    + destruct (Hr s 1%nat Hs). apply reachIn_start.
Qed.

(** *** An example snapshot *)

Lemma snap7_sized : snapshotSized 7 7 snap7.
Proof. split; [done|]. repeat constructor. Qed.

Lemma bfs_terminates_witness :
  ∃ r n, Bfs.onmessage 49 bfsReq7 = Ok (Posted r, n)
    ∧ (n ≤ Z.to_nat (7 * 7))%nat
    ∧ ((∀ t p, t ∈ [(5, 1); (1, 5)] → ¬ walkFromTo snap7 7 7 (1, 1) t p) →
       r = None).
Proof.
  apply (bfs_terminates 49 bfsReq7 snap7 (Bfs.mkPoint 1 1)).
  - reflexivity.
  - reflexivity.
  - reflexivity.
  - apply snap7_sized.
  - unfold inside. simpl. lia.
  - simpl. lia.
Defined.

Lemma bfs_nearest_target_witness :
  ∃ r n, Bfs.onmessage 49 bfsReq7 = Ok (Posted r, n)
    ∧ (∀ pth, r = Some pth →
        ∃ t, t ∈ [(5, 1); (1, 5)]
          ∧ walkFromTo snap7 7 7 (1, 1) t pth
          ∧ ∀ t' p', t' ∈ [(5, 1); (1, 5)] →
              walkFromTo snap7 7 7 (1, 1) t' p' →
              (length pth ≤ length p')%nat)
    ∧ ((1, 1) ∈ [(5, 1); (1, 5)] → r = Some [(1, 1)]).
Proof.
  apply (bfs_nearest_target 49 bfsReq7 snap7 (Bfs.mkPoint 1 1)).
  - reflexivity.
  - reflexivity.
  - reflexivity.
  - apply snap7_sized.
  - unfold inside. simpl. lia.
  - simpl. lia.
Defined.

(** The guard of the BFS worker: a request without grid or without start
    gets a [null] path at once. *)
Lemma bfs_guard fuel req :
  Bfs.cmd req = "bfs-deadend" →
  Bfs.grid req = None ∨ Bfs.start req = None →
  Bfs.onmessage fuel req = Ok (Posted None, 0%nat).
Proof.
  intros Hcmd Hmiss. unfold Bfs.onmessage. rewrite Hcmd. simpl.
  destruct Hmiss as [-> | ->]; [done|]. by destruct (Bfs.grid req).
Qed.

(** * Proofs: The heap of the A* worker *)

Lemma insert_Permutation {A} (l : list A) i a b :
  l !! i = Some a → a :: <[i:=b]> l ≡ₚ b :: l.
Proof.
  revert i. induction l as [|x l IH]; intros [|i] Hi; simplify_eq/=.
  - apply perm_swap.
  - rewrite (perm_swap x a). rewrite (IH i Hi). apply perm_swap.
Qed.

Lemma swap_Permutation {A} (l : list A) i j : swap l i j ≡ₚ l.
Proof.
  unfold swap. destruct (l !! i) as [a|] eqn:Hi; [|done].
  destruct (l !! j) as [b|] eqn:Hj; [|done].
  apply (Permutation_cons_inv (a := b)).
  assert (Hj' : <[i:=b]> l !! j = Some b).
  { destruct (decide (i = j)) as [->|Hne].
    - apply list_lookup_insert_eq. by eapply lookup_lt_Some.
    - by rewrite list_lookup_insert_ne. }
  rewrite (insert_Permutation _ j b a Hj').
  by rewrite (insert_Permutation l i a b Hi).
Qed.

Lemma swap_length {A} (l : list A) i j : length (swap l i j) = length l.
Proof. unfold swap. repeat case_match; by rewrite ?length_insert. Qed.

Lemma swap_lookup {A} (l : list A) i j a b k :
  l !! i = Some a → l !! j = Some b →
  swap l i j !! k =
  if decide (k = j) then Some a else if decide (k = i) then Some b else l !! k.
Proof.
  intros Hi Hj. unfold swap. rewrite Hi, Hj.
  pose proof (lookup_lt_Some _ _ _ Hi). pose proof (lookup_lt_Some _ _ _ Hj).
  destruct (decide (k = j)) as [->|Hkj].
  - rewrite list_lookup_insert_eq; [done|]. by rewrite length_insert.
  - rewrite list_lookup_insert_ne by done.
    destruct (decide (k = i)) as [->|Hki].
    + by rewrite list_lookup_insert_eq.
    + by rewrite list_lookup_insert_ne.
Qed.

Lemma parent_lt (i : nat) : (0 < i)%nat → ((i - 1) / 2 < i)%nat.
Proof.
  intros Hi. apply Nat.Div0.div_lt_upper_bound. lia.
Qed.

(** The root of a heap has the least [f]. *)
Lemma heapOK_min a r :
  heapOK a → a !! 0%nat = Some r →
  ∀ j y, a !! j = Some y → AStar.node_f r ≤ AStar.node_f y.
Proof.
  intros Hh Hr j. induction j as [j IH] using lt_wf_ind. intros y Hy.
  destruct (decide (j = 0)%nat) as [->|Hj]; [by simplify_eq|].
  assert (Hp : ((j - 1) / 2 < j)%nat) by (apply parent_lt; lia).
  assert (is_Some (a !! ((j - 1) / 2)%nat)) as [p Hpp].
  { apply lookup_lt_is_Some. apply lookup_lt_Some in Hy. lia. }
  specialize (IH _ Hp p Hpp). specialize (Hh j y p ltac:(lia) Hy Hpp). lia.
Qed.

Lemma child_of (i j : nat) :
  (0 < j)%nat → ((j - 1) / 2)%nat = i ↔ j = (i * 2 + 1)%nat ∨ j = (i * 2 + 1 + 1)%nat.
Proof.
  intros Hj. split.
  - intros <-. pose proof (Nat.div_mod_eq (j - 1) 2).
    pose proof (Nat.mod_upper_bound (j - 1) 2). lia.
  - intros [-> | ->].
    + replace (i * 2 + 1 - 1)%nat with (i * 2)%nat by lia. by rewrite Nat.div_mul.
    + replace (i * 2 + 1 + 1 - 1)%nat with (1 + i * 2)%nat by lia.
      rewrite Nat.div_add by lia. done.
Qed.

Lemma heapUp_swap a i ai ap :
  (0 < i)%nat → a !! i = Some ai → a !! ((i - 1) / 2)%nat = Some ap →
  AStar.node_f ai < AStar.node_f ap →
  heapUp a i → heapUp (swap a i ((i - 1) / 2)) ((i - 1) / 2).
Proof.
  intros Hi Hai Hap Hlt [H1 H2].
  set (p := ((i - 1) / 2)%nat) in *.
  assert (Hpi : (p < i)%nat) by by apply parent_lt.
  split.
  - intros j aj aq Hj Hjp. rewrite !(swap_lookup a i p ai ap) by done.
    rewrite (decide_False (P := j = p)) by done.
    destruct (decide (j = i)) as [->|Hji].
    + fold p. rewrite (decide_True (P := p = p)) by done.
      intros Haj Haq. injection Haj as <-. injection Haq as <-. lia.
    + intros Haj.
      destruct (decide (((j - 1) / 2)%nat = p)) as [Hq|Hq].
      * intros Haq. injection Haq as <-.
        pose proof (H1 j aj ap Hj Hji Haj) as Hjj. rewrite Hq in Hjj.
        specialize (Hjj Hap). lia.
      * destruct (decide (((j - 1) / 2)%nat = i)) as [Hq'|Hq'].
        -- intros Haq. injection Haq as <-. by apply (H2 j aj ap Hi Hq' Hj Haj).
        -- intros Haq. by apply (H1 j aj aq).
  - intros j aj ag Hp Hjp Hj. rewrite !(swap_lookup a i p ai ap) by done.
    assert (Hgp : (((p - 1) / 2) < p)%nat) by by apply parent_lt.
    rewrite (decide_False (P := ((p - 1) / 2)%nat = p)) by lia.
    rewrite (decide_False (P := ((p - 1) / 2)%nat = i)) by lia.
    rewrite (decide_False (P := j = p)).
    2:{ intros ->. lia. }
    destruct (decide (j = i)) as [->|Hji].
    + intros Haj Hag. injection Haj as <-.
      by apply (H1 p ap ag Hp ltac:(lia) Hap Hag).
    + intros Haj Hag.
      pose proof (H1 p ap ag Hp ltac:(lia) Hap Hag) as Hpg.
      pose proof (H1 j aj ap Hj Hji Haj) as Hjj. rewrite Hjp in Hjj.
      specialize (Hjj Hap). lia.
Qed.

Lemma siftUp_S fuel a i :
  AStar.siftUp (S fuel) a i =
  if (0 <? i)%nat then
    match a !! i, a !! ((i - 1) / 2)%nat with
    | Some ai, Some ap =>
        if AStar.node_f ai <? AStar.node_f ap
        then AStar.siftUp fuel (swap a i ((i - 1) / 2)) ((i - 1) / 2)%nat else a
    | _, _ => a
    end
  else a.
Proof. done. Qed.

Lemma siftUp_spec fuel : ∀ a i,
  (i < fuel)%nat → (i < length a)%nat → heapUp a i →
  heapOK (AStar.siftUp fuel a i) ∧ AStar.siftUp fuel a i ≡ₚ a.
Proof.
  induction fuel as [|fuel IH]; intros a i Hf Hi Hup; [lia|].
  rewrite siftUp_S. destruct (0 <? i)%nat eqn:Hpos.
  - apply Nat.ltb_lt in Hpos.
    assert (Hp : ((i - 1) / 2 < i)%nat) by by apply parent_lt.
    destruct (lookup_lt_is_Some_2 a i Hi) as [ai Hai].
    destruct (lookup_lt_is_Some_2 a ((i - 1) / 2) ltac:(lia)) as [ap Hap].
    rewrite Hai, Hap. destruct (AStar.node_f ai <? AStar.node_f ap) eqn:Hlt.
    + apply Z.ltb_lt in Hlt.
      destruct (IH (swap a i ((i - 1) / 2)) ((i - 1) / 2)%nat) as [Hok Hperm].
      * lia.
      * rewrite swap_length. lia.
      * by apply (heapUp_swap a i ai ap).
      * split; [done|]. by rewrite Hperm, swap_Permutation.
    + apply Z.ltb_ge in Hlt. split; [|done]. destruct Hup as [H1 _].
      intros j aj aq Hj Haj Haq. destruct (decide (j = i)) as [->|Hji].
      * simplify_eq. lia.
      * by apply (H1 j aj aq).
  - apply Nat.ltb_ge in Hpos. split; [|done]. destruct Hup as [H1 _].
    intros j aj aq Hj Haj Haq. apply (H1 j aj aq); [done|lia|done|done].
Qed.

Lemma push_spec a x :
  heapOK a → heapOK (AStar.push a x) ∧ AStar.push a x ≡ₚ x :: a.
Proof.
  intros Hh. unfold AStar.push.
  destruct (siftUp_spec (length (a ++ [x])) (a ++ [x]) (length (a ++ [x]) - 1))
    as [Hok Hperm].
  - rewrite length_app. simpl. lia.
  - rewrite length_app. simpl. lia.
  - rewrite length_app. simpl. replace (length a + 1 - 1)%nat with (length a) by lia.
    split.
    + intros j aj ap Hj Hjn Haj Hap.
      assert (Hjl : (j < length a)%nat).
      { apply lookup_lt_Some in Haj. rewrite length_app in Haj. simpl in Haj. lia. }
      rewrite lookup_app_l in Haj by done.
      rewrite lookup_app_l in Hap by (pose proof (parent_lt j Hj); lia).
      by apply (Hh j aj ap).
    + intros j aj ag Hi Hjp Hj Haj _.
      apply lookup_lt_Some in Haj. rewrite length_app in Haj. simpl in Haj.
      pose proof (parent_lt j Hj). lia.
  - split; [done|]. rewrite Hperm. by rewrite Permutation_app_comm.
Qed.

Lemma siftDown_S fuel a i :
  AStar.siftDown (S fuel) a i =
  let m := AStar.pickMin a (i * 2 + 1 + 1) (AStar.pickMin a (i * 2 + 1) i) in
  if (m =? i)%nat then a else AStar.siftDown fuel (swap a i m) m.
Proof. done. Qed.

Lemma pickMin_spec a c m am :
  a !! m = Some am →
  let k := AStar.pickMin a c m in
  (k = m ∧ ∀ ac, a !! c = Some ac → AStar.node_f am ≤ AStar.node_f ac)
  ∨ (k = c ∧ ∃ ac, a !! c = Some ac ∧ AStar.node_f ac < AStar.node_f am).
Proof.
  intros Hm. unfold AStar.pickMin. rewrite Hm.
  destruct (a !! c) as [ac|] eqn:Hc; [|left; by split].
  destruct (AStar.node_f ac <? AStar.node_f am) eqn:Hlt.
  - apply Z.ltb_lt in Hlt. right. eauto.
  - apply Z.ltb_ge in Hlt. left. split; [done|]. intros ? [= <-]. done.
Qed.

Lemma heapDown_outside a i :
  (length a ≤ i)%nat → heapDown a i → heapOK a.
Proof.
  intros Hi [H1 _] j aj ap Hj Haj Hap. apply (H1 j aj ap); try done.
  apply lookup_lt_Some in Hap. lia.
Qed.

Lemma heapDown_swap a i m ai am :
  a !! i = Some ai → a !! m = Some am → (0 < m)%nat → ((m - 1) / 2)%nat = i →
  AStar.node_f am < AStar.node_f ai →
  (∀ j aj, (0 < j)%nat → ((j - 1) / 2)%nat = i → a !! j = Some aj →
           AStar.node_f am ≤ AStar.node_f aj) →
  heapDown a i → heapDown (swap a i m) m.
Proof.
  intros Hai Ham Hm Hmi Hlt Hmin [H1 H2].
  assert (Him : (i < m)%nat) by (rewrite <- Hmi; by apply parent_lt).
  split.
  - intros j aj aq Hj Hjm. rewrite !(swap_lookup a i m ai am) by done.
    destruct (decide (j = m)) as [->|Hjm'].
    + rewrite Hmi. rewrite (decide_False (P := i = m)) by lia.
      rewrite (decide_True (P := i = i)) by done.
      intros Haj Haq. injection Haj as <-. injection Haq as <-. lia.
    + rewrite (decide_False (P := ((j - 1) / 2)%nat = m)) by done.
      destruct (decide (j = i)) as [->|Hji].
      * assert (Hqi : (((i - 1) / 2) < i)%nat) by by apply parent_lt.
        rewrite (decide_False (P := ((i - 1) / 2)%nat = i)) by lia.
        intros Haj Haq. injection Haj as <-.
        by apply (H2 m am aq Hj Hmi Hm Ham).
      * intros Haj. destruct (decide (((j - 1) / 2)%nat = i)) as [Hq|Hq].
        -- intros Haq. injection Haq as <-. by apply (Hmin j aj).
        -- intros Haq. by apply (H1 j aj aq).
  - intros j aj ag _ Hjp Hj. rewrite !(swap_lookup a i m ai am) by done.
    assert (Hjm : (m < j)%nat) by (rewrite <- Hjp; by apply parent_lt).
    rewrite (decide_False (P := j = m)) by lia.
    rewrite (decide_False (P := j = i)) by lia.
    rewrite Hmi. rewrite (decide_False (P := i = m)) by lia.
    rewrite (decide_True (P := i = i)) by done.
    intros Haj Hag. injection Hag as <-.
    pose proof (H1 j aj am Hj ltac:(lia) Haj) as Hjj. rewrite Hjp in Hjj.
    by apply Hjj.
Qed.

Lemma siftDown_spec fuel : ∀ a i,
  (length a ≤ fuel + i)%nat → heapDown a i →
  heapOK (AStar.siftDown fuel a i) ∧ AStar.siftDown fuel a i ≡ₚ a.
Proof.
  induction fuel as [|fuel IH]; intros a i Hf Hdown.
  { simpl. split; [|done]. by apply (heapDown_outside a i). }
  rewrite siftDown_S. cbv zeta.
  destruct (a !! i) as [ai|] eqn:Hai.
  2:{ unfold AStar.pickMin. rewrite Hai.
      destruct (a !! (i * 2 + 1)%nat); rewrite Hai;
        destruct (a !! (i * 2 + 1 + 1)%nat); rewrite ?Hai, Nat.eqb_refl;
        (split; [|done]); apply (heapDown_outside a i); try done;
        apply lookup_ge_None in Hai; lia. }
  set (r := (i * 2 + 1 + 1)%nat). set (l := (i * 2 + 1)%nat).
  assert (Hchild : ∀ j, (0 < j)%nat → ((j - 1) / 2)%nat = i → j = l ∨ j = r).
  { intros j Hj Hq. by apply child_of in Hq. }
  assert (Hcl : ((l - 1) / 2)%nat = i) by (apply child_of; [lia|by left]).
  assert (Hcr : ((r - 1) / 2)%nat = i) by (apply child_of; [lia|by right]).
  assert (Hlr : (i < l)%nat ∧ (i < r)%nat ∧ l ≠ r) by lia.
  clearbody l r.
  destruct (pickMin_spec a l i ai Hai) as [[Hk1 Hl]|(Hk1 & al & Hal & Hlt1)];
    simpl in Hk1; rewrite Hk1.
  - destruct (pickMin_spec a r i ai Hai) as [[Hk2 Hr]|(Hk2 & ar & Har & Hlt2)];
      simpl in Hk2; rewrite Hk2.
    + rewrite Nat.eqb_refl. split; [|done]. destruct Hdown as [H1 _].
      intros j aj ap Hj Haj Hap.
      destruct (decide (((j - 1) / 2)%nat = i)) as [Hq|Hq]; [|by apply (H1 j aj ap)].
      rewrite Hq, Hai in Hap. injection Hap as <-.
      destruct (Hchild j Hj Hq) as [-> | ->]; [by apply Hl|by apply Hr].
    + assert (Hri : (r =? i)%nat = false) by (apply Nat.eqb_neq; lia).
      rewrite Hri.
      destruct (IH (swap a i r) r) as [Hok Hperm].
      * rewrite swap_length. lia.
      * apply (heapDown_swap a i r ai ar); try done; try lia.
        intros j aj Hj Hq Haj. destruct (Hchild j Hj Hq) as [-> | ->].
        -- specialize (Hl aj Haj). lia.
        -- rewrite Har in Haj. injection Haj as <-. lia.
      * split; [done|]. by rewrite Hperm, swap_Permutation.
  - destruct (pickMin_spec a r l al Hal) as [[Hk2 Hr]|(Hk2 & ar & Har & Hlt2)];
      simpl in Hk2; rewrite Hk2.
    + assert (Hli : (l =? i)%nat = false) by (apply Nat.eqb_neq; lia).
      rewrite Hli.
      destruct (IH (swap a i l) l) as [Hok Hperm].
      * rewrite swap_length. lia.
      * apply (heapDown_swap a i l ai al); try done; try lia.
        intros j aj Hj Hq Haj. destruct (Hchild j Hj Hq) as [-> | ->].
        -- rewrite Hal in Haj. injection Haj as <-. lia.
        -- by apply Hr.
      * split; [done|]. by rewrite Hperm, swap_Permutation.
    + assert (Hri : (r =? i)%nat = false) by (apply Nat.eqb_neq; lia).
      rewrite Hri.
      destruct (IH (swap a i r) r) as [Hok Hperm].
      * rewrite swap_length. lia.
      * apply (heapDown_swap a i r ai ar); try done; try lia.
        intros j aj Hj Hq Haj. destruct (Hchild j Hj Hq) as [-> | ->].
        -- rewrite Hal in Haj. injection Haj as <-. lia.
        -- rewrite Har in Haj. injection Haj as <-. lia.
      * split; [done|]. by rewrite Hperm, swap_Permutation.
Qed.

Lemma pop_spec a :
  heapOK a →
  match AStar.pop a with
  | None => a = []
  | Some (r, a') =>
      heapOK a' ∧ a ≡ₚ r :: a'
      ∧ ∀ y, y ∈ a → AStar.node_f r ≤ AStar.node_f y
  end.
Proof.
  intros Hh. unfold AStar.pop. destruct a as [|r t] eqn:Ea; [done|].
  rewrite <- Ea in *.
  assert (Hmin : ∀ y, y ∈ a → AStar.node_f r ≤ AStar.node_f y).
  { intros y [j Hj]%list_elem_of_lookup. apply (heapOK_min a r Hh) with j; [|done].
    by rewrite Ea. }
  destruct (last a) as [x|] eqn:Hlast.
  2:{ apply last_None in Hlast. by rewrite Hlast in Ea. }
  apply last_Some in Hlast as [a1 Ha1].
  replace (removelast a) with a1 by (by rewrite Ha1, removelast_last).
  destruct a1 as [|r' t1] eqn:Ea1.
  - rewrite Ha1 in Ea. simpl in Ea. injection Ea as -> <-.
    split_and!; [by intros j ?? ? Hj|by rewrite Ha1|done].
  - rewrite <- Ea1 in *.
    assert (r' = r) as ->.
    { rewrite Ha1, Ea1 in Ea. by injection Ea. }
    destruct (siftDown_spec (length (<[0%nat:=x]> a1)) (<[0%nat:=x]> a1) 0)
      as [Hok Hperm].
    + lia.
    + split; [|intros; lia].
      intros j aj ap Hj Hq Haj Hap.
      rewrite list_lookup_insert_ne in Haj by lia.
      rewrite list_lookup_insert_ne in Hap by lia.
      apply (Hh j aj ap Hj).
      * rewrite Ha1. by apply lookup_app_l_Some.
      * rewrite Ha1. by apply lookup_app_l_Some.
    + split_and!; [done| |done].
      rewrite Hperm, Ha1, Ea1. simpl.
      constructor. by rewrite Permutation_app_comm.
Qed.

(** * Proofs: The A* worker *)

(** ** astar-worker.js *)

Lemma h_step g cols rows v w endp :
  gridStep g cols rows v w →
  AStar.h (toPoint v) endp ≤ 1 + AStar.h (toPoint w) endp.
Proof. intros [Hd _]. unfold AStar.h, toPoint. simpl. lia. Qed.

Lemma h_nonneg a b : 0 ≤ AStar.h a b.
Proof. unfold AStar.h. lia. Qed.

Lemma astar_walkableAt_spec cols rows g x y :
  snapshotSized cols rows g → 0 ≤ y < rows →
  ∃ b, AStar.walkableAt (Some g) x y = Ok b ∧ (b = true ↔ openCell g (x, y)).
Proof.
  intros Hs Hy. destruct (snapshot_row cols rows g y Hs Hy) as [row Hrow].
  unfold AStar.walkableAt, openCell. simpl. rewrite Hrow. simpl.
  eexists. split; [done|].
  destruct (arr_get row x) as [v|] eqn:Hv.
  - rewrite Z.eqb_eq. split.
    + intros ->. eauto.
    + intros (row' & Hr' & Hv'). congruence.
  - split; [done|]. intros (row' & Hr' & Hv'). congruence.
Qed.

Lemma astar_filterWalkable_spec cols rows g l :
  snapshotSized cols rows g → (∀ c, c ∈ l → inside cols rows (ptOf c)) →
  ∃ l', AStar.filterWalkable (Some g) l = Ok l'
    ∧ (length l' ≤ length l)%nat
    ∧ ∀ w, w ∈ l' ↔ w ∈ l ∧ openCell g (ptOf w).
Proof.
  intros Hs. induction l as [|[x y] l IH]; intros Hin.
  - exists []. split; [done|]. split; [done|]. set_solver.
  - cbn [AStar.filterWalkable AStar.x AStar.y].
    destruct (astar_walkableAt_spec cols rows g x y Hs) as (b & -> & Hb).
    { apply (Hin (AStar.mkPoint x y)). set_solver. }
    destruct IH as (l' & -> & Hlen & Hl'). { intros c Hc. apply Hin. set_solver. }
    simpl. eexists. split; [done|]. destruct b.
    + split; [simpl; lia|]. intros w. rewrite !elem_of_cons, Hl'. split.
      * intros [->|[? ?]]; [|by auto]. split; [by left|]. by apply Hb.
      * intros [[->|?] ?]; auto.
    + split; [simpl; lia|]. intros w. rewrite elem_of_cons, Hl'. split.
      * intros [? ?]. auto.
      * intros [[->|?] Ho]; [|done]. apply Hb in Ho. done.
Qed.

Lemma astar_candidates_spec cols rows x y w :
  inside cols rows (x, y) →
  w ∈ AStar.candidates cols rows x y ↔
  Z.abs (x - AStar.x w) + Z.abs (y - AStar.y w) = 1 ∧ inside cols rows (ptOf w).
Proof.
  intros [Hx Hy]. simpl in *. unfold AStar.candidates, inside, ptOf.
  rewrite !elem_of_app. destruct w as [a b]. simpl.
  destruct (0 <? x) eqn:E1; destruct (x <? cols - 1) eqn:E2;
    destruct (0 <? y) eqn:E3; destruct (y <? rows - 1) eqn:E4;
    rewrite ?list_elem_of_singleton, ?elem_of_nil;
    split; intros H; simplify_eq; try lia;
    repeat match goal with
           | H : _ ∨ _ |- _ => destruct H
           | H : False |- _ => destruct H
           | H : AStar.mkPoint _ _ = AStar.mkPoint _ _ |- _ => injection H as -> ->
           end; try lia;
    assert ((a = x - 1 ∧ b = y) ∨ (a = x + 1 ∧ b = y) ∨ (a = x ∧ b = y - 1)
            ∨ (a = x ∧ b = y + 1)) as [[-> ->]|[[-> ->]|[[-> ->]|[-> ->]]]] by lia;
    auto; lia.
Qed.

Lemma astar_candidates_length cols rows x y :
  (length (AStar.candidates cols rows x y) ≤ 4)%nat.
Proof.
  unfold AStar.candidates. rewrite !length_app.
  destruct (0 <? x), (x <? cols - 1), (0 <? y), (y <? rows - 1); simpl; lia.
Qed.

(** [neighbors(x, y)] of a cell inside a sized grid: at most four points,
    those one move away. *)
Lemma astar_neighbors_spec req g x y :
  AStar.grid req = Some g →
  snapshotSized (AStar.cols req) (AStar.rows req) g →
  inside (AStar.cols req) (AStar.rows req) (x, y) →
  ∃ l, AStar.neighbors req x y = Ok l
    ∧ (length l ≤ 4)%nat
    ∧ (∀ nb, nb ∈ l → gridStep g (AStar.cols req) (AStar.rows req) (x, y) (ptOf nb))
    ∧ (∀ w, gridStep g (AStar.cols req) (AStar.rows req) (x, y) w → toPoint w ∈ l).
Proof.
  intros Hg Hs Hin. unfold AStar.neighbors. rewrite Hg.
  destruct (astar_filterWalkable_spec (AStar.cols req) (AStar.rows req) g
              (AStar.candidates (AStar.cols req) (AStar.rows req) x y) Hs)
    as (l & -> & Hlen & Hl).
  { intros c Hc. by apply (astar_candidates_spec _ _ x y c Hin) in Hc as [_ ?]. }
  exists l. split; [done|]. split_and!.
  - pose proof (astar_candidates_length (AStar.cols req) (AStar.rows req) x y). lia.
  - intros nb [Hc Ho]%Hl. apply (astar_candidates_spec _ _ x y nb Hin) in Hc as [Hd Hi].
    by split_and!.
  - intros [a b] (Hd & Hi & Ho). apply Hl. split; [|done].
    apply (astar_candidates_spec _ _ x y _ Hin). by split.
Qed.

Lemma nodePath_length_pos n : (1 ≤ length (AStar.nodePath n))%nat.
Proof. destruct n. simpl. lia. Qed.

Lemma validNode_g_nonneg g cols rows s endp n :
  validNode g cols rows s endp n → 0 ≤ AStar.node_g n.
Proof. intros (_ & Hg & _). pose proof (nodePath_length_pos n). lia. Qed.

Lemma validNode_reachIn g cols rows s endp n :
  validNode g cols rows s endp n →
  reachIn g cols rows s (pt n) (Z.to_nat (AStar.node_g n + 1)).
Proof.
  intros (Hw & Hg & _). apply walk_reachIn in Hw.
  rewrite length_rev in Hw. by replace (Z.to_nat _) with (length (AStar.nodePath n)) by lia.
Qed.

(** The entry that [relax] makes for a neighbour of a valid entry. *)
Lemma validNode_succ g cols rows s endp cur nb :
  validNode g cols rows s endp cur →
  gridStep g cols rows (pt cur) (ptOf nb) →
  validNode g cols rows s endp
    (AStar.mkNode (AStar.x nb) (AStar.y nb) (AStar.node_g cur + 1)
       (AStar.node_g cur + 1 + AStar.h nb endp) (Some cur)).
Proof.
  intros (Hw & Hg & Hf & Hi) Hstep. split_and!.
  - simpl. apply (walkFromTo_snoc _ _ _ _ (pt cur)); done.
  - simpl. lia.
  - simpl. by destruct nb.
  - by destruct Hstep as (_ & ? & _).
Qed.

(** *** One iteration of the loop over the neighbours *)

Section Relax.
Variables (g : list (list Z)) (cols rows : Z) (s : Z * Z) (endp : AStar.Point).
Variable cur : AStar.Node.
Hypothesis Hcur : validNode g cols rows s endp cur.

Let newNode (nb : AStar.Point) : AStar.Node :=
  AStar.mkNode (AStar.x nb) (AStar.y nb) (AStar.node_g cur + 1)
    (AStar.node_g cur + 1 + AStar.h nb endp) (Some cur).

(** The branch that stores and pushes a new entry. *)
Lemma relax_insert open pq C D nb :
  AInv g cols rows s endp open pq C D →
  gridStep g cols rows (pt cur) (ptOf nb) →
  (∀ n, open !! ptOf nb = Some n → AStar.node_g cur + 1 < AStar.node_g n) →
  AInv g cols rows s endp (<[ptOf nb:=newNode nb]> open)
    (AStar.push pq (newNode nb)) C D.
Proof.
  intros HI Hstep Hbetter.
  destruct (push_spec pq (newNode nb) (inv_heap _ _ _ _ _ _ _ _ _ HI))
    as [Hheap Hperm].
  assert (Hnew : validNode g cols rows s endp (newNode nb))
    by (by apply validNode_succ).
  assert (Hmem : ∀ n, n ∈ AStar.push pq (newNode nb) ↔ n = newNode nb ∨ n ∈ pq).
  { intros n. by rewrite Hperm, elem_of_cons. }
  assert (HkC : ptOf nb ∉ C).
  { intros Hk. destruct (inv_closed_opt _ _ _ _ _ _ _ _ _ HI _ Hk) as (n & Hn & Hopt).
    specialize (Hbetter n Hn).
    specialize (Hopt _ (validNode_reachIn _ _ _ _ _ _ Hnew)).
    pose proof (validNode_g_nonneg _ _ _ _ _ _ Hcur). simpl in Hopt. lia. }
  split.
  - done.
  - intros n [->|Hn]%Hmem; [done|]. by apply (inv_pq_valid _ _ _ _ _ _ _ _ _ HI).
  - intros v n [[<- <-]|[Hne Hn]]%lookup_insert_Some; [done|].
    by apply (inv_open_valid _ _ _ _ _ _ _ _ _ HI).
  - intros n [->|Hn]%Hmem.
    + exists (newNode nb). split; [|done].
      change (pt (newNode nb)) with (ptOf nb). by rewrite lookup_insert_eq.
    + destruct (inv_pq_open _ _ _ _ _ _ _ _ _ HI n Hn) as (n' & Hn' & Hle).
      destruct (decide (ptOf nb = pt n)) as [Heq|Hne].
      * exists (newNode nb). rewrite <- Heq, lookup_insert_eq. split; [done|].
        rewrite <- Heq in Hn'. specialize (Hbetter n' Hn'). simpl. lia.
      * exists n'. by rewrite lookup_insert_ne.
  - intros v n [[<- <-]|[Hne Hn]]%lookup_insert_Some.
    + left. apply Hmem. by left.
    + destruct (inv_open_pq _ _ _ _ _ _ _ _ _ HI v n Hn) as [?|?]; [|by right].
      left. apply Hmem. by right.
  - intros v Hv. destruct (inv_closed_opt _ _ _ _ _ _ _ _ _ HI v Hv) as (n & Hn & Hopt).
    exists n. split; [|done]. rewrite lookup_insert_ne; [done|]. by intros <-.
  - intros v w Hv Hvw.
    destruct (inv_closed_edges _ _ _ _ _ _ _ _ _ HI v w Hv Hvw)
      as (nv & nw & Hnv & Hnw & Hle).
    assert (ptOf nb ≠ v).
    { intros <-. apply HkC. by apply (inv_done_closed _ _ _ _ _ _ _ _ _ HI). }
    destruct (decide (ptOf nb = w)) as [<-|Hne].
    + exists nv, (newNode nb). rewrite lookup_insert_ne by done.
      rewrite lookup_insert_eq. split_and!; [done|done|].
      specialize (Hbetter nw Hnw). simpl. lia.
    + exists nv, nw. by rewrite !lookup_insert_ne.
  - destruct (inv_start _ _ _ _ _ _ _ _ _ HI) as (n & Hn & Hg0).
    exists n. split; [|done]. rewrite lookup_insert_ne; [done|].
    intros Heq. rewrite Heq in Hbetter. specialize (Hbetter n Hn).
    pose proof (validNode_g_nonneg _ _ _ _ _ _ Hcur). lia.
  - by apply (inv_done_closed _ _ _ _ _ _ _ _ _ HI).
  - by apply (inv_closed_inside _ _ _ _ _ _ _ _ _ HI).
  - by apply (inv_end _ _ _ _ _ _ _ _ _ HI).
Qed.

(** The body of the loop: the invariant stays, no [g] in [open] grows,
    the neighbour ends with an entry at most one move after [cur], and
    the heap gains at most one entry. *)
Lemma relax_step open pq C D nb :
  AInv g cols rows s endp open pq C D →
  gridStep g cols rows (pt cur) (ptOf nb) →
  ∃ open' pq', AStar.relax endp cur (open, pq) nb = (open', pq')
    ∧ AInv g cols rows s endp open' pq' C D
    ∧ (length pq' ≤ S (length pq))%nat
    ∧ (∀ v n, open !! v = Some n →
         ∃ n', open' !! v = Some n' ∧ AStar.node_g n' ≤ AStar.node_g n)
    ∧ (∃ n', open' !! ptOf nb = Some n'
         ∧ AStar.node_g n' ≤ AStar.node_g cur + 1).
Proof.
  intros HI Hstep. unfold AStar.relax, AStar.key.
  change (AStar.x nb, AStar.y nb) with (ptOf nb).
  assert (Hins : (∀ n, open !! ptOf nb = Some n →
                    AStar.node_g cur + 1 < AStar.node_g n) →
    ∃ open' pq', (<[ptOf nb:=newNode nb]> open, AStar.push pq (newNode nb))
                 = (open', pq')
    ∧ AInv g cols rows s endp open' pq' C D
    ∧ (length pq' ≤ S (length pq))%nat
    ∧ (∀ v n, open !! v = Some n →
         ∃ n', open' !! v = Some n' ∧ AStar.node_g n' ≤ AStar.node_g n)
    ∧ (∃ n', open' !! ptOf nb = Some n'
         ∧ AStar.node_g n' ≤ AStar.node_g cur + 1)).
  { intros Hbetter. eexists _, _. split; [done|]. split_and!.
    - by apply relax_insert.
    - destruct (push_spec pq (newNode nb) (inv_heap _ _ _ _ _ _ _ _ _ HI))
        as [_ Hperm].
      rewrite Hperm. simpl. lia.
    - intros v n Hn. destruct (decide (ptOf nb = v)) as [<-|Hne].
      + exists (newNode nb). rewrite lookup_insert_eq. split; [done|].
        specialize (Hbetter n Hn). simpl. lia.
      + exists n. by rewrite lookup_insert_ne.
    - exists (newNode nb). rewrite lookup_insert_eq. split; [done|]. simpl. lia. }
  destruct (open !! ptOf nb) as [existing|] eqn:Hex.
  - destruct (AStar.node_g cur + 1 <? AStar.node_g existing) eqn:Hlt.
    + apply Hins. intros n [= <-]. lia.
    + exists open, pq. split_and!; [done|done|lia| |].
      * intros v n Hn. exists n. split; [done|lia].
      * exists existing. split; [done|lia].
  - apply Hins. intros n [=].
Qed.

(** The whole loop over the neighbours. *)
Lemma relax_fold C D nbs : ∀ open pq,
  AInv g cols rows s endp open pq C D →
  (∀ nb, nb ∈ nbs → gridStep g cols rows (pt cur) (ptOf nb)) →
  ∃ open' pq', foldl (AStar.relax endp cur) (open, pq) nbs = (open', pq')
    ∧ AInv g cols rows s endp open' pq' C D
    ∧ (length pq' ≤ length pq + length nbs)%nat
    ∧ (∀ v n, open !! v = Some n →
         ∃ n', open' !! v = Some n' ∧ AStar.node_g n' ≤ AStar.node_g n)
    ∧ (∀ nb, nb ∈ nbs → ∃ n', open' !! ptOf nb = Some n'
         ∧ AStar.node_g n' ≤ AStar.node_g cur + 1).
Proof.
  induction nbs as [|nb nbs IH]; intros open pq HI Hnbs.
  - exists open, pq. split_and!; [done|done|simpl; lia| |].
    + intros v n Hn. exists n. split; [done|lia].
    + intros nb Hnb. by apply elem_of_nil in Hnb.
  - destruct (relax_step open pq C D nb HI) as (o1 & q1 & Hr & HI1 & Hl1 & Hm1 & Hn1).
    { apply Hnbs. by left. }
    destruct (IH o1 q1 HI1) as (o2 & q2 & Hf & HI2 & Hl2 & Hm2 & Hn2).
    { intros nb' Hnb'. apply Hnbs. by right. }
    exists o2, q2. cbn [foldl]. rewrite Hr. split_and!; [done|done|simpl; lia| |].
    + intros v n Hn. destruct (Hm1 v n Hn) as (n1 & Hn1' & Hle1).
      destruct (Hm2 v n1 Hn1') as (n2 & Hn2' & Hle2). exists n2. split; [done|lia].
    + intros nb' [->|Hnb']%elem_of_cons.
      * destruct Hn1 as (n1 & Hn1' & Hle1).
        destruct (Hm2 _ n1 Hn1') as (n2 & Hn2' & Hle2). exists n2. split; [done|lia].
      * by apply Hn2.
Qed.

(** No entry is stored or pushed when every neighbour already has an
    entry that is at most one move after [cur]. *)
Lemma relax_fold_stale nbs open pq :
  (∀ nb, nb ∈ nbs → ∃ n, open !! ptOf nb = Some n
      ∧ AStar.node_g n ≤ AStar.node_g cur + 1) →
  foldl (AStar.relax endp cur) (open, pq) nbs = (open, pq).
Proof.
  induction nbs as [|nb nbs IH]; intros Hnbs; [done|].
  cbn [foldl]. destruct (Hnbs nb) as (n & Hn & Hle); [by left|].
  unfold AStar.relax at 2. unfold AStar.key. change (AStar.x nb, AStar.y nb) with (ptOf nb). rewrite Hn.
  replace (AStar.node_g cur + 1 <? AStar.node_g n) with false by lia.
  apply IH. intros nb' Hnb'. apply Hnbs. by right.
Qed.
End Relax.

(** *** The search loop *)

Section AStarLoop.
Variables (req : AStar.Request) (g : list (list Z)) (s : Z * Z)
          (endp : AStar.Point).
Hypothesis Hgrid : AStar.grid req = Some g.
Hypothesis Hsized : snapshotSized (AStar.cols req) (AStar.rows req) g.
Hypothesis Hstart : inside (AStar.cols req) (AStar.rows req) s.

Let cols := AStar.cols req.
Let rows := AStar.rows req.

(** A walk from start either ends in a closed cell whose entry is no
    longer than the walk, or the heap holds an entry of a cell of the
    walk that is no worse than the walk. *)
Lemma astar_frontier open pq E w m :
  AInv g cols rows s endp open pq E E →
  reachIn g cols rows s w m →
  (w ∈ E ∧ ∃ n, open !! w = Some n ∧ AStar.node_g n + 1 ≤ Z.of_nat m)
  ∨ (∃ n, n ∈ pq
       ∧ AStar.node_f n ≤ Z.of_nat m - 1 + AStar.h (toPoint w) endp).
Proof.
  intros HI. induction 1 as [|v w m Hreach IH Hstep].
  - destruct (inv_start _ _ _ _ _ _ _ _ _ HI) as (n & Hn & Hg0).
    destruct (inv_open_pq _ _ _ _ _ _ _ _ _ HI s n Hn) as [Hpq|HE].
    + right. exists n. split; [done|].
      destruct (inv_open_valid _ _ _ _ _ _ _ _ _ HI s n Hn) as [(_ & _ & Hf & _) Hpt].
      rewrite Hf, Hpt, Hg0. lia.
    + left. split; [done|]. exists n. split; [done|lia].
  - destruct IH as [(HE & n & Hn & Hle)|(n & Hn & Hle)].
    + destruct (inv_closed_edges _ _ _ _ _ _ _ _ _ HI v w HE Hstep)
        as (nv & nw & Hnv & Hnw & Hle').
      assert (nv = n) as -> by congruence.
      destruct (inv_open_pq _ _ _ _ _ _ _ _ _ HI w nw Hnw) as [Hpq|HE'].
      * right. exists nw. split; [done|].
        destruct (inv_open_valid _ _ _ _ _ _ _ _ _ HI w nw Hnw)
          as [(_ & _ & Hf & _) Hpt].
        rewrite Hf, Hpt. lia.
      * left. split; [done|]. exists nw. split; [done|lia].
    + right. exists n. split; [done|].
      pose proof (h_step g cols rows v w endp Hstep). lia.
Qed.

(** The entry popped for a cell that is not closed has the least [g] of
    its cell. *)
Lemma popped_optimal open pq E cur :
  AInv g cols rows s endp open pq E E →
  cur ∈ pq →
  (∀ y, y ∈ pq → AStar.node_f cur ≤ AStar.node_f y) →
  pt cur ∉ E →
  ∀ m, reachIn g cols rows s (pt cur) m → AStar.node_g cur + 1 ≤ Z.of_nat m.
Proof.
  intros HI Hcur Hmin HnE m Hm.
  destruct (astar_frontier open pq E (pt cur) m HI Hm) as [[HE _]|(n & Hn & Hle)];
    [done|].
  destruct (inv_pq_valid _ _ _ _ _ _ _ _ _ HI cur Hcur) as (_ & _ & Hf & _).
  specialize (Hmin n Hn). lia.
Qed.

Lemma AInv_pop_stale open pq pq1 E cur :
  AInv g cols rows s endp open pq E E →
  pq ≡ₚ cur :: pq1 → heapOK pq1 → pt cur ∈ E →
  AInv g cols rows s endp open pq1 E E.
Proof.
  intros HI Hperm Hheap HE.
  assert (Hmem : ∀ n, n ∈ pq ↔ n = cur ∨ n ∈ pq1).
  { intros n. by rewrite Hperm, elem_of_cons. }
  split.
  - done.
  - intros n Hn. apply (inv_pq_valid _ _ _ _ _ _ _ _ _ HI). apply Hmem. by right.
  - by apply (inv_open_valid _ _ _ _ _ _ _ _ _ HI).
  - intros n Hn. apply (inv_pq_open _ _ _ _ _ _ _ _ _ HI). apply Hmem. by right.
  - intros v n Hn.
    destruct (inv_open_pq _ _ _ _ _ _ _ _ _ HI v n Hn) as [[->|?]%Hmem|?]; auto.
    destruct (inv_open_valid _ _ _ _ _ _ _ _ _ HI v cur Hn) as [_ <-]. by right.
  - by apply (inv_closed_opt _ _ _ _ _ _ _ _ _ HI).
  - by apply (inv_closed_edges _ _ _ _ _ _ _ _ _ HI).
  - by apply (inv_start _ _ _ _ _ _ _ _ _ HI).
  - done.
  - by apply (inv_closed_inside _ _ _ _ _ _ _ _ _ HI).
  - by apply (inv_end _ _ _ _ _ _ _ _ _ HI).
Qed.

Lemma AInv_pop_fresh open pq pq1 E cur :
  AInv g cols rows s endp open pq E E →
  pq ≡ₚ cur :: pq1 → heapOK pq1 →
  (∀ m, reachIn g cols rows s (pt cur) m → AStar.node_g cur + 1 ≤ Z.of_nat m) →
  pt cur ≠ ptOf endp →
  AInv g cols rows s endp open pq1 (E ∪ {[pt cur]}) E.
Proof.
  intros HI Hperm Hheap Hopt Hne.
  assert (Hmem : ∀ n, n ∈ pq ↔ n = cur ∨ n ∈ pq1).
  { intros n. by rewrite Hperm, elem_of_cons. }
  assert (Hcur : cur ∈ pq) by (apply Hmem; by left).
  split.
  - done.
  - intros n Hn. apply (inv_pq_valid _ _ _ _ _ _ _ _ _ HI). apply Hmem. by right.
  - by apply (inv_open_valid _ _ _ _ _ _ _ _ _ HI).
  - intros n Hn. apply (inv_pq_open _ _ _ _ _ _ _ _ _ HI). apply Hmem. by right.
  - intros v n Hn.
    destruct (inv_open_pq _ _ _ _ _ _ _ _ _ HI v n Hn) as [[->|?]%Hmem|?].
    + destruct (inv_open_valid _ _ _ _ _ _ _ _ _ HI v cur Hn) as [_ <-].
      right. set_solver.
    + by left.
    + right. set_solver.
  - intros v [Hv|Hv%elem_of_singleton]%elem_of_union.
    + by apply (inv_closed_opt _ _ _ _ _ _ _ _ _ HI).
    + subst v. destruct (inv_pq_open _ _ _ _ _ _ _ _ _ HI cur Hcur) as (n' & Hn' & Hle).
      exists n'. split; [done|]. intros m Hm. specialize (Hopt m Hm). lia.
  - by apply (inv_closed_edges _ _ _ _ _ _ _ _ _ HI).
  - by apply (inv_start _ _ _ _ _ _ _ _ _ HI).
  - set_solver.
  - intros v [Hv|Hv%elem_of_singleton]%elem_of_union.
    + by apply (inv_closed_inside _ _ _ _ _ _ _ _ _ HI).
    + subst v. by destruct (inv_pq_valid _ _ _ _ _ _ _ _ _ HI cur Hcur) as (_ & _ & _ & ?).
  - intros [Hv|Hv%elem_of_singleton]%elem_of_union; [|done].
    by apply (inv_end _ _ _ _ _ _ _ _ _ HI).
Qed.

(** After the loop over its neighbours the popped cell is done. *)
Lemma AInv_close open pq E cur :
  AInv g cols rows s endp open pq (E ∪ {[pt cur]}) E →
  (∀ m, reachIn g cols rows s (pt cur) m → AStar.node_g cur + 1 ≤ Z.of_nat m) →
  (∀ w, gridStep g cols rows (pt cur) w →
     ∃ n', open !! w = Some n' ∧ AStar.node_g n' ≤ AStar.node_g cur + 1) →
  AInv g cols rows s endp open pq (E ∪ {[pt cur]}) (E ∪ {[pt cur]}).
Proof.
  intros HI Hopt Hnbs. destruct HI as [H1 H2 H3 H4 H5 H6 H7 H8 H9 H10 H11].
  split; try done.
  intros v w [Hv|Hv%elem_of_singleton]%elem_of_union Hstep; [by apply H7|].
  subst v. destruct (H6 (pt cur)) as (n & Hn & _); [set_solver|].
  destruct (Hnbs w Hstep) as (n' & Hn' & Hle).
  exists n, n'. split_and!; [done|done|].
  destruct (H3 _ _ Hn) as [Hval Hpt].
  pose proof (validNode_reachIn _ _ _ _ _ _ Hval) as Hr. rewrite Hpt in Hr.
  specialize (Hopt _ Hr). pose proof (validNode_g_nonneg _ _ _ _ _ _ Hval). lia.
Qed.

Lemma searchLoop_S budget open pq n :
  AStar.searchLoop (S budget) req endp open pq n =
  match AStar.pop pq with
  | None => Ok (Posted None, n)
  | Some (cur, pq) =>
      if (AStar.node_x cur =? AStar.x endp) && (AStar.node_y cur =? AStar.y endp)
      then Ok (Posted (Some (rev (AStar.nodePath cur))), S n)
      else
        nbs ← AStar.neighbors req (AStar.node_x cur) (AStar.node_y cur);
        let '(open, pq) := foldl (AStar.relax endp cur) (open, pq) nbs in
        AStar.searchLoop budget req endp open pq (S n)
  end.
Proof. done. Qed.

Lemma h_self : AStar.h (toPoint (ptOf endp)) endp = 0.
Proof. unfold AStar.h, toPoint, ptOf. simpl. lia. Qed.

(** The loop ends with a posted result after no more pops than the
    budget allows; a posted path is a shortest walk from start to the
    goal, and [null] is posted only when the goal cannot be reached. *)
Lemma astar_searchLoop_spec : ∀ budget open pq E n,
  AInv g cols rows s endp open pq E E →
  (n + budget = Z.to_nat (cols * rows * 10))%nat →
  (n + length pq ≤ 1 + 4 * size E)%nat →
  ∃ r n', AStar.searchLoop budget req endp open pq n = Ok (Posted r, n')
    ∧ (n' ≤ Z.to_nat (cols * rows * 10))%nat
    ∧ match r with
      | Some pth =>
          walkFromTo g cols rows s (ptOf endp) pth
          ∧ ∀ m, reachIn g cols rows s (ptOf endp) m → (length pth ≤ m)%nat
      | None => ∀ m, ¬ reachIn g cols rows s (ptOf endp) m
      end.
Proof.
  assert (Hnonempty : ∀ open pq E m,
    AInv g cols rows s endp open pq E E →
    reachIn g cols rows s (ptOf endp) m → ∃ n0, n0 ∈ pq).
  { intros open pq E m HI Hm.
    destruct (astar_frontier open pq E _ m HI Hm) as [[HE _]|(n0 & Hn0 & _)].
    - by destruct (inv_end _ _ _ _ _ _ _ _ _ HI).
    - by exists n0. }
  induction budget as [|budget IH]; intros open pq E n HI Hbudget Hcount.
  - exists None, n. split; [done|]. split; [lia|].
    intros m Hm. destruct (Hnonempty open pq E m HI Hm) as (n0 & Hn0).
    assert (1 ≤ length pq)%nat.
    { destruct pq; [by apply elem_of_nil in Hn0|simpl; lia]. }
    pose proof (size_inside cols rows E (inv_closed_inside _ _ _ _ _ _ _ _ _ HI)).
    assert (1 ≤ cols * rows) by (destruct Hstart; nia).
    lia.
  - rewrite searchLoop_S.
    pose proof (pop_spec pq (inv_heap _ _ _ _ _ _ _ _ _ HI)) as Hpop.
    destruct (AStar.pop pq) as [[cur pq1]|].
    2:{ exists None, n. split; [done|]. split; [lia|].
        intros m Hm. destruct (Hnonempty open pq E m HI Hm) as (n0 & Hn0).
        subst pq. by apply elem_of_nil in Hn0. }
    destruct Hpop as (Hheap1 & Hperm & Hmin).
    assert (Hcur : cur ∈ pq) by (rewrite Hperm; by left).
    pose proof (inv_pq_valid _ _ _ _ _ _ _ _ _ HI cur Hcur) as Hval.
    assert (Hlen : length pq = S (length pq1)) by (by rewrite Hperm).
    destruct ((AStar.node_x cur =? AStar.x endp) && (AStar.node_y cur =? AStar.y endp))
      eqn:Hgoal.
    + apply andb_true_iff in Hgoal as [Hx Hy].
      assert (Hpt : pt cur = ptOf endp).
      { unfold pt, ptOf. f_equal; lia. }
      exists (Some (rev (AStar.nodePath cur))), (S n).
      split; [done|]. split; [lia|]. split.
      * rewrite <- Hpt. by destruct Hval.
      * intros m Hm. rewrite length_rev.
        assert (Hopt := popped_optimal open pq E cur HI Hcur Hmin).
        rewrite Hpt in Hopt. specialize (Hopt (inv_end _ _ _ _ _ _ _ _ _ HI) m Hm).
        destruct Hval as (_ & Hg & _). lia.
    + assert (Hne : pt cur ≠ ptOf endp).
      { unfold pt, ptOf. intros [= Hx Hy]. rewrite Hx, Hy, !Z.eqb_refl in Hgoal. done. }
      destruct (astar_neighbors_spec req g (AStar.node_x cur) (AStar.node_y cur)
                  Hgrid Hsized) as (nbs & -> & Hnlen & Hnb1 & Hnb2).
      { by destruct Hval as (_ & _ & _ & ?). }
      cbn [mbind Res_bind].
      destruct (decide (pt cur ∈ E)) as [HE|HnE].
      * rewrite (relax_fold_stale endp cur nbs open pq1).
        2:{ intros nb Hnb.
            destruct (inv_closed_edges _ _ _ _ _ _ _ _ _ HI (pt cur) (ptOf nb) HE
                        (Hnb1 nb Hnb)) as (nv & nw & Hnv & Hnw & Hle).
            destruct (inv_pq_open _ _ _ _ _ _ _ _ _ HI cur Hcur) as (n' & Hn' & Hle').
            exists nw. split; [done|]. assert (nv = n') by congruence. subst. lia. }
        apply (IH open pq1 E (S n)); [|lia|lia].
        by apply (AInv_pop_stale open pq pq1 E cur).
      * assert (Hopt := popped_optimal open pq E cur HI Hcur Hmin HnE).
        pose proof (AInv_pop_fresh open pq pq1 E cur HI Hperm Hheap1 Hopt Hne) as HI1.
        destruct (relax_fold g cols rows s endp cur Hval _ _ nbs open pq1 HI1 Hnb1)
          as (open' & pq' & -> & HI2 & Hlen2 & _ & Hdone).
        apply (IH open' pq' (E ∪ {[pt cur]}) (S n)); [|lia|].
        -- apply AInv_close; [done|done|].
           intros w Hw. destruct (Hdone _ (Hnb2 w Hw)) as (n' & Hn' & Hle).
           exists n'. split; [|done]. by destruct w.
        -- rewrite size_union by set_solver. rewrite size_singleton. lia.
Qed.
End AStarLoop.

(** *** The message handler *)

Lemma push_nil x : AStar.push [] x = [x].
Proof. done. Qed.

Lemma AInv_init g cols rows st endp :
  inside cols rows (ptOf st) →
  let startNode :=
    AStar.mkNode (AStar.x st) (AStar.y st) 0 (AStar.h st endp) None in
  AInv g cols rows (ptOf st) endp (<[ptOf st:=startNode]> ∅) [startNode] ∅ ∅.
Proof.
  intros Hin startNode.
  assert (Hval : validNode g cols rows (ptOf st) endp startNode).
  { split_and!; [done|done| |done]. simpl. by destruct st. }
  split.
  - intros i ai ap Hi Hai. destruct i; [lia|done].
  - by intros n ->%list_elem_of_singleton.
  - by intros v n [[<- <-]|[_ ?]]%lookup_insert_Some.
  - intros n ->%list_elem_of_singleton. exists startNode.
    change (pt startNode) with (ptOf st). by rewrite lookup_insert_eq.
  - intros v n [[<- <-]|[_ ?]]%lookup_insert_Some; [|done]. left. by left.
  - set_solver.
  - set_solver.
  - exists startNode. by rewrite lookup_insert_eq.
  - done.
  - set_solver.
  - set_solver.
Qed.

(** The worker on a request that carries a sized grid, a start inside it
    and a goal. *)
Lemma astar_onmessage_spec req g st en :
  AStar.cmd req = "astar" →
  AStar.grid req = Some g → AStar.start req = Some st → AStar.end_ req = Some en →
  snapshotSized (AStar.cols req) (AStar.rows req) g →
  inside (AStar.cols req) (AStar.rows req) (ptOf st) →
  ∃ r n, AStar.onmessage req = Ok (Posted r, n)
    ∧ (n ≤ Z.to_nat (AStar.cols req * AStar.rows req * 10))%nat
    ∧ match r with
      | Some pth =>
          walkFromTo g (AStar.cols req) (AStar.rows req) (ptOf st) (ptOf en) pth
          ∧ ∀ m, reachIn g (AStar.cols req) (AStar.rows req) (ptOf st) (ptOf en) m →
                 (length pth ≤ m)%nat
      | None => ∀ m, ¬ reachIn g (AStar.cols req) (AStar.rows req) (ptOf st) (ptOf en) m
      end.
Proof.
  intros Hcmd Hg Hst Hen Hsized Hin.
  unfold AStar.onmessage. rewrite Hcmd, Hst, Hen. cbn [negb String.eqb].
  replace (String.eqb "astar" "astar") with true by done.
  cbn [negb deref mbind Res_bind]. rewrite push_nil. unfold AStar.key.
  change (AStar.x st, AStar.y st) with (ptOf st).
  apply (astar_searchLoop_spec req g (ptOf st) en Hg Hsized Hin _ _ _ ∅ 0%nat).
  - apply AInv_init. done.
  - lia.
  - simpl. lia.
Qed.

(** A walk between two different cells ends in a walkable cell. *)
Lemma walk_end_open g cols rows s t p :
  walkFromTo g cols rows s t p → s ≠ t → openCell g t.
Proof.
  intros (Hh & Hl & Hw) Hne.
  destruct p as [|b p _] using rev_ind; [done|].
  rewrite last_snoc in Hl. injection Hl as ->.
  destruct p as [|a p _] using rev_ind.
  - simpl in Hh. by injection Hh as ->.
  - apply isWalk_last_step in Hw. by destruct Hw as (_ & _ & ?).
Qed.

(** C3.  On a request with a sized grid and a start inside it, when some
    walk over walkable cells leads from start to the goal, the A* worker
    posts a path: a walk from start to the goal that is no longer than any
    other, and as long as the path that the exhaustive breadth-first search
    of the BFS worker posts for the same grid with the goal as its only
    target. *)
Theorem astar_optimal req g st en p0 :
  AStar.cmd req = "astar" →
  AStar.grid req = Some g → AStar.start req = Some st → AStar.end_ req = Some en →
  snapshotSized (AStar.cols req) (AStar.rows req) g →
  inside (AStar.cols req) (AStar.rows req) (ptOf st) →
  walkFromTo g (AStar.cols req) (AStar.rows req) (ptOf st) (ptOf en) p0 →
  ∃ pth n, AStar.onmessage req = Ok (Posted (Some pth), n)
    ∧ walkFromTo g (AStar.cols req) (AStar.rows req) (ptOf st) (ptOf en) pth
    ∧ (∀ p', walkFromTo g (AStar.cols req) (AStar.rows req) (ptOf st) (ptOf en) p' →
         (length pth ≤ length p')%nat)
    ∧ ∀ fuel, (Z.to_nat (AStar.cols req * AStar.rows req) ≤ fuel)%nat →
        ∃ bpath nb,
          Bfs.onmessage fuel (bfsRequestOf req st en) = Ok (Posted (Some bpath), nb)
          ∧ length pth = length bpath.
Proof.
  intros Hcmd Hg Hst Hen Hsized Hin Hp0.
  destruct (astar_onmessage_spec req g st en Hcmd Hg Hst Hen Hsized Hin)
    as (r & n & Hrun & _ & Hr).
  destruct r as [pth|].
  2:{ destruct (Hr (length p0)). by apply walk_reachIn. }
  destruct Hr as [Hw Hopt].
  exists pth, n. split_and!; [done|done| |].
  - intros p' Hp'. apply Hopt. by apply walk_reachIn.
  - intros fuel Hfuel.
    destruct (bfs_onmessage_spec fuel (bfsRequestOf req st en) g
                (Bfs.mkPoint (AStar.x st) (AStar.y st)))
      as (rb & nb & Hrunb & _ & Hrb); try done.
    simpl in Hrb. change (AStar.x st, AStar.y st) with (ptOf st) in Hrb.
    destruct rb as [bpath|].
    2:{ destruct (Hrb (ptOf en) (length p0)); [by left|by apply walk_reachIn]. }
    destruct Hrb as (t & ->%list_elem_of_singleton & Hwb & Hoptb).
    exists bpath, nb. split; [done|].
    apply Nat.le_antisymm.
    + apply Hopt. by apply walk_reachIn.
    + apply (Hoptb (ptOf en)); [by left|]. by apply walk_reachIn.
Qed.

(** C8.  On a request with a sized grid and a start inside it, when no
    walk over walkable cells leads from start to the goal, the A* worker
    ends normally: it posts [null] after popping at most
    [10 * cols * rows] entries. *)
Theorem astar_unreachable_null req g st en :
  AStar.cmd req = "astar" →
  AStar.grid req = Some g → AStar.start req = Some st → AStar.end_ req = Some en →
  snapshotSized (AStar.cols req) (AStar.rows req) g →
  inside (AStar.cols req) (AStar.rows req) (ptOf st) →
  (∀ p, ¬ walkFromTo g (AStar.cols req) (AStar.rows req) (ptOf st) (ptOf en) p) →
  ∃ n, AStar.onmessage req = Ok (Posted None, n)
    ∧ (Z.of_nat n ≤ 10 * AStar.cols req * AStar.rows req).
Proof.
  intros Hcmd Hg Hst Hen Hsized Hin Hnone.
  destruct (astar_onmessage_spec req g st en Hcmd Hg Hst Hen Hsized Hin)
    as (r & n & Hrun & Hn & Hr).
  destruct r as [pth|].
  { destruct Hr as [Hw _]. by destruct (Hnone pth). }
  exists n. split; [done|].
  assert (1 ≤ AStar.cols req * AStar.rows req) by (destruct Hin; simpl in *; nia).
  lia.
Qed.

(** C5.  The A* worker reads [start.x] without a test of the field: a
    request without [start] raises, where the BFS worker posts [null]. *)
Theorem astar_missing_start_raises req :
  AStar.cmd req = "astar" → AStar.start req = None →
  AStar.onmessage req = Throw.
Proof.
  intros Hcmd Hst. unfold AStar.onmessage. rewrite Hcmd, Hst. done.
Qed.

(** *** Example requests *)

Lemma walk7_ok : walkFromTo snap7 7 7 (1, 1) (5, 5) walk7.
Proof.
  split_and!; [done|done|].
  unfold walk7. cbn [isWalk].
  repeat split; try (simpl; lia); by eexists.
Qed.

Lemma wall_unreachable p : ¬ walkFromTo snap7 7 7 (1, 1) (4, 1) p.
Proof.
  intros Hp. apply walk_end_open in Hp; [|done].
  destruct Hp as (row & Hrow & Hv). vm_compute in Hrow.
  injection Hrow as <-. by vm_compute in Hv.
Qed.

Lemma astar_optimal_witness :
  ∃ pth n, AStar.onmessage astarReq7 = Ok (Posted (Some pth), n)
    ∧ walkFromTo snap7 7 7 (1, 1) (5, 5) pth
    ∧ (∀ p', walkFromTo snap7 7 7 (1, 1) (5, 5) p' → (length pth ≤ length p')%nat)
    ∧ ∀ fuel, (Z.to_nat (7 * 7) ≤ fuel)%nat →
        ∃ bpath nb,
          Bfs.onmessage fuel
            (bfsRequestOf astarReq7 (AStar.mkPoint 1 1) (AStar.mkPoint 5 5))
          = Ok (Posted (Some bpath), nb)
          ∧ length pth = length bpath.
Proof.
  apply (astar_optimal astarReq7 snap7 (AStar.mkPoint 1 1) (AStar.mkPoint 5 5) walk7).
  - reflexivity.
  - reflexivity.
  - reflexivity.
  - reflexivity.
  - apply snap7_sized.
  - unfold inside. simpl. lia.
  - apply walk7_ok.
Defined.

Lemma astar_unreachable_null_witness :
  ∃ n, AStar.onmessage astarReqWall = Ok (Posted None, n)
    ∧ (Z.of_nat n ≤ 10 * 7 * 7).
Proof.
  apply (astar_unreachable_null astarReqWall snap7 (AStar.mkPoint 1 1)
           (AStar.mkPoint 4 1)).
  - reflexivity.
  - reflexivity.
  - reflexivity.
  - reflexivity.
  - apply snap7_sized.
  - unfold inside. simpl. lia.
  - apply wall_unreachable.
Defined.

Lemma astar_missing_start_raises_witness :
  AStar.onmessage astarReqNoStart = Throw.
Proof.
  apply (astar_missing_start_raises astarReqNoStart); reflexivity.
Defined.

(** Without [grid] the filter of [neighbors] raises at the first cell that
    is popped. *)
Lemma astar_missing_grid_raises : AStar.onmessage astarReqNoGrid = Throw.
Proof. vm_compute. reflexivity. Qed.

(** The BFS worker on the same two requests. *)
Lemma bfs_missing_field_null :
  Bfs.onmessage 49
    (Bfs.mkRequest "bfs-deadend" (Some snap7) 7 7 None (Some [(5, 5)]))
  = Ok (Posted None, 0%nat)
  ∧ Bfs.onmessage 49
      (Bfs.mkRequest "bfs-deadend" None 7 7 (Some (Bfs.mkPoint 1 1)) (Some [(5, 5)]))
    = Ok (Posted None, 0%nat).
Proof. split; by apply bfs_guard; [|auto]. Qed.

(** * Proofs: The workers at their limits *)

(** ** More on astar-worker.js *)

Lemma pushAll_from a l :
  heapOK a → heapOK (foldl AStar.push a l) ∧ foldl AStar.push a l ≡ₚ l ++ a.
Proof.
  revert a. induction l as [|x l IH]; intros a Ha; [done|].
  cbn [foldl]. destruct (push_spec a x Ha) as [Hh Hp].
  destruct (IH _ Hh) as [Hh' Hp']. split; [done|].
  rewrite Hp', Hp. simpl. by rewrite Permutation_middle.
Qed.

Lemma heapOK_nil : heapOK [].
Proof. by intros i ai ap _ Hi. Qed.

Lemma popAll_spec fuel : ∀ a,
  heapOK a → (length a ≤ fuel)%nat →
  popAll fuel a ≡ₚ a
  ∧ ∀ i j x y, (i ≤ j)%nat → popAll fuel a !! i = Some x →
      popAll fuel a !! j = Some y → AStar.node_f x ≤ AStar.node_f y.
Proof.
  induction fuel as [|fuel IH]; intros a Ha Hlen.
  - destruct a; [|simpl in Hlen; lia]. by split.
  - cbn [popAll]. pose proof (pop_spec a Ha) as Hpop.
    destruct (AStar.pop a) as [[r a']|]; [|by subst].
    destruct Hpop as (Ha' & Hperm & Hmin).
    destruct (IH a' Ha') as [Hp Hs].
    { rewrite Hperm in Hlen. simpl in Hlen. lia. }
    split; [by rewrite Hp, Hperm|].
    intros i j x y Hij Hi Hj. destruct j as [|j].
    + assert (i = 0)%nat as -> by lia. simpl in *. simplify_eq. lia.
    + simpl in Hj. destruct i as [|i].
      * simpl in Hi. injection Hi as <-. apply Hmin.
        rewrite Hperm. right. rewrite <- Hp. by eapply list_elem_of_lookup_2.
      * simpl in Hi. apply (Hs i j); [lia|done|done].
Qed.

(** X1.  The priority queue sorts: whatever entries are pushed on an empty
    heap, in whatever order, popping until the heap is empty returns the
    same entries, each once, by non-decreasing [f]. *)
Theorem pq_pops_sorted (l : list AStar.Node) :
  popAll (length l) (pushAll l) ≡ₚ l
  ∧ ∀ i j x y, (i ≤ j)%nat → popAll (length l) (pushAll l) !! i = Some x →
      popAll (length l) (pushAll l) !! j = Some y →
      AStar.node_f x ≤ AStar.node_f y.
Proof.
  destruct (pushAll_from [] l heapOK_nil) as [Hh Hp].
  rewrite app_nil_r in Hp. fold (pushAll l) in Hh, Hp.
  destruct (popAll_spec (length l) (pushAll l) Hh) as [Hp' Hs].
  { by rewrite Hp. }
  split; [by rewrite Hp'|done].
Qed.

(** X2.  When start and goal are the same cell and the grid has at least
    one cell by its dimensions, the worker posts the one-cell path
    [[start]] after a single pop; it does not read the grid, which may
    even be missing. *)
Theorem astar_start_is_goal req s e :
  AStar.cmd req = "astar" →
  AStar.start req = Some s → AStar.end_ req = Some e →
  ptOf s = ptOf e → 1 ≤ AStar.cols req * AStar.rows req →
  AStar.onmessage req = Ok (Posted (Some [ptOf s]), 1%nat).
Proof.
  intros Hcmd Hs He Heq Hdim. unfold AStar.onmessage. rewrite Hcmd, Hs, He.
  replace (String.eqb "astar" "astar") with true by done.
  cbn [negb deref mbind Res_bind]. rewrite push_nil.
  destruct (Z.to_nat (AStar.cols req * AStar.rows req * 10)) as [|b] eqn:Hb; [lia|].
  rewrite searchLoop_S. cbn [AStar.pop last removelast AStar.node_x AStar.node_y].
  injection Heq as Hx Hy. rewrite Hx, Hy, !Z.eqb_refl. cbn [andb].
  unfold ptOf. simpl. by rewrite Hx, Hy.
Qed.

Lemma astar_start_is_goal_witness :
  AStar.onmessage
    (AStar.mkRequest "astar" None 7 7 (Some (AStar.mkPoint 3 3))
       (Some (AStar.mkPoint 3 3)))
  = Ok (Posted (Some [(3, 3)]), 1%nat).
Proof.
  apply (astar_start_is_goal _ (AStar.mkPoint 3 3) (AStar.mkPoint 3 3));
    reflexivity || (simpl; lia).
Defined.

(** *** The budget of the search loop *)

Section AStarBudget.
Variables (req : AStar.Request) (g : list (list Z)) (s : Z * Z)
          (endp : AStar.Point).
Hypothesis Hgrid : AStar.grid req = Some g.
Hypothesis Hsized : snapshotSized (AStar.cols req) (AStar.rows req) g.
Hypothesis Hstart : inside (AStar.cols req) (AStar.rows req) s.

Let cols := AStar.cols req.
Let rows := AStar.rows req.
Let cap := (1 + 4 * Z.to_nat (cols * rows))%nat.

(** With room for [cap] pops in all, the loop ends before its budget
    does: any other such budget gives the same result. *)
Lemma astar_searchLoop_budget : ∀ budget open pq E n,
  AInv g cols rows s endp open pq E E →
  (n + length pq ≤ 1 + 4 * size E)%nat →
  (cap ≤ n + budget)%nat →
  ∃ r n', AStar.searchLoop budget req endp open pq n = Ok (Posted r, n')
    ∧ (n' ≤ cap)%nat
    ∧ ∀ budget', (cap ≤ n + budget')%nat →
        AStar.searchLoop budget' req endp open pq n = Ok (Posted r, n').
Proof.
  assert (Hsize : ∀ open pq E, AInv g cols rows s endp open pq E E →
            (size E ≤ Z.to_nat (cols * rows))%nat).
  { intros open pq E HI.
    apply (size_inside cols rows E (inv_closed_inside _ _ _ _ _ _ _ _ _ HI)). }
  induction budget as [|budget IH]; intros open pq E n HI Hcount Hcap.
  - pose proof (Hsize _ _ _ HI).
    assert (pq = []) as -> by (destruct pq; [done|simpl in Hcount; lia]).
    exists None, n. split; [done|]. split; [simpl in Hcount; lia|].
    intros [|b'] _; [done|]. by rewrite searchLoop_S.
  - rewrite searchLoop_S.
    pose proof (pop_spec pq (inv_heap _ _ _ _ _ _ _ _ _ HI)) as Hpop.
    destruct (AStar.pop pq) as [[cur pq1]|] eqn:Hpopeq.
    2:{ subst pq. pose proof (Hsize _ _ _ HI).
        exists None, n. split; [done|]. split; [simpl in Hcount; lia|].
        intros [|b'] _; [done|]. by rewrite searchLoop_S. }
    destruct Hpop as (Hheap1 & Hperm & Hmin).
    assert (Hcur : cur ∈ pq) by (rewrite Hperm; by left).
    pose proof (inv_pq_valid _ _ _ _ _ _ _ _ _ HI cur Hcur) as Hval.
    assert (Hlen : length pq = S (length pq1)) by (by rewrite Hperm).
    pose proof (Hsize _ _ _ HI) as HsE.
    assert (Hother : ∀ budget', (cap ≤ n + budget')%nat → ∃ b', budget' = S b').
    { intros [|b'] Hb; [|by eauto]. lia. }
    destruct ((AStar.node_x cur =? AStar.x endp) && (AStar.node_y cur =? AStar.y endp))
      eqn:Hgoal.
    + exists (Some (rev (AStar.nodePath cur))), (S n).
      split; [done|]. split; [lia|].
      intros budget' Hb'. destruct (Hother _ Hb') as [b' ->].
      by rewrite searchLoop_S, Hpopeq, Hgoal.
    + assert (Hne : pt cur ≠ ptOf endp).
      { unfold pt, ptOf. intros [= Hx Hy]. rewrite Hx, Hy, !Z.eqb_refl in Hgoal. done. }
      destruct (astar_neighbors_spec req g (AStar.node_x cur) (AStar.node_y cur)
                  Hgrid Hsized) as (nbs & Hnbs & Hnlen & Hnb1 & Hnb2).
      { by destruct Hval as (_ & _ & _ & ?). }
      rewrite Hnbs. cbn [mbind Res_bind].
      assert (Hrest : ∀ open' pq' E',
        foldl (AStar.relax endp cur) (open, pq1) nbs = (open', pq') →
        AInv g cols rows s endp open' pq' E' E' →
        (S n + length pq' ≤ 1 + 4 * size E')%nat →
        ∃ r n', (let '(open0, pq0) := foldl (AStar.relax endp cur) (open, pq1) nbs in
                 AStar.searchLoop budget req endp open0 pq0 (S n)) = Ok (Posted r, n')
          ∧ (n' ≤ cap)%nat
          ∧ ∀ budget', (cap ≤ n + budget')%nat →
              AStar.searchLoop budget' req endp open pq n = Ok (Posted r, n')).
      { intros open' pq' E' Hfold HI' Hcount'.
        destruct (IH open' pq' E' (S n) HI' Hcount') as (r & n' & Hrun & Hn' & Hall);
          [lia|].
        exists r, n'. rewrite Hfold. split; [done|]. split; [done|].
        intros budget' Hb'. destruct (Hother _ Hb') as [b' ->].
        rewrite searchLoop_S, Hpopeq, Hgoal, Hnbs. cbn [mbind Res_bind].
        rewrite Hfold. apply Hall. lia. }
      destruct (decide (pt cur ∈ E)) as [HE|HnE].
      * apply (Hrest open pq1 E); [| |lia].
        -- apply relax_fold_stale. intros nb Hnb.
           destruct (inv_closed_edges _ _ _ _ _ _ _ _ _ HI (pt cur) (ptOf nb) HE
                       (Hnb1 nb Hnb)) as (nv & nw & Hnv & Hnw & Hle).
           destruct (inv_pq_open _ _ _ _ _ _ _ _ _ HI cur Hcur) as (n' & Hn' & Hle').
           exists nw. split; [done|]. assert (nv = n') by congruence. subst. lia.
        -- by apply (AInv_pop_stale req g s endp open pq pq1 E cur).
      * assert (Hopt := popped_optimal req g s endp open pq E cur HI Hcur Hmin HnE).
        pose proof (AInv_pop_fresh req g s endp Hgrid Hsized Hstart open pq pq1 E cur
                      HI Hperm Hheap1 Hopt Hne)
          as HI1.
        destruct (relax_fold g cols rows s endp cur Hval _ _ nbs open pq1 HI1 Hnb1)
          as (open' & pq' & Hfold & HI2 & Hlen2 & _ & Hdone).
        apply (Hrest open' pq' (E ∪ {[pt cur]})); [done| |].
        -- apply (AInv_close req g s endp Hgrid Hsized Hstart); [done|done|].
           intros w Hw. destruct (Hdone _ (Hnb2 w Hw)) as (n' & Hn' & Hle).
           exists n'. split; [|done]. by destruct w.
        -- rewrite size_union by set_solver. rewrite size_singleton. lia.
Qed.
End AStarBudget.

(** X3.  On a request with a sized grid and a start inside it the budget
    [MAX_STEPS] never ends a search: the worker pops at most
    [4 * cols * rows + 1] entries, and the search loop run with any budget
    of at least that many steps posts the same result after the same
    number of pops. *)
Theorem astar_budget_never_binds req g st en :
  AStar.cmd req = "astar" →
  AStar.grid req = Some g → AStar.start req = Some st → AStar.end_ req = Some en →
  snapshotSized (AStar.cols req) (AStar.rows req) g →
  inside (AStar.cols req) (AStar.rows req) (ptOf st) →
  ∃ r n, AStar.onmessage req = Ok (Posted r, n)
    ∧ Z.of_nat n ≤ 4 * AStar.cols req * AStar.rows req + 1
    ∧ ∀ budget, 4 * AStar.cols req * AStar.rows req + 1 ≤ Z.of_nat budget →
        astarLoopFrom budget req st en = Ok (Posted r, n).
Proof.
  intros Hcmd Hg Hst Hen Hsized Hin.
  assert (Hdim : 1 ≤ AStar.cols req * AStar.rows req).
  { destruct Hin as [Hx Hy]. simpl in Hx, Hy. nia. }
  destruct (astar_searchLoop_budget req g (ptOf st) en Hg Hsized Hin
              (Z.to_nat (AStar.cols req * AStar.rows req * 10))
              (<[ptOf st:=AStar.mkNode (AStar.x st) (AStar.y st) 0 (AStar.h st en) None]> ∅)
              [AStar.mkNode (AStar.x st) (AStar.y st) 0 (AStar.h st en) None] ∅ 0%nat)
    as (r & n & Hrun & Hn & Hall).
  { by apply AInv_init. }
  { simpl. lia. }
  { lia. }
  exists r, n. split_and!.
  - unfold AStar.onmessage. rewrite Hcmd, Hst, Hen.
    replace (String.eqb "astar" "astar") with true by done.
    cbn [negb deref mbind Res_bind]. rewrite push_nil. exact Hrun.
  - lia.
  - intros budget Hb. unfold astarLoopFrom. rewrite push_nil. apply Hall. lia.
Qed.

Lemma astar_budget_never_binds_witness :
  ∃ r n, AStar.onmessage astarReq7 = Ok (Posted r, n)
    ∧ Z.of_nat n ≤ 4 * 7 * 7 + 1
    ∧ ∀ budget, 4 * 7 * 7 + 1 ≤ Z.of_nat budget →
        astarLoopFrom budget astarReq7 (AStar.mkPoint 1 1) (AStar.mkPoint 5 5)
        = Ok (Posted r, n).
Proof.
  apply (astar_budget_never_binds astarReq7 snap7 (AStar.mkPoint 1 1)
           (AStar.mkPoint 5 5)).
  - reflexivity.
  - reflexivity.
  - reflexivity.
  - reflexivity.
  - apply snap7_sized.
  - unfold inside. simpl. lia.
Defined.

(** ** More on bfs-worker.js *)

(** X4.  What the BFS worker does with a message it cannot serve: a
    message with another [cmd] gets no reply, and one without [grid] or
    without [start] gets a [null] path at once, before any dequeue. *)
Theorem bfs_malformed_request fuel req :
  (Bfs.cmd req ≠ "bfs-deadend" → Bfs.onmessage fuel req = Ok (NoReply, 0%nat))
  ∧ (Bfs.cmd req = "bfs-deadend" →
     Bfs.grid req = None ∨ Bfs.start req = None →
     Bfs.onmessage fuel req = Ok (Posted None, 0%nat)).
Proof.
  unfold Bfs.onmessage. split.
  - intros Hcmd. apply String.eqb_neq in Hcmd. by rewrite Hcmd.
  - intros Hcmd Hmiss. rewrite Hcmd. simpl.
    destruct Hmiss as [-> | ->]; [done|]. by destruct (Bfs.grid req).
Qed.

Lemma bfs_malformed_request_witness :
  Bfs.onmessage 49
    (Bfs.mkRequest "bfs-deadend" (Some snap7) 7 7 None (Some [(5, 5)]))
  = Ok (Posted None, 0%nat).
Proof.
  apply (proj2 (bfs_malformed_request 49
                  (Bfs.mkRequest "bfs-deadend" (Some snap7) 7 7 None (Some [(5, 5)])))).
  - reflexivity.
  - right. reflexivity.
Defined.

(** * Proofs: The hint handlers *)

(** ** The hint handlers of maze.js *)

Lemma forEach_collect {A B C} (get : A → Res B) (f : B → C) (l : list A) :
  ∀ (vals : list B) (acc : list C),
  Forall2 (λ x v, get x = Ok v) l vals →
  forEach (λ acc x, c ← get x; Ok (acc ++ [f c])) l acc = Ok (acc ++ (f <$> vals)).
Proof.
  induction l as [|x l IH]; intros vals acc H; inversion H as [|? v ? vs Hx Hl]; subst.
  - simpl. by rewrite app_nil_r.
  - simpl. rewrite Hx. simpl. rewrite (IH vs) by done.
    by rewrite <- app_assoc.
Qed.

Lemma row_cells st m y row :
  maze st = Some m → gridSized (cols st) (rows st) m → 0 ≤ y →
  m !! Z.to_nat y = Some row →
  Forall2 (λ x v, cellAt st x y = Ok v) (seqZ 0 (cols st)) row.
Proof.
  intros Hm [Hlen Hrows] Hy Hrow.
  assert (Hl : length row = Z.to_nat (cols st)).
  { rewrite Forall_lookup in Hrows. eauto. }
  apply Forall2_same_length_lookup_2.
  - by rewrite length_seqZ.
  - intros i x v Hx Hv. apply lookup_seqZ in Hx as [-> Hi].
    unfold cellAt. rewrite Hm. simpl.
    replace (getCell m (0 + Z.of_nat i) y) with (Some v); [done|].
    symmetry. apply getCell_Some. split; [lia|]. split; [done|].
    exists row. split; [done|]. by rewrite Z.add_0_l, Nat2Z.id.
Qed.

Lemma hintRow_spec st m y row :
  maze st = Some m → gridSized (cols st) (rows st) m → 0 ≤ cols st → 0 ≤ y →
  m !! Z.to_nat y = Some row →
  hintRow st y = Ok (walkNumber <$> row).
Proof.
  intros Hm Hs Hc Hy Hrow. unfold hintRow.
  replace (cols st <? 0) with false by lia.
  by rewrite (forEach_collect (λ x, cellAt st x y) walkNumber _ row [])
    by by eapply row_cells.
Qed.

Lemma hintGrid_rows st m :
  maze st = Some m → gridSized (cols st) (rows st) m → 0 ≤ cols st →
  forEach (λ out y, row ← hintRow st y; Ok (out ++ [row])) (seqZ 0 (rows st)) []
  = Ok (hintGrid m).
Proof.
  intros Hm Hs Hc.
  rewrite (forEach_collect (hintRow st) id _ (hintGrid m) []).
  - by rewrite list_fmap_id.
  - destruct Hs as [Hlen Hrows]. apply Forall2_same_length_lookup_2.
    + unfold hintGrid. by rewrite length_seqZ, length_fmap.
    + intros i y v Hy Hv. apply lookup_seqZ in Hy as [-> Hi].
      unfold hintGrid in Hv. rewrite list_lookup_fmap in Hv.
      destruct (m !! i) as [row|] eqn:Hrow; [|done]. simpl in Hv. injection Hv as <-.
      apply (hintRow_spec st m); [done|by split|done|lia|].
      by rewrite Z.add_0_l, Nat2Z.id.
Qed.

Lemma hintGrid_sized c r m : gridSized c r m → snapshotSized c r (hintGrid m).
Proof.
  intros [Hlen Hrows]. split; [by unfold hintGrid; rewrite length_fmap|].
  unfold hintGrid. apply Forall_fmap. eapply Forall_impl; [exact Hrows|].
  intros row Hr. simpl. by rewrite length_fmap.
Qed.

(** A cell of the walkability grid is 1 exactly where the agent can go. *)
Lemma hintGrid_open st m c :
  gridSized (cols st) (rows st) m →
  inside (cols st) (rows st) c ∧ openCell (hintGrid m) c
  ↔ walkableB st m c.1 c.2 = true.
Proof.
  intros Hs. destruct c as [x y]. unfold inside, openCell, walkableB. simpl.
  split.
  - intros [[Hx Hy] (row & Hr & Hv)].
    assert (Hb : inBounds st x y = true) by (apply inBounds_spec; lia).
    rewrite Hb. simpl.
    destruct (gridSized_getCell st m x y Hs Hb) as [cell Hcell]. rewrite Hcell.
    apply getCell_Some in Hcell as (_ & _ & row0 & Hr0 & Hc0).
    apply arr_get_Some in Hr as [_ Hr]. unfold hintGrid in Hr.
    rewrite list_lookup_fmap, Hr0 in Hr. simpl in Hr. injection Hr as <-.
    apply arr_get_Some in Hv as [_ Hv].
    rewrite list_lookup_fmap, Hc0 in Hv. simpl in Hv. injection Hv as Hv.
    unfold walkNumber in Hv. by destruct (isPath cell && negb (filled cell)).
  - intros Hw. apply andb_prop in Hw as [Hb Hw].
    split; [by apply inBounds_spec|].
    destruct (getCell m x y) as [cell|] eqn:Hcell; [|done].
    apply getCell_Some in Hcell as (Hx & Hy & row0 & Hr0 & Hc0).
    exists (walkNumber <$> row0). split.
    + apply arr_get_Some. split; [done|]. unfold hintGrid.
      by rewrite list_lookup_fmap, Hr0.
    + apply arr_get_Some. split; [done|]. rewrite list_lookup_fmap, Hc0. simpl.
      unfold walkNumber. by rewrite Hw.
Qed.

Lemma route_walk st m p :
  gridSized (cols st) (rows st) m →
  isWalk (hintGrid m) (cols st) (rows st) p ↔ isRoute st m p.
Proof.
  intros Hs. induction p as [|a [|b p] IH]; [done|done|].
  cbn [isWalk isRoute]. rewrite IH. unfold gridStep, routeStep.
  rewrite <- (hintGrid_open st m b Hs). tauto.
Qed.

Lemma routeFromTo_walk st m s t p :
  gridSized (cols st) (rows st) m →
  walkFromTo (hintGrid m) (cols st) (rows st) s t p ↔ routeFromTo st m s t p.
Proof.
  intros Hs. unfold walkFromTo, routeFromTo. by rewrite (route_walk st m p Hs).
Qed.

Lemma astarHintClick_spec st m p s e :
  gameState st m p s e →
  astarHintClick st =
  Ok (AStar.mkRequest "astar" (Some (hintGrid m)) (cols st) (rows st)
        (Some (AStar.mkPoint (gridX p) (gridY p)))
        (Some (AStar.mkPoint (px e) (py e)))).
Proof.
  intros [Hm Hs Hp Hin Hst Hen]. unfold astarHintClick.
  apply inBounds_spec in Hin.
  rewrite (hintGrid_rows st m) by (done || lia). simpl.
  by rewrite Hp, Hen.
Qed.

(** X5.  The hint button: in a state with a sized maze, the agent inside
    it and an End, the click handler builds a request that the A* worker
    answers without raising; a path it posts is a shortest route of the
    agent from its cell to End over walkable cells (path, not filled), and
    it posts [null] exactly when no such route exists. *)
Theorem astar_hint_shortest_route st m p s e :
  gameState st m p s e →
  ∃ req r n, astarHintClick st = Ok req
    ∧ AStar.onmessage req = Ok (Posted r, n)
    ∧ match r with
      | Some pth =>
          routeFromTo st m (gridX p, gridY p) (px e, py e) pth
          ∧ ∀ p', routeFromTo st m (gridX p, gridY p) (px e, py e) p' →
                  (length pth ≤ length p')%nat
      | None => ∀ p', ¬ routeFromTo st m (gridX p, gridY p) (px e, py e) p'
      end.
Proof.
  intros Hgs. pose proof Hgs as [Hm Hs Hp Hin Hst Hen].
  eexists. rewrite (astarHintClick_spec st m p s e Hgs).
  set (req := AStar.mkRequest _ _ _ _ _ _).
  destruct (astar_onmessage_spec req (hintGrid m)
              (AStar.mkPoint (gridX p) (gridY p)) (AStar.mkPoint (px e) (py e)))
    as (r & n & Hrun & _ & Hr); try done.
  { by apply hintGrid_sized. }
  { by apply inBounds_spec in Hin. }
  exists r, n. split; [done|]. split; [done|].
  change (ptOf (AStar.mkPoint (gridX p) (gridY p))) with (gridX p, gridY p) in Hr.
  change (ptOf (AStar.mkPoint (px e) (py e))) with (px e, py e) in Hr.
  change (AStar.cols req) with (cols st) in Hr.
  change (AStar.rows req) with (rows st) in Hr.
  destruct r as [pth|].
  - destruct Hr as [Hw Hopt]. split; [by apply routeFromTo_walk|].
    intros p' Hp'. apply Hopt. apply walk_reachIn. by apply routeFromTo_walk.
  - intros p' Hp'. apply (Hr (length p')). apply walk_reachIn.
    by apply routeFromTo_walk.
Qed.

Lemma astar_hint_shortest_route_witness :
  ∃ req r n, astarHintClick tState = Ok req
    ∧ AStar.onmessage req = Ok (Posted r, n)
    ∧ match r with
      | Some pth =>
          routeFromTo tState tGrid (2, 2) (3, 1) pth
          ∧ ∀ p', routeFromTo tState tGrid (2, 2) (3, 1) p' →
                  (length pth ≤ length p')%nat
      | None => ∀ p', ¬ routeFromTo tState tGrid (2, 2) (3, 1) p'
      end.
Proof.
  apply (astar_hint_shortest_route tState tGrid (mkPlayer 2 2) (mkPoint 1 1)
           (mkPoint 3 1)).
  apply tState_game.
Defined.

(** *** The dead-end hint *)

Lemma flaggedTarget_cell st m p x y cell :
  inBounds st x y = true → getCell m x y = Some cell →
  flaggedTarget st m p (x, y) ↔
  isPath cell && negb (filled cell) && deadEnd cell
  && negb ((x =? gridX p) && (y =? gridY p)) = true.
Proof.
  intros Hb Hc. unfold flaggedTarget, walkableB. simpl. rewrite Hb, Hc. simpl.
  split.
  - intros (Hw & (c' & [= <-] & Hd) & Hne). rewrite Hw, Hd. simpl.
    apply negb_true_iff, andb_false_iff. rewrite !Z.eqb_neq.
    destruct (decide (x = gridX p)) as [->|?]; [|by left].
    right. intros ->. done.
  - intros H. apply andb_prop in H as [H Hne]. apply andb_prop in H as [Hw Hd].
    split_and!; [done|by eauto|].
    intros [= -> ->]. by rewrite !Z.eqb_refl in Hne.
Qed.

Lemma deadHintRow_spec st m p y row : ∀ (xs : list Z) (acc : list Z) (de : list (Z * Z)),
  maze st = Some m → gridSized (cols st) (rows st) m → player st = Some p →
  0 ≤ y < rows st → m !! Z.to_nat y = Some row →
  (∀ x, x ∈ xs → 0 ≤ x < cols st) →
  ∃ de', forEach (deadHintCell st y) xs (acc, de)
         = Ok (acc ++ ((λ x, walkNumber (default (mkCell wall false false)
                                           (row !! Z.to_nat x))) <$> xs), de')
    ∧ ∀ c, c ∈ de' ↔ c ∈ de ∨ (c.2 = y ∧ c.1 ∈ xs ∧ flaggedTarget st m p c).
Proof.
  intros xs. induction xs as [|x xs IH]; intros acc de Hm Hs Hp Hy Hrow Hxs.
  - exists de. simpl. rewrite app_nil_r. split; [done|]. set_solver.
  - assert (Hb : inBounds st x y = true).
    { apply inBounds_spec. split; [|done]. apply Hxs. by left. }
    destruct (cellAt_Ok st m x y Hm Hs Hb) as (cell & Hcell & Hat).
    assert (Hrx : row !! Z.to_nat x = Some cell).
    { apply getCell_Some in Hcell as (_ & _ & row' & Hr' & Hc'). congruence. }
    pose proof (flaggedTarget_cell st m p x y cell Hb Hcell) as Hft.
    cbn [forEach]. unfold deadHintCell at 2. rewrite Hat. cbn [mbind Res_bind].
    rewrite Hp. cbn [deref mbind Res_bind].
    set (isT := isPath cell && negb (filled cell) && deadEnd cell
                && negb ((x =? gridX p) && (y =? gridY p))) in *.
    set (de1 := if isT then de ++ [(x, y)] else de).
    assert (Hstep :
      (if isPath cell && negb (filled cell) && deadEnd cell
       then if negb ((x =? gridX p) && (y =? gridY p))
            then Ok (acc ++ [if isPath cell && negb (filled cell) then 1 else 0],
                     de ++ [(x, y)])
            else Ok (acc ++ [if isPath cell && negb (filled cell) then 1 else 0], de)
       else Ok (acc ++ [if isPath cell && negb (filled cell) then 1 else 0], de))
      = Ok (acc ++ [walkNumber cell], de1)).
    { subst de1 isT. unfold walkNumber.
      destruct (isPath cell && negb (filled cell) && deadEnd cell); [|done].
      by destruct (negb ((x =? gridX p) && (y =? gridY p))). }
    rewrite Hstep. cbn [mbind Res_bind].
    destruct (IH (acc ++ [walkNumber cell]) de1 Hm Hs Hp Hy Hrow) as (de' & Hrun & Hde).
    { intros x' Hx'. apply Hxs. by right. }
    exists de'. split.
    + rewrite Hrun. rewrite fmap_cons, Hrx. simpl. by rewrite <- app_assoc.
    + intros c. rewrite Hde. subst de1. rewrite elem_of_cons.
      destruct isT eqn:HisT.
      * rewrite elem_of_app, list_elem_of_singleton. split.
        -- intros [[?| ->]|(? & ? & ?)]; [by left| |by auto].
           right. split_and!; [done|by left|]. by apply Hft.
        -- intros [?|(Hc2 & [Hc1|Hc1] & Hf)]; [by auto| |by auto].
           left. right. destruct c. simpl in *. by subst.
      * split.
        -- intros [?|(? & ? & ?)]; auto.
        -- intros [?|(Hc2 & [Hc1|Hc1] & Hf)]; [by auto| |by auto].
           destruct c as [cx cy]. simpl in *. subst. apply Hft in Hf. congruence.
Qed.

Lemma deadHintRows_spec st m p : ∀ (ys : list Z) (grid : list (list Z)) (de : list (Z * Z)),
  maze st = Some m → gridSized (cols st) (rows st) m → player st = Some p →
  0 ≤ cols st → (∀ y, y ∈ ys → 0 ≤ y < rows st) →
  ∃ de',
    forEach (λ '(grid, deadEnds) y,
      if cols st <? 0 then Throw
      else
        '(row, deadEnds) ←
          forEach (deadHintCell st y) (seqZ 0 (cols st)) ([], deadEnds);
        Ok (grid ++ [row], deadEnds)) ys (grid, de)
    = Ok (grid ++ ((λ y, walkNumber <$> default [] (m !! Z.to_nat y)) <$> ys), de')
    ∧ ∀ c, c ∈ de' ↔ c ∈ de ∨ (c.2 ∈ ys ∧ flaggedTarget st m p c).
Proof.
  intros ys. induction ys as [|y ys IH]; intros grid de Hm Hs Hp Hc Hys.
  - exists de. simpl. rewrite app_nil_r. split; [done|]. set_solver.
  - assert (Hy : 0 ≤ y < rows st) by (apply Hys; by left).
    assert (is_Some (m !! Z.to_nat y)) as [row Hrow].
    { apply lookup_lt_is_Some. destruct Hs as [Hlen _]. lia. }
    assert (Hl : length row = Z.to_nat (cols st)).
    { destruct Hs as [_ Hrows]. rewrite Forall_lookup in Hrows. eauto. }
    destruct (deadHintRow_spec st m p y row (seqZ 0 (cols st)) [] de Hm Hs Hp Hy Hrow)
      as (de1 & Hrun1 & Hde1).
    { intros x Hx. apply elem_of_seqZ in Hx. lia. }
    cbn [forEach]. replace (cols st <? 0) with false by lia.
    rewrite Hrun1. cbn [mbind Res_bind].
    assert (Hrowvals : (λ x, walkNumber (default (mkCell wall false false)
                                           (row !! Z.to_nat x))) <$> seqZ 0 (cols st)
                       = walkNumber <$> row).
    { apply list_eq. intros i. rewrite !list_lookup_fmap.
      destruct (decide (i < length row)%nat) as [Hi|Hi].
      - rewrite (lookup_seqZ_lt 0 (cols st) i) by lia. simpl.
        rewrite Z.add_0_l, Nat2Z.id.
        destruct (lookup_lt_is_Some_2 row i Hi) as [c ->]. done.
      - rewrite (lookup_seqZ_ge 0 (cols st) i) by lia.
        by rewrite (lookup_ge_None_2 row i) by lia. }
    rewrite app_nil_l, Hrowvals.
    destruct (IH (grid ++ [walkNumber <$> row]) de1 Hm Hs Hp Hc) as (de' & Hrun & Hde).
    { intros y' Hy'. apply Hys. by right. }
    exists de'. split.
    + replace (cols st <? 0) with false in Hrun by lia.
      rewrite Hrun. rewrite fmap_cons, Hrow. simpl. by rewrite <- app_assoc.
    + intros c. rewrite Hde, Hde1, elem_of_cons.
      assert (Hin : flaggedTarget st m p c → c.1 ∈ seqZ 0 (cols st)).
      { intros (Hw & _). apply andb_prop in Hw as [Hb _].
        apply inBounds_spec in Hb. apply elem_of_seqZ. lia. }
      naive_solver.
Qed.

Lemma hintGrid_seq m rows :
  length m = Z.to_nat rows →
  (λ y, walkNumber <$> default [] (m !! Z.to_nat y)) <$> seqZ 0 rows = hintGrid m.
Proof.
  intros Hlen. apply list_eq. intros i. unfold hintGrid. rewrite !list_lookup_fmap.
  destruct (decide (i < length m)%nat) as [Hi|Hi].
  - rewrite (lookup_seqZ_lt 0 rows i) by lia. simpl. rewrite Z.add_0_l, Nat2Z.id.
    destruct (lookup_lt_is_Some_2 m i Hi) as [row ->]. done.
  - rewrite (lookup_seqZ_ge 0 rows i) by lia.
    by rewrite (lookup_ge_None_2 m i) by lia.
Qed.

(** The message of the click handler, from the list of its targets. *)
Lemma deadHintClick_spec st m p s e :
  gameState st m p s e →
  ∃ l, (∀ c, c ∈ l ↔ flaggedTarget st m p c)
    ∧ deadHintClick st =
      Ok (match l with
          | [] => None
          | _ :: _ =>
              Some (Bfs.mkRequest "bfs-deadend" (Some (hintGrid m)) (cols st)
                      (rows st) (Some (Bfs.mkPoint (gridX p) (gridY p))) (Some l))
          end).
Proof.
  intros [Hm Hs Hp Hin Hst Hen]. apply inBounds_spec in Hin.
  unfold deadHintClick.
  destruct (deadHintRows_spec st m p (seqZ 0 (rows st)) [] [] Hm Hs Hp)
    as (de & Hrun & Hde); [lia| |].
  { intros y Hy. apply elem_of_seqZ in Hy. lia. }
  rewrite Hrun. cbn [mbind Res_bind]. rewrite app_nil_l.
  rewrite hintGrid_seq by (by destruct Hs).
  exists de. split.
  - intros c. rewrite Hde. split.
    + intros [H|[_ H]]; [by apply elem_of_nil in H|done].
    + intros H. right. split; [|done]. destruct H as (Hw & _).
      apply andb_prop in Hw as [Hb _]. apply inBounds_spec in Hb.
      apply elem_of_seqZ. lia.
  - destruct de as [|d de]; simpl; [done|]. by rewrite Hp.
Qed.

(** X6.  The dead-end hint button: the click handler posts nothing when no
    walkable cell other than the agent's carries a dead-end flag; otherwise
    it posts the walkability grid of the maze, the cell of the agent as
    start, and as targets exactly the walkable flagged cells other than the
    agent's. *)
Theorem deadHintClick_request st m p s e :
  gameState st m p s e →
  match deadHintClick st with
  | Ok None => ∀ c, ¬ flaggedTarget st m p c
  | Ok (Some req) =>
      ∃ l, req = Bfs.mkRequest "bfs-deadend" (Some (hintGrid m)) (cols st) (rows st)
                   (Some (Bfs.mkPoint (gridX p) (gridY p))) (Some l)
        ∧ l ≠ [] ∧ ∀ c, c ∈ l ↔ flaggedTarget st m p c
  | _ => False
  end.
Proof.
  intros Hgs. destruct (deadHintClick_spec st m p s e Hgs) as (l & Hl & ->).
  destruct l as [|d l].
  - intros c Hc. apply Hl in Hc. by apply elem_of_nil in Hc.
  - exists (d :: l). by split_and!.
Qed.

Lemma deadHintClick_request_witness :
  match deadHintClick tState with
  | Ok None => ∀ c, ¬ flaggedTarget tState tGrid (mkPlayer 2 2) c
  | Ok (Some req) =>
      ∃ l, req = Bfs.mkRequest "bfs-deadend" (Some (hintGrid tGrid)) (cols tState)
                   (rows tState) (Some (Bfs.mkPoint 2 2)) (Some l)
        ∧ l ≠ [] ∧ ∀ c, c ∈ l ↔ flaggedTarget tState tGrid (mkPlayer 2 2) c
  | _ => False
  end.
Proof.
  apply (deadHintClick_request tState tGrid (mkPlayer 2 2) (mkPoint 1 1) (mkPoint 3 1)).
  apply tState_game.
Defined.

(** X7.  The dead-end hint from click to drawing: the BFS worker answers
    the posted request without raising; a path it posts is a route of the
    agent from its cell to a walkable flagged cell, no longer than any
    route to any such cell, and it has at least two cells, so that the
    reply handler keeps it as the hint; [null] is posted only when no such
    cell can be reached. *)
Theorem deadHint_nearest_route fuel hint st m p s e req :
  gameState st m p s e →
  (Z.to_nat (cols st * rows st) ≤ fuel)%nat →
  deadHintClick st = Ok (Some req) →
  ∃ r n, Bfs.onmessage fuel req = Ok (Posted r, n)
    ∧ deadHintReply hint (Posted r) = r
    ∧ match r with
      | Some pth =>
          (2 ≤ length pth)%nat
          ∧ ∃ t, flaggedTarget st m p t
              ∧ routeFromTo st m (gridX p, gridY p) t pth
              ∧ ∀ t' p', flaggedTarget st m p t' →
                  routeFromTo st m (gridX p, gridY p) t' p' →
                  (length pth ≤ length p')%nat
      | None => ∀ t' p', flaggedTarget st m p t' →
                  ¬ routeFromTo st m (gridX p, gridY p) t' p'
      end.
Proof.
  intros Hgs Hfuel Hclick. pose proof Hgs as [Hm Hs Hp Hin Hst Hen].
  destruct (deadHintClick_spec st m p s e Hgs) as (l & Hl & Hreq).
  rewrite Hclick in Hreq. destruct l as [|d l]; [done|].
  injection Hreq as ->.
  destruct (bfs_onmessage_spec fuel
              (Bfs.mkRequest "bfs-deadend" (Some (hintGrid m)) (cols st) (rows st)
                 (Some (Bfs.mkPoint (gridX p) (gridY p))) (Some (d :: l)))
              (hintGrid m) (Bfs.mkPoint (gridX p) (gridY p)))
    as (r & n & Hrun & _ & Hr); try done.
  { by apply hintGrid_sized. }
  { by apply inBounds_spec in Hin. }
  exists r, n. split; [done|]. simpl in Hr.
  destruct r as [pth|].
  - destruct Hr as (t & Ht & Hw & Hopt). apply Hl in Ht.
    assert (Hlen : (2 ≤ length pth)%nat).
    { destruct Hw as (Hh & Hlast & _). destruct Ht as (_ & _ & Hne).
      destruct pth as [|a [|b pth]]; simpl in *; [done| |lia].
      congruence. }
    split.
    { simpl. by rewrite (proj2 (Nat.ltb_ge (length pth) 2) Hlen). }
    split; [done|]. exists t. split_and!; [done|by apply routeFromTo_walk|].
    intros t' p' Ht' Hp'. apply (Hopt t'); [by apply Hl|].
    apply walk_reachIn. by apply routeFromTo_walk.
  - split; [done|]. intros t' p' Ht' Hp'. apply (Hr t' (length p')); [by apply Hl|].
    apply walk_reachIn. by apply routeFromTo_walk.
Qed.

Lemma deadHint_nearest_route_witness :
  ∃ r n,
    Bfs.onmessage 25
      (Bfs.mkRequest "bfs-deadend" (Some (hintGrid tGrid)) 5 5
         (Some (Bfs.mkPoint 2 2)) (Some [(2, 3)]))
    = Ok (Posted r, n)
    ∧ deadHintReply None (Posted r) = r
    ∧ match r with
      | Some pth =>
          (2 ≤ length pth)%nat
          ∧ ∃ t, flaggedTarget tState tGrid (mkPlayer 2 2) t
              ∧ routeFromTo tState tGrid (2, 2) t pth
              ∧ ∀ t' p', flaggedTarget tState tGrid (mkPlayer 2 2) t' →
                  routeFromTo tState tGrid (2, 2) t' p' →
                  (length pth ≤ length p')%nat
      | None => ∀ t' p', flaggedTarget tState tGrid (mkPlayer 2 2) t' →
                  ¬ routeFromTo tState tGrid (2, 2) t' p'
      end.
Proof.
  apply (deadHint_nearest_route 25 None tState tGrid (mkPlayer 2 2) (mkPoint 1 1)
           (mkPoint 3 1)).
  - apply tState_game.
  - simpl. lia.
  - vm_compute. reflexivity.
Defined.

(** * Proofs: Reset, completion, the keyboard and the shape of generated mazes *)

(** ** resetCurrentMaze *)

Lemma getCell_fmap (f : MazeCell → MazeCell) (m : Grid) x y :
  getCell ((λ row : list MazeCell, f <$> row) <$> m) x y = f <$> getCell m x y.
Proof.
  unfold getCell, arr_get. destruct (decide (0 ≤ y)); [|done].
  rewrite list_lookup_fmap. destruct (m !! Z.to_nat y) as [row|]; [|done]. simpl.
  destruct (decide (0 ≤ x)); [|done]. by rewrite list_lookup_fmap.
Qed.

Lemma gridSized_fmap (f : MazeCell → MazeCell) c r (m : Grid) :
  gridSized c r m → gridSized c r ((λ row : list MazeCell, f <$> row) <$> m).
Proof.
  intros [Hlen Hrows]. split; [by rewrite length_fmap|].
  apply Forall_fmap. eapply Forall_impl; [exact Hrows|].
  intros row Hr. simpl. by rewrite length_fmap.
Qed.

Lemma resetCurrentMaze_run st m s :
  maze st = Some m → gridSized (cols st) (rows st) m → start st = Some s →
  let m0 : Grid := (λ row : list MazeCell, clearCell <$> row) <$> m in
  ∃ st1 m1,
    recomputeAllDeadEnds (set_maze (Some m0) st) = Ok st1
    ∧ resetCurrentMaze st =
      Ok (set_score 0 (set_undoStack [] (set_visitedCount 1
            (set_player (Some (mkPlayer (px s) (py s))) st1))))
    ∧ sameFrame (set_maze (Some m0) st) st1
    ∧ maze st1 = Some m1 ∧ gridSized (cols st) (rows st) m1
    ∧ sameShape m0 m1 ∧ deadEndsCorrect st1.
Proof.
  intros Hm Hs Hst m0.
  assert (Hs0 : gridSized (cols st) (rows st) m0) by by apply gridSized_fmap.
  destruct (recomputeAll_unfilled_cells (set_maze (Some m0) st) m0)
    as (st1 & m1 & Hrec & Hfr & Hm1 & Hs1 & Hsh & Hfl); [done|done| |].
  { intros x y c Hc. subst m0. rewrite getCell_fmap in Hc.
    destruct (getCell m x y); [|done]. simpl in Hc. by injection Hc as <-. }
  exists st1, m1. split; [done|].
  pose proof Hfr as (Hc1 & Hr1 & _ & Hst1 & _).
  split.
  - unfold resetCurrentMaze. rewrite Hm. cbv zeta. fold m0. rewrite Hrec.
    cbn [mbind Res_bind]. rewrite <- Hst1. simpl. by rewrite Hst.
  - split_and!; try done. simpl in Hc1, Hr1. by rewrite Hc1, Hr1.
Qed.

(** X8.  Reset on a state with a sized maze and a Start returns normally;
    afterwards every cell has the type it had, no cell is filled, every
    dead-end flag agrees with the definition, the agent stands on Start,
    the score is 0, the visit count 1 and the undo stack empty; the size,
    Start, End and the highscore are as before. *)
Theorem resetCurrentMaze_spec st m s :
  maze st = Some m → gridSized (cols st) (rows st) m → start st = Some s →
  ∃ st' m', resetCurrentMaze st = Ok st'
    ∧ maze st' = Some m' ∧ gridSized (cols st') (rows st') m'
    ∧ (∀ x y, type <$> getCell m' x y = type <$> getCell m x y)
    ∧ Forall (Forall (λ c, filled c = false)) m'
    ∧ deadEndsCorrect st'
    ∧ player st' = Some (mkPlayer (px s) (py s))
    ∧ score st' = 0 ∧ visitedCount st' = 1 ∧ undoStack st' = []
    ∧ cols st' = cols st ∧ rows st' = rows st
    ∧ start st' = start st ∧ end_ st' = end_ st ∧ highscore st' = highscore st.
Proof.
  intros Hm Hs Hst.
  destruct (resetCurrentMaze_run st m s Hm Hs Hst)
    as (st1 & m1 & _ & Hrun & Hfr & Hm1 & Hs1 & Hsh & Hfl).
  destruct Hfr as (Hc1 & Hr1 & _ & Hst1 & Hen1 & _ & _ & _ & Hhs1).
  simpl in Hc1, Hr1, Hst1, Hen1, Hhs1.
  eexists _, m1. split; [exact Hrun|]. simpl.
  split_and!; try done.
  - by rewrite <- Hc1, <- Hr1.
  - intros x y. specialize (Hsh x y). rewrite getCell_fmap in Hsh.
    destruct (getCell m x y) as [c|], (getCell m1 x y) as [c1|]; simpl in *; try done.
    by injection Hsh as <- _.
  - apply Forall_lookup. intros j row Hrow. apply Forall_lookup. intros i c Hc.
    specialize (Hsh (Z.of_nat i) (Z.of_nat j)). rewrite getCell_fmap in Hsh.
    assert (Hg : getCell m1 (Z.of_nat i) (Z.of_nat j) = Some c).
    { apply getCell_Some. split; [lia|]. split; [lia|]. exists row.
      by rewrite !Nat2Z.id. }
    rewrite Hg in Hsh. destruct (getCell m (Z.of_nat i) (Z.of_nat j)); [|done].
    simpl in Hsh. by injection Hsh as _ <-.
Qed.

Lemma resetCurrentMaze_spec_witness :
  ∃ st' m', resetCurrentMaze tStateFilled = Ok st'
    ∧ maze st' = Some m' ∧ gridSized (cols st') (rows st') m'
    ∧ (∀ x y, type <$> getCell m' x y = type <$> getCell tGridFilled x y)
    ∧ Forall (Forall (λ c, filled c = false)) m'
    ∧ deadEndsCorrect st'
    ∧ player st' = Some (mkPlayer 1 1)
    ∧ score st' = 0 ∧ visitedCount st' = 1 ∧ undoStack st' = []
    ∧ cols st' = cols tStateFilled ∧ rows st' = rows tStateFilled
    ∧ start st' = start tStateFilled ∧ end_ st' = end_ tStateFilled
    ∧ highscore st' = highscore tStateFilled.
Proof.
  apply (resetCurrentMaze_spec tStateFilled tGridFilled (mkPoint 1 1)).
  - reflexivity.
  - apply tGridFilled_sized.
  - reflexivity.
Defined.

(** *** What reset depends on *)

Lemma clear_sameTypes (m m' : Grid) :
  sameTypes m m' →
  (λ row : list MazeCell, clearCell <$> row) <$> m
  = (λ row : list MazeCell, clearCell <$> row) <$> m'.
Proof.
  induction 1 as [|row row' m m' Hrow _ IH]; [done|].
  rewrite !fmap_cons, IH. f_equal.
  induction Hrow as [|c c' row row' Hc _ IHr]; [done|].
  rewrite !fmap_cons, IHr. unfold clearCell. by rewrite Hc.
Qed.

Lemma updAt_rebase b f a x y :
  updAt f (rebase b a) x y = (updAt f a x y ≫= λ a', Ok (rebase b a')).
Proof.
  unfold updAt. cbn [maze rebase]. destruct (maze a) as [g|]; [|done].
  cbn [deref mbind Res_bind]. by destruct (updCell f g x y).
Qed.

Lemma recomputeAllCell_rebase b y a x :
  recomputeAllCell y (rebase b a) x
  = (recomputeAllCell y a x ≫= λ a', Ok (rebase b a')).
Proof.
  unfold recomputeAllCell.
  change (cellAt (rebase b a) x y) with (cellAt a x y).
  destruct (cellAt a x y) as [cell| |]; [|done|done]. cbn [mbind Res_bind].
  rewrite updAt_rebase.
  destruct (updAt (withDeadEnd false) a x y) as [a'| |]; [|done|done].
  cbn [mbind Res_bind]. destruct (type cell); [done|]. cbv zeta.
  change (set_originalPathCount (originalPathCount (rebase b a') + 1) (rebase b a'))
    with (rebase b (set_originalPathCount (originalPathCount a' + 1) a')).
  set (a1 := set_originalPathCount _ a').
  change (countPathNeighbors (rebase b a1) x y) with (countPathNeighbors a1 x y).
  destruct (countPathNeighbors a1 x y) as [cnt| |]; [|done|done].
  cbn [mbind Res_bind].
  change (start (rebase b a1)) with (start a1).
  change (end_ (rebase b a1)) with (end_ a1).
  apply updAt_rebase.
Qed.

Lemma forEach_rebase {A} b (f : State → A → Res State) (l : list A) :
  (∀ a x, f (rebase b a) x = (f a x ≫= λ a', Ok (rebase b a'))) →
  ∀ a, forEach f l (rebase b a) = (forEach f l a ≫= λ a', Ok (rebase b a')).
Proof.
  intros Hf. induction l as [|x l IH]; intros a; [done|].
  cbn [forEach]. rewrite Hf. destruct (f a x) as [a'| |]; [|done|done].
  cbn [mbind Res_bind]. apply IH.
Qed.

Lemma recomputeAllDeadEnds_rebase b a :
  recomputeAllDeadEnds (rebase b a)
  = (recomputeAllDeadEnds a ≫= λ a', Ok (rebase b a')).
Proof.
  destruct a as [c r mz pl s e o v u sc h]. unfold recomputeAllDeadEnds.
  cbn [maze rebase]. destruct mz as [g|]; [|done]. cbv zeta.
  exact (forEach_rebase b
           (λ st y, forEach (recomputeAllCell y) (seqZ 0 (cols st)) st)
           (seqZ 0 r)
           (λ a1 y, forEach_rebase b (recomputeAllCell y) (seqZ 0 (cols a1))
                      (recomputeAllCell_rebase b y) a1)
           (mkState c r (Some g) pl s e 0 v u sc h)).
Qed.

Lemma recomputeAllDeadEnds_opc k g a :
  recomputeAllDeadEnds (set_originalPathCount k (set_maze (Some g) a))
  = recomputeAllDeadEnds (set_maze (Some g) a).
Proof. destruct a. reflexivity. Qed.

(** The recompute leaves the other fields of the state alone. *)
Lemma recomputeAllDeadEnds_kept a a' :
  recomputeAllDeadEnds a = Ok a' → a' = rebase a a'.
Proof.
  intros H. assert (Ha : rebase a a = a) by by destruct a.
  pose proof (recomputeAllDeadEnds_rebase a a) as Hr.
  rewrite Ha, H in Hr. simpl in Hr. by injection Hr.
Qed.

(** X9.  Reset is decided by the size, Start, End, the highscore and the
    types of the cells: two states that agree on these are reset to the
    same state, whatever was filled or flagged, wherever the agent stood,
    and whatever the score, the visit count and the undo stack were. *)
Theorem resetCurrentMaze_types_only st1 st2 m1 m2 :
  maze st1 = Some m1 → maze st2 = Some m2 → sameTypes m1 m2 →
  cols st1 = cols st2 → rows st1 = rows st2 →
  start st1 = start st2 → end_ st1 = end_ st2 → highscore st1 = highscore st2 →
  resetCurrentMaze st1 = resetCurrentMaze st2.
Proof.
  intros Hm1 Hm2 Hty Hc Hr Hs He Hh.
  unfold resetCurrentMaze. rewrite Hm1, Hm2. cbv zeta.
  rewrite <- (clear_sameTypes m1 m2 Hty).
  set (m0 := (λ row : list MazeCell, clearCell <$> row) <$> m1).
  rewrite <- (recomputeAllDeadEnds_opc 0 m0 st2).
  rewrite <- (recomputeAllDeadEnds_opc 0 m0 st1).
  replace (set_originalPathCount 0 (set_maze (Some m0) st2))
    with (rebase st2 (set_originalPathCount 0 (set_maze (Some m0) st1))).
  2:{ unfold rebase, set_maze. simpl. destruct st1, st2. simpl in *. by subst. }
  rewrite recomputeAllDeadEnds_rebase.
  destruct (recomputeAllDeadEnds (set_originalPathCount 0 (set_maze (Some m0) st1)))
    as [a| |] eqn:Hrec; [|done|done].
  apply recomputeAllDeadEnds_kept in Hrec.
  cbn [mbind Res_bind rebase start]. destruct (start a) as [s|]; [|done].
  cbn [deref mbind Res_bind]. f_equal. rewrite Hrec.
  unfold rebase. simpl. by rewrite Hh.
Qed.

Lemma resetCurrentMaze_types_only_witness :
  resetCurrentMaze tState = resetCurrentMaze tStateFilled.
Proof.
  apply (resetCurrentMaze_types_only tState tStateFilled tGrid tGridFilled);
    try reflexivity.
  repeat constructor.
Defined.

(** ** More on attemptMove *)

(** A successful move that does not reach End, with reverse mode off, from
    a walkable cell: the state after it, with the cell left behind
    filled. *)
Lemma normal_move_spec env st m p s e dx dy :
  gameState st m p s e → revChecked env = false →
  walkableB st m (gridX p) (gridY p) = true →
  walkableB st m (gridX p + dx) (gridY p + dy) = true →
  atPoint e (gridX p + dx) (gridY p + dy) = false →
  ∃ s1 m1 c1,
    attemptMove env st dx dy = Ok (s1, None)
    ∧ gameState s1 m1 (mkPlayer (gridX p + dx) (gridY p + dy)) s e
    ∧ cols s1 = cols st ∧ rows s1 = rows st
    ∧ getCell m1 (gridX p) (gridY p) = Some c1 ∧ filled c1 = true
    ∧ isPath c1 = true
    ∧ undoStack s1
      = undoStack st ++ [mkSnapshot (gridX p) (gridY p)
                           (Some (mkPoint (gridX p) (gridY p)))]
    ∧ ∃ mA, sameShape m mA ∧ gridSized (cols st) (rows st) mA
        ∧ sameShape (alter (alter (withFilled true) (Z.to_nat (gridX p)))
                       (Z.to_nat (gridY p)) mA) m1.
Proof.
  intros Hgs Hrev Hpw Hw Hne. pose proof Hgs as [Hm Hs Hp Hin Hst Hen].
  set (nx := gridX p + dx) in *. set (ny := gridY p + dy) in *.
  assert (Hbd : inBounds st nx ny = true).
  { unfold walkableB in Hw. by apply andb_prop in Hw as [? _]. }
  destruct (gridSized_getCell st m nx ny Hs Hbd) as [cd Hcd].
  destruct (attemptMove_spec env st m p s e dx dy cd Hgs Hw Hcd)
    as (m1 & Hmove & Hs1 & Hm1).
  fold nx ny in Hmove, Hm1. rewrite Hrev, Hpw in Hmove, Hm1. simpl in Hmove, Hm1.
  set (hit := deadEnd cd && negb (atPoint s nx ny) && negb (atPoint e nx ny)) in *.
  destruct Hm1 as [Hsh1 Hg1].
  rewrite (checkCompletion_not_end env _ (mkPlayer nx ny) e) in Hmove by done.
  apply inBounds_spec in Hin as Hin'.
  destruct (gridSized_getCell st m _ _ Hs Hin) as [c0 Hc0].
  apply inBounds_spec in Hbd as Hbd'.
  assert (HshA : sameShape m (bonusGrid hit m nx ny)) by (apply bonusGrid_shape; lia).
  assert (Hc1 : ∃ c1, getCell m1 (gridX p) (gridY p) = Some c1 ∧ filled c1 = true
                      ∧ isPath c1 = true).
  { pose proof (Hsh1 (gridX p) (gridY p)) as H1.
    rewrite getCell_alter in H1 by lia. rewrite decide_True in H1 by done.
    pose proof (HshA (gridX p) (gridY p)) as HA. rewrite Hc0 in HA.
    destruct (getCell (bonusGrid hit m nx ny) (gridX p) (gridY p)) as [cA|]; [|done].
    simpl in H1, HA. destruct (getCell m1 (gridX p) (gridY p)) as [c1|]; [|done].
    simpl in H1. injection H1 as Ht Hf. injection HA as HtA _.
    exists c1. split_and!; [done|done|].
    unfold walkableB in Hpw. rewrite Hin, Hc0 in Hpw. simpl in Hpw.
    apply andb_prop in Hpw as [Hpath _]. unfold isPath in *.
    by rewrite <- Ht, <- HtA. }
  destruct Hc1 as (c1 & Hc1 & Hf1 & Hp1).
  eexists _, m1, c1. split; [exact Hmove|]. split_and!; try done.
  exists (bonusGrid hit m nx ny). split_and!; [done| |done].
  by apply bonusGrid_sized.
Qed.

(** X10.  With reverse mode off there is no way back: after a successful
    move from a walkable cell that does not reach End, the cell left behind
    is filled, and the opposite move is rejected, leaving the state as it
    is. *)
Theorem step_back_rejected env st m p s e dx dy :
  gameState st m p s e → revChecked env = false →
  walkableB st m (gridX p) (gridY p) = true →
  walkableB st m (gridX p + dx) (gridY p + dy) = true →
  atPoint e (gridX p + dx) (gridY p + dy) = false →
  ∃ s1 m1 c1, attemptMove env st dx dy = Ok (s1, None)
    ∧ player s1 = Some (mkPlayer (gridX p + dx) (gridY p + dy))
    ∧ maze s1 = Some m1 ∧ getCell m1 (gridX p) (gridY p) = Some c1
    ∧ filled c1 = true
    ∧ attemptMove env s1 (- dx) (- dy) = Ok (s1, None).
Proof.
  intros Hgs Hrev Hpw Hw Hne.
  destruct (normal_move_spec env st m p s e dx dy Hgs Hrev Hpw Hw Hne)
    as (s1 & m1 & c1 & Hmove & [Hm1 Hs1 Hp1 _ _ _] & Hc & Hr & Hc1 & Hf1 & _ & _).
  exists s1, m1, c1. split_and!; [done|done|done|done|done|].
  unfold attemptMove. rewrite Hp1. cbn [deref mbind Res_bind gridX gridY].
  rewrite (isWalkable_spec s1 m1) by done.
  replace (gridX p + dx + - dx) with (gridX p) by lia.
  replace (gridY p + dy + - dy) with (gridY p) by lia.
  unfold walkableB. rewrite Hc1, Hf1. simpl. by rewrite !andb_false_r.
Qed.

Lemma step_back_rejected_witness :
  ∃ s1 m1 c1, attemptMove (envWith false) tState 0 1 = Ok (s1, None)
    ∧ player s1 = Some (mkPlayer (2 + 0) (2 + 1))
    ∧ maze s1 = Some m1 ∧ getCell m1 2 2 = Some c1
    ∧ filled c1 = true
    ∧ attemptMove (envWith false) s1 (- 0) (- 1) = Ok (s1, None).
Proof.
  apply (step_back_rejected (envWith false) tState tGrid (mkPlayer 2 2)
           (mkPoint 1 1) (mkPoint 3 1) 0 1).
  - apply tState_game.
  - reflexivity.
  - vm_compute. reflexivity.
  - vm_compute. reflexivity.
  - vm_compute. reflexivity.
Defined.

Lemma runTransition_nextMaze env st sx :
  0 ≤ cols st → 0 ≤ rows st → rnd_ok (random env) →
  ∃ st', runTransition env
           (mkTransition (Z.min 51 (cols st + 2)) (Z.min 51 (rows st + 2))) sx
         = Ok st'
    ∧ nextMaze st (highscore sx) st'.
Proof.
  intros Hc Hr Hrnd. unfold runTransition. cbv zeta. cbn [newW newH].
  match goal with |- ∃ _, generateMazeIterative _ ?st0 = _ ∧ _ =>
    destruct (generateMazeIterative_spec env st0)
      as (st' & m' & Hgen & Hfresh & Hc' & Hr' & Hsc & Hhs)
  end.
  { simpl. lia. } { simpl. lia. } { done. }
  exists st'. split; [done|]. exists m'. by split_and!.
Qed.

(** X11.  Reaching End: the move that enters End returns normally, with
    the score raised by one point for the move and by the finish bonus
    [max 0 (100 - elapsed seconds)], and with the highscore raised to that
    score if it was lower.  Where [document.startViewTransition] does not
    exist, the regeneration has run inside the call: what is returned is a
    fresh game on a maze two cells larger each way, up to 51 and made odd,
    with score 0 and that highscore, and nothing is pending.  Where it
    exists, the call returns with the grid in place (its size and the
    types of its cells as they were), the agent on End and the score not
    reset, and the regeneration pending; whenever that callback is then
    called, on whatever state, it gives such a fresh game, with the
    highscore of that state. *)
Theorem completion_regenerates env env' st m p s e dx dy :
  gameState st m p s e →
  rnd_ok (random env) → rnd_ok (random env') →
  walkableB st m (gridX p + dx) (gridY p + dy) = true →
  atPoint e (gridX p + dx) (gridY p + dy) = true →
  if supportsViewTransition env
  then ∃ s1 m1 t,
         attemptMove env st dx dy = Ok (s1, Some t)
         ∧ cols s1 = cols st ∧ rows s1 = rows st
         ∧ maze s1 = Some m1
         ∧ (∀ x y, type <$> getCell m1 x y = type <$> getCell m x y)
         ∧ player s1 = Some (mkPlayer (gridX p + dx) (gridY p + dy))
         ∧ score s1 = score st + 1 + Z.max 0 (100 - elapsedSec env)
         ∧ highscore s1 = Z.max (highscore st) (score s1)
         ∧ ∀ sx, ∃ st', runTransition env' t sx = Ok st'
                   ∧ nextMaze st (highscore sx) st'
  else ∃ st',
         attemptMove env st dx dy = Ok (st', None)
         ∧ nextMaze st
             (Z.max (highscore st)
                (score st + 1 + Z.max 0 (100 - elapsedSec env))) st'.
Proof.
  intros Hgs Hrnd Hrnd' Hw Hend. pose proof Hgs as [Hm Hs Hp Hin Hst Hen].
  set (nx := gridX p + dx) in *. set (ny := gridY p + dy) in *.
  assert (Hbd : inBounds st nx ny = true).
  { unfold walkableB in Hw. by apply andb_prop in Hw as [? _]. }
  destruct (gridSized_getCell st m nx ny Hs Hbd) as [cd Hcd].
  destruct (attemptMove_spec env st m p s e dx dy cd Hgs Hw Hcd)
    as (m1 & Hmove & Hs1 & Hm1).
  fold nx ny in Hmove, Hm1. rewrite Hend in Hmove, Hm1.
  rewrite andb_false_r in Hmove, Hm1. unfold moveGain in Hmove.
  cbn [bonusGrid] in Hm1.
  apply inBounds_spec in Hin as Hin'.
  destruct (supportsViewTransition env) eqn:Hvt.
  - set (s0 := mkState _ _ _ _ _ _ _ _ _ _ _) in Hmove.
    destruct (checkCompletion_kept env s0 (mkPlayer nx ny) e)
      as (s1 & t & Hcc & Hc1 & Hr1 & Hmz1 & Hp1 & _ & _ & _ & _ & _ & _ & _ & Hpend);
      [done|done|by right|].
    cbn [gridX gridY] in Hpend. rewrite Hend in Hpend.
    change (cols s0) with (cols st) in Hpend.
    change (rows s0) with (rows st) in Hpend.
    destruct Hpend as (-> & Hsc & Hhs).
    eexists s1, m1, _. rewrite Hmove. split; [exact Hcc|].
    split; [done|]. split; [done|]. split; [done|]. split.
    { intros x y.
      destruct (negb (revChecked env) && walkableB st m (gridX p) (gridY p)).
      - destruct Hm1 as [Hsh _]. specialize (Hsh x y).
        rewrite getCell_alter in Hsh by lia.
        destruct (getCell m1 x y) as [c1|], (getCell m x y) as [c|];
          case_decide; simpl in *; congruence.
      - by subst m1. }
    split; [done|]. split; [rewrite Hsc; simpl; lia|]. split; [done|].
    intros sx. apply runTransition_nextMaze; [lia|lia|done].
  - rewrite (checkCompletion_at_end env _ (mkPlayer nx ny) e) in Hmove by done.
    match type of Hmove with _ = mbind _ (generateMazeIterative _ ?st0) =>
      destruct (generateMazeIterative_spec env st0)
        as (st' & m' & Hgen & Hfresh & Hc & Hr & Hsc & Hhs)
    end.
    { simpl. lia. } { simpl. lia. } { done. }
    exists st'. rewrite Hmove, Hgen. split; [done|].
    exists m'. split; [done|]. split; [exact Hc|]. split; [exact Hr|].
    split; [done|].
    rewrite Hhs. cbn [highscore set_rows set_cols set_maze].
    cbn [score set_score highscore]. rewrite Z.mul_1_r.
    destruct (highscore st <? score st + (1 + 0) + Z.max 0 (100 - elapsedSec env)) eqn:E;
      simpl; lia.
Qed.

Lemma completion_regenerates_witness :
  ∃ s1 m1 t,
    attemptMove (envDeferring false) tStateFilled 1 0 = Ok (s1, Some t)
    ∧ cols s1 = cols tStateFilled ∧ rows s1 = rows tStateFilled
    ∧ maze s1 = Some m1
    ∧ (∀ x y, type <$> getCell m1 x y = type <$> getCell tGridFilled x y)
    ∧ player s1 = Some (mkPlayer (2 + 1) (1 + 0))
    ∧ score s1
      = score tStateFilled + 1 + Z.max 0 (100 - elapsedSec (envDeferring false))
    ∧ highscore s1 = Z.max (highscore tStateFilled) (score s1)
    ∧ ∀ sx, ∃ st', runTransition (envWith false) t sx = Ok st'
              ∧ nextMaze tStateFilled (highscore sx) st'.
Proof.
  apply (completion_regenerates (envDeferring false) (envWith false)
           tStateFilled tGridFilled
           (mkPlayer 2 1) (mkPoint 1 1) (mkPoint 3 1) 1 0).
  - split; try reflexivity. apply tGridFilled_sized.
  - apply rnd_ok_zero.
  - apply rnd_ok_zero.
  - vm_compute. reflexivity.
  - vm_compute. reflexivity.
Defined.

(** ** currentPathCount *)

Lemma forEach_tally {A B} (get : A → Res B) (P : B → bool) (l : list A) :
  ∀ (vals : list B) (c0 : Z),
  Forall2 (λ x v, get x = Ok v) l vals →
  forEach (λ c x, v ← get x; Ok (if P v then c + 1 else c)) l c0
  = Ok (c0 + Z.of_nat (total (λ v, if P v then 1 else 0)%nat vals)).
Proof.
  induction l as [|x l IH]; intros vals c0 H; inversion H as [|? v ? vs Hx Hl]; subst.
  - simpl. f_equal. unfold total. simpl. lia.
  - cbn [forEach]. rewrite Hx. cbn [mbind Res_bind]. rewrite (IH vs) by done.
    f_equal. unfold total. rewrite fmap_cons. simpl. destruct (P v); lia.
Qed.

Lemma forEach_rows_tally (w : list MazeCell → nat)
    (f : Z → Z → Res Z) : ∀ (ys : list Z) (rs : list (list MazeCell)) (c0 : Z),
  Forall2 (λ y row, ∀ c, f c y = Ok (c + Z.of_nat (w row))) ys rs →
  forEach f ys c0 = Ok (c0 + Z.of_nat (total w rs)).
Proof.
  induction ys as [|y ys IH]; intros rs c0 H; inversion H as [|? row ? rs' Hy Hl]; subst.
  - simpl. f_equal. unfold total. simpl. lia.
  - cbn [forEach]. rewrite Hy. cbn [mbind Res_bind]. rewrite (IH rs') by done.
    f_equal. unfold total. rewrite fmap_cons. simpl. lia.
Qed.

Lemma currentPathCount_spec st m :
  maze st = Some m → gridSized (cols st) (rows st) m →
  currentPathCount st = Ok (Z.of_nat (openTotal m)).
Proof.
  intros Hm Hs. unfold currentPathCount, openTotal.
  rewrite (forEach_rows_tally (total openWeight) _ _ m 0); [done|].
  pose proof Hs as [Hlen Hrows].
  apply Forall2_same_length_lookup_2; [by rewrite length_seqZ|].
  intros i y row Hy Hrow c. apply lookup_seqZ in Hy as [-> Hi].
  apply (forEach_tally (λ x, cellAt st x (0 + Z.of_nat i))
           (λ cell, isPath cell && negb (filled cell))).
  apply (row_cells st m); [done|done|lia|]. by rewrite Z.add_0_l, Nat2Z.id.
Qed.

Lemma total2_alter (w : MazeCell → nat) f (m : Grid) x y c :
  getCell m x y = Some c →
  (total (total w) (alter (alter f (Z.to_nat x)) (Z.to_nat y) m) + w c
   = total (total w) m + w (f c))%nat.
Proof.
  intros (Hx & Hy & row & Hr & Hc)%getCell_Some.
  pose proof (total_alter (total w) (alter f (Z.to_nat x)) m _ _ Hr).
  pose proof (total_alter w f row _ _ Hc). lia.
Qed.

Lemma openTotal_shape c r (m m' : Grid) :
  gridSized c r m → gridSized c r m' → sameShape m m' →
  openTotal m = openTotal m'.
Proof.
  intros [Hlen Hrows] [Hlen' Hrows'] Hsh. unfold openTotal, total.
  f_equal. apply list_eq. intros j. rewrite !list_lookup_fmap.
  destruct (m !! j) as [row|] eqn:Hr, (m' !! j) as [row'|] eqn:Hr'; simpl.
  - f_equal. f_equal. apply list_eq. intros i. rewrite !list_lookup_fmap.
    specialize (Hsh (Z.of_nat i) (Z.of_nat j)). unfold getCell in Hsh.
    rewrite !arr_get_nonneg in Hsh by lia. rewrite !Nat2Z.id, Hr, Hr' in Hsh.
    simpl in Hsh. rewrite !arr_get_nonneg in Hsh by lia. rewrite !Nat2Z.id in Hsh.
    destruct (row !! i) as [a|], (row' !! i) as [a'|]; simpl in *; try done.
    injection Hsh as Ht Hf. unfold openWeight, isPath. by rewrite Ht, Hf.
  - apply lookup_lt_Some in Hr. apply lookup_ge_None in Hr'. lia.
  - apply lookup_lt_Some in Hr'. apply lookup_ge_None in Hr. lia.
  - done.
Qed.

(** X12.  The count behind the progress display: in a state with a sized
    maze [currentPathCount] returns the number of walkable cells; a
    successful move that does not reach End, made with reverse mode off from
    a walkable cell, lowers it by exactly one, and the undo that follows
    brings it back. *)
Theorem currentPathCount_move_undo env st m p s e dx dy :
  gameState st m p s e → revChecked env = false →
  walkableB st m (gridX p) (gridY p) = true →
  walkableB st m (gridX p + dx) (gridY p + dy) = true →
  atPoint e (gridX p + dx) (gridY p + dy) = false →
  ∃ s1 s2, attemptMove env st dx dy = Ok (s1, None) ∧ undo s1 = Ok s2
    ∧ currentPathCount st = Ok (Z.of_nat (openTotal m))
    ∧ currentPathCount s1 = Ok (Z.of_nat (openTotal m) - 1)
    ∧ currentPathCount s2 = Ok (Z.of_nat (openTotal m)).
Proof.
  intros Hgs Hrev Hpw Hw Hne. pose proof Hgs as [Hm Hs Hp Hin Hst Hen].
  destruct (normal_move_spec env st m p s e dx dy Hgs Hrev Hpw Hw Hne)
    as (s1 & m1 & c1 & Hmove & [Hm1 Hs1 Hp1 Hin1 _ _] & Hc & Hr & Hc1 & Hf1 & Hpath1
        & Hus & mA & HshA & HsA & Hsh1).
  apply inBounds_spec in Hin as Hin'.
  destruct (undo_spec s1 m1 _ _ _ Hm1 Hs1 Hp1 Hus) as (m2 & Hundo & Hs2 & Hm2).
  { intros f [= <-]. simpl. unfold inBounds. rewrite Hc, Hr. exact Hin. }
  simpl in Hm2. destruct Hm2 as [Hsh2 _].
  eexists s1, _. split; [done|]. split; [exact Hundo|].
  rewrite (currentPathCount_spec st m) by done.
  rewrite (currentPathCount_spec s1 m1) by done.
  rewrite (currentPathCount_spec _ m2) by done.
  rewrite Hc, Hr in Hs1, Hs2.
  destruct (gridSized_getCell st mA _ _ HsA Hin) as [cA HcA].
  destruct (gridSized_getCell st m _ _ Hs Hin) as [c0 Hc0].
  assert (HwA : openWeight cA = 1%nat).
  { pose proof (HshA (gridX p) (gridY p)) as HA. rewrite Hc0, HcA in HA.
    simpl in HA. injection HA as Ht Hf.
    unfold walkableB in Hpw. rewrite Hin, Hc0 in Hpw. simpl in Hpw.
    unfold openWeight, isPath in *. by rewrite <- Ht, <- Hf, Hpw. }
  pose proof (total2_alter openWeight (withFilled true) mA _ _ cA HcA) as HtA.
  pose proof (total2_alter openWeight (withFilled false) m1 _ _ c1 Hc1) as Ht1.
  fold (openTotal mA) in HtA. fold (openTotal m1) in Ht1.
  rewrite (openTotal_shape _ _ m mA Hs HsA HshA).
  rewrite <- (openTotal_shape _ _ _ m1 (gridSized_alter _ _ _ _ _ _ HsA) Hs1 Hsh1).
  rewrite <- (openTotal_shape _ _ _ m2 (gridSized_alter _ _ _ _ _ _ Hs1) Hs2 Hsh2).
  rewrite <- (openTotal_shape _ _ _ m1 (gridSized_alter _ _ _ _ _ _ HsA) Hs1 Hsh1) in Ht1.
  assert (openWeight (withFilled true cA) = 0%nat).
  { unfold openWeight. simpl. by rewrite andb_false_r. }
  assert (openWeight c1 = 0%nat).
  { unfold openWeight. by rewrite Hf1, andb_false_r. }
  assert (openWeight (withFilled false c1) = 1%nat).
  { unfold openWeight, isPath in *. simpl. by rewrite Hpath1. }
  unfold openTotal in *.
  split_and!; f_equal; lia.
Qed.

Lemma currentPathCount_move_undo_witness :
  ∃ s1 s2, attemptMove (envWith false) tState 0 1 = Ok (s1, None) ∧ undo s1 = Ok s2
    ∧ currentPathCount tState = Ok (Z.of_nat (openTotal tGrid))
    ∧ currentPathCount s1 = Ok (Z.of_nat (openTotal tGrid) - 1)
    ∧ currentPathCount s2 = Ok (Z.of_nat (openTotal tGrid)).
Proof.
  apply (currentPathCount_move_undo (envWith false) tState tGrid (mkPlayer 2 2)
           (mkPoint 1 1) (mkPoint 3 1) 0 1).
  - apply tState_game.
  - reflexivity.
  - vm_compute. reflexivity.
  - vm_compute. reflexivity.
  - vm_compute. reflexivity.
Defined.

(** ** The wall around a generated maze *)

Lemma enclosed_alter_path C R m x y :
  0 < x < C - 1 → 0 < y < R - 1 → enclosed C R m →
  enclosed C R (alter (alter (withType path) (Z.to_nat x)) (Z.to_nat y) m).
Proof.
  intros Hx Hy He x' y' c Hc Ht. rewrite getCell_alter in Hc by lia.
  destruct (decide (x' = x ∧ y' = y)) as [[-> ->]|_]; [done|]. by apply (He x' y' c).
Qed.

Lemma enclosed_shape C R m m' : sameShape m m' → enclosed C R m → enclosed C R m'.
Proof.
  intros Hsh He x y c' Hc' Ht. specialize (Hsh x y). rewrite Hc' in Hsh.
  destruct (getCell m x y) as [c|] eqn:Hc; [|done]. simpl in Hsh.
  injection Hsh as Hty _. apply (He x y c); [done|congruence].
Qed.

Lemma enclosed_carved C R m cx cy d :
  isRoom C R (cx, cy) → isRoom C R (cx + d.1, cy + d.2) → d ∈ dirs2 →
  enclosed C R m → enclosed C R (carved m cx cy d).
Proof.
  intros (Hx & Hy & _) (Hnx & Hny & _) Hd He. simpl in *. unfold carved.
  apply elem_dirs2 in Hd as [-> |[-> |[-> | ->]]]; simpl in *;
    (apply enclosed_alter_path; [lia|lia|]);
    change (2 `div` 2) with 1; change ((-2) `div` 2) with (-1);
    change (0 `div` 2) with 0;
    (apply enclosed_alter_path; [lia|lia|done]).
Qed.

Lemma carveLoop_enclosed fuel : ∀ rnd k C R m stack m' k',
  carveInv C R m stack → enclosed C R m →
  carveLoop fuel rnd k C R m stack = Ok (m', k') → enclosed C R m'.
Proof.
  induction fuel as [|fuel IH]; intros rnd k C R m stack m' k' Hinv He Hrun; [done|].
  rewrite carveLoop_S in Hrun. destruct (last stack) as [[cx cy]|] eqn:Hlast.
  2:{ by injection Hrun as <- _. }
  destruct (shuffleFrom rnd k dirs2 (length dirs2 - 1)) as [dirs k1] eqn:Hsh.
  assert (Hdirs : ∀ d, d ∈ dirs ↔ d ∈ dirs2).
  { intros d. rewrite <- (shuffleFrom_elem_of rnd k dirs2 (length dirs2 - 1)).
    by rewrite Hsh. }
  assert (Htop : (cx, cy) ∈ stack).
  { apply last_Some in Hlast as [l' ->]. set_solver. }
  destruct (ci_stack _ _ _ _ Hinv _ Htop) as [Hroom _].
  pose proof (tryCarve_spec C R m cx cy dirs (ci_sized _ _ _ _ Hinv) Hroom) as Hspec.
  destruct (tryCarve C R m cx cy dirs) as [[[m1 n]|]| |]; cbn [mbind Res_bind] in Hrun;
    [| |done|done].
  - destruct Hspec as (d & cn & Hd & -> & Hrn & Hcn & Hw & ->).
    { intros d. apply Hdirs. }
    destruct (carve_push C R m stack cx cy d cn) as [Hinv' _]; try done.
    { by apply Hdirs. }
    eapply IH; [exact Hinv'| |exact Hrun].
    apply enclosed_carved; [done|done|by apply Hdirs|done].
  - eapply IH; [|exact He|exact Hrun].
    eapply carve_pop; [done|done|]. intros d Hd. apply Hspec.
    { intros d'. apply Hdirs. } { by apply Hdirs. }
Qed.

Lemma extraLoop_S n rnd k C R chance m :
  extraLoop (S n) rnd k C R chance m =
  let rx := 1 + Qfloor (rnd k * inject_Z (C - 2))%Q in
  let ry := 1 + Qfloor (rnd (S k) * inject_Z (R - 2))%Q in
  if Qltb (rnd (S (S k))) chance then
    m ← updCell (withType path) m rx ry;
    extraLoop n rnd (3 + k) C R chance m
  else extraLoop n rnd (3 + k) C R chance m.
Proof. done. Qed.

Lemma extraLoop_enclosed n : ∀ rnd k C R chance m m',
  rnd_ok rnd → 3 ≤ C → 3 ≤ R → gridSized C R m → enclosed C R m →
  extraLoop n rnd k C R chance m = Ok m' → enclosed C R m'.
Proof.
  induction n as [|n IH]; intros rnd k C R chance m m' Hrnd HC HR Hs He Hrun.
  { simpl in Hrun. by injection Hrun as <-. }
  rewrite extraLoop_S in Hrun. cbv zeta in Hrun.
  destruct (Qltb (rnd (S (S k))) chance); [|by eapply IH].
  destruct (Hrnd k) as [Ha0 Ha1]. destruct (Hrnd (S k)) as [Hb0 Hb1].
  pose proof (Qfloor_unit_range (rnd k) (C - 2) Ha0 Ha1 ltac:(lia)).
  pose proof (Qfloor_unit_range (rnd (S k)) (R - 2) Hb0 Hb1 ltac:(lia)).
  set (rx := 1 + Qfloor (rnd k * inject_Z (C - 2))) in *.
  set (ry := 1 + Qfloor (rnd (S k) * inject_Z (R - 2))) in *.
  destruct (sized_get C R m rx ry Hs) as [c Hc]; [lia|lia|].
  rewrite (updCell_Ok _ _ _ _ c) in Hrun by done. cbn [mbind Res_bind] in Hrun.
  eapply (IH _ _ _ _ _ _ _ Hrnd HC HR); [| |exact Hrun].
  - by apply gridSized_alter.
  - apply enclosed_alter_path; [lia|lia|done].
Qed.

Lemma generateMazeIterative_layout env st0 :
  2 ≤ cols st0 → 2 ≤ rows st0 → rnd_ok (random env) →
  ∃ st m, generateMazeIterative env st0 = Ok st ∧ maze st = Some m
    ∧ gridSized (cols st) (rows st) m ∧ enclosed (cols st) (rows st) m
    ∧ (∀ a, isRoom (cols st) (rows st) a → reach m (1, 1) a)
    ∧ cols st = oddify (cols st0) ∧ rows st = oddify (rows st0).
Proof.
  intros Hc0 Hr0 Hrnd.
  unfold generateMazeIterative. cbv zeta.
  set (stc := if Z.rem (cols st0) 2 =? 0 then _ else _).
  set (st1 := if Z.rem (rows stc) 2 =? 0 then _ else _).
  assert (Hst1 : cols st1 = oddify (cols st0) ∧ rows st1 = oddify (rows st0)).
  { subst st1 stc. unfold oddify.
    destruct (Z.rem (cols st0) 2 =? 0); simpl;
      destruct (Z.rem (rows st0) 2 =? 0); simpl; done. }
  destruct Hst1 as (HC & HR).
  destruct (oddify_spec _ Hc0) as [HC3 _]. destruct (oddify_spec _ Hr0) as [HR3 _].
  rewrite <- HC in HC3. rewrite <- HR in HR3.
  set (C := cols st1) in *. set (R := rows st1) in *.
  destruct (carveInv_init C R HC3 HR3) as (Hupd & Hinv0 & Hfuel).
  rewrite Hupd. cbn [mbind Res_bind].
  assert (He1 : enclosed C R
            (alter (alter (withType path) (Z.to_nat 1)) (Z.to_nat 1)
               (replicate (Z.to_nat R)
                  (replicate (Z.to_nat C) (mkCell wall false false))))).
  { apply enclosed_alter_path; [lia|lia|].
    intros x y c Hc Ht. apply getCell_replicate in Hc. by subst. }
  destruct (carveLoop_spec (carveFuel C R) (random env) 0 C R _ _ Hinv0 Hfuel)
    as (m2 & k2 & Hloop & Hinv2).
  pose proof (carveLoop_enclosed _ _ _ _ _ _ _ _ _ Hinv0 He1 Hloop) as He2.
  rewrite Hloop. cbn [mbind Res_bind].
  set (n := Z.to_nat _).
  destruct (extraLoop_spec n (random env) k2 C R (shuffle (presetOf (difficulty env))) m2)
    as (m3 & Hext & Hs3 & Hp3 & Hmono3); try done.
  { apply (ci_sized _ _ _ _ Hinv2). } { apply (ci_pristine _ _ _ _ Hinv2). }
  pose proof (extraLoop_enclosed _ _ _ _ _ _ _ _ Hrnd HC3 HR3
                (ci_sized _ _ _ _ Hinv2) He2 Hext) as He3.
  rewrite Hext. cbn [mbind Res_bind].
  destruct (sized_get C R m3 1 1 Hs3) as [c1 Hc1]; [lia|lia|].
  rewrite (updCell_Ok _ _ _ _ c1) by done. cbn [mbind Res_bind].
  set (m4 := alter _ _ m3).
  assert (Hs4 : gridSized C R m4) by by apply gridSized_alter.
  change (cols (set_end _ _)) with C. change (rows (set_end _ _)) with R.
  destruct (sized_get C R m4 (C - 2) (R - 2) Hs4) as [c2 Hc2]; [lia|lia|].
  rewrite (updCell_Ok _ _ _ _ c2) by done. cbn [mbind Res_bind].
  set (m5 := alter _ _ m4).
  assert (Hs5 : gridSized C R m5) by by apply gridSized_alter.
  assert (He5 : enclosed C R m5).
  { apply enclosed_alter_path; [lia|lia|]. apply enclosed_alter_path; [lia|lia|done]. }
  assert (Hmono5 : ∀ a, isPathAt m2 a → isPathAt m5 a).
  { intros a Ha. unfold m5, m4.
    apply isPathAt_alter_type; [lia|lia|]. apply isPathAt_alter_type; [lia|lia|].
    by apply Hmono3. }
  set (st5 := set_maze (Some m5) _).
  destruct (recomputeAllDeadEnds_spec st5 m5)
    as (st6 & m6 & Hrec & Hfr & Hm6 & Hs6 & Hsh6 & _); [done|done|].
  rewrite Hrec. cbn [mbind Res_bind].
  destruct Hfr as (Hc6 & Hr6 & _).
  change (cols st5) with C in Hc6, Hs6. change (rows st5) with R in Hr6, Hs6.
  eexists _, m6. split; [reflexivity|].
  cbn [cols rows maze set_score set_undoStack set_visitedCount set_player].
  rewrite <- Hc6, <- Hr6. split_and!; [done|done| | |done|done].
  - by apply (enclosed_shape C R m5).
  - intros a Ha.
    eapply reach_mono; [intros b; apply (isPathAt_shape m5 m6 b Hsh6)|].
    eapply reach_mono; [exact Hmono5|].
    apply (ci_conn _ _ _ _ Hinv2). by apply (all_rooms_path C R).
Qed.

(** X13.  A generated maze is walled in: for a requested size of at least
    2 by 2 and [Math.random()] in [0, 1) the generator returns a grid of the
    recorded size in which every path cell lies off the border, so that
    no cell of the outer ring is walkable. *)
Theorem generated_maze_enclosed env st0 :
  2 ≤ cols st0 → 2 ≤ rows st0 → rnd_ok (random env) →
  ∃ st m, generateMazeIterative env st0 = Ok st ∧ maze st = Some m
    ∧ gridSized (cols st) (rows st) m
    ∧ (∀ x y c, getCell m x y = Some c → type c = path →
         0 < x < cols st - 1 ∧ 0 < y < rows st - 1)
    ∧ ∀ x y, x = 0 ∨ x = cols st - 1 ∨ y = 0 ∨ y = rows st - 1 →
        walkableB st m x y = false.
Proof.
  intros Hc0 Hr0 Hrnd.
  destruct (generateMazeIterative_layout env st0 Hc0 Hr0 Hrnd)
    as (st & m & Hgen & Hm & Hs & He & _).
  exists st, m. split_and!; try done.
  intros x y Hborder. unfold walkableB.
  destruct (inBounds st x y); [|done]. simpl.
  destruct (getCell m x y) as [c|] eqn:Hc; [|done].
  destruct (type c) eqn:Ht.
  - unfold isPath. rewrite Ht. by rewrite bool_decide_eq_false_2.
  - destruct (He x y c Hc Ht). lia.
Qed.

Lemma generated_maze_enclosed_witness :
  ∃ st m, generateMazeIterative (envWith false) (blankState 7 7) = Ok st
    ∧ maze st = Some m
    ∧ gridSized (cols st) (rows st) m
    ∧ (∀ x y c, getCell m x y = Some c → type c = path →
         0 < x < cols st - 1 ∧ 0 < y < rows st - 1)
    ∧ ∀ x y, x = 0 ∨ x = cols st - 1 ∨ y = 0 ∨ y = rows st - 1 →
        walkableB st m x y = false.
Proof.
  apply (generated_maze_enclosed (envWith false) (blankState 7 7)).
  - simpl. lia.
  - simpl. lia.
  - apply rnd_ok_zero.
Defined.

(** X14.  The carved maze spans the room lattice: for a requested size of
    at least 2 by 2 and [Math.random()] in [0, 1), the sides of the
    generated grid are the requested ones made odd, and every cell at odd
    coordinates (all of them lie inside the border) is a path cell joined
    to Start (1,1) by a walk over path cells. *)
Theorem generated_rooms_connected env st0 :
  2 ≤ cols st0 → 2 ≤ rows st0 → rnd_ok (random env) →
  ∃ st m, generateMazeIterative env st0 = Ok st ∧ maze st = Some m
    ∧ cols st = oddify (cols st0) ∧ rows st = oddify (rows st0)
    ∧ Z.odd (cols st) = true ∧ Z.odd (rows st) = true
    ∧ ∀ x y, 0 ≤ x < cols st → 0 ≤ y < rows st →
        Z.odd x = true → Z.odd y = true →
        isPathAt m (x, y) ∧ reach m (1, 1) (x, y).
Proof.
  intros Hc0 Hr0 Hrnd.
  destruct (generateMazeIterative_layout env st0 Hc0 Hr0 Hrnd)
    as (st & m & Hgen & Hm & Hs & He & Hrooms & HC & HR).
  destruct (oddify_spec _ Hc0) as [_ HCo]. destruct (oddify_spec _ Hr0) as [_ HRo].
  rewrite <- HC in HCo. rewrite <- HR in HRo.
  exists st, m. split_and!; try done.
  intros x y Hx Hy Hox Hoy.
  assert (Hroom : isRoom (cols st) (rows st) (x, y)).
  { assert (x ≠ 0) by (by intros ->).
    assert (y ≠ 0) by (by intros ->).
    assert (x ≠ cols st - 1).
    { intros ->. rewrite Z.odd_sub, HCo in Hox. done. }
    assert (y ≠ rows st - 1).
    { intros ->. rewrite Z.odd_sub, HRo in Hoy. done. }
    unfold isRoom. simpl. repeat split; done || lia. }
  pose proof (Hrooms _ Hroom) as Hreach. split; [|done].
  inversion Hreach; done.
Qed.

Lemma generated_rooms_connected_witness :
  ∃ st m, generateMazeIterative (envWith false) (blankState 6 8) = Ok st
    ∧ maze st = Some m
    ∧ cols st = oddify (cols (blankState 6 8))
    ∧ rows st = oddify (rows (blankState 6 8))
    ∧ Z.odd (cols st) = true ∧ Z.odd (rows st) = true
    ∧ ∀ x y, 0 ≤ x < cols st → 0 ≤ y < rows st →
        Z.odd x = true → Z.odd y = true →
        isPathAt m (x, y) ∧ reach m (1, 1) (x, y).
Proof.
  apply (generated_rooms_connected (envWith false) (blankState 6 8)).
  - simpl. lia.
  - simpl. lia.
  - apply rnd_ok_zero.
Defined.

(** ** The keyboard *)

Lemma keyToDir_table k d : keyToDir k = Some d ↔ (k, d) ∈ keyTable.
Proof.
  split.
  - unfold keyToDir.
    repeat match goal with
    | |- context [String.eqb k ?s] =>
        destruct (String.eqb_spec k s) as [->|]; cbn [orb]
    end; intros [= <-]; unfold keyTable; set_solver.
  - unfold keyTable. rewrite !elem_of_cons, elem_of_nil.
    intros H. repeat (destruct H as [[= -> ->]|H]; [reflexivity|]). done.
Qed.

Lemma keyToDir_unit k dx dy :
  keyToDir k = Some (dx, dy) → Z.abs dx + Z.abs dy = 1.
Proof.
  rewrite keyToDir_table. unfold keyTable. rewrite !elem_of_cons, elem_of_nil.
  intros H. repeat (destruct H as [[= -> -> ->]|H]; [reflexivity|]). done.
Qed.

Lemma keyToDir_not_undo k :
  is_Some (keyToDir k) → String.eqb k "u" || String.eqb k "U" = false.
Proof.
  unfold keyToDir. intros [d Hd].
  destruct (String.eqb k "u") eqn:Eu.
  { apply String.eqb_eq in Eu. by subst. }
  destruct (String.eqb k "U") eqn:EU; [|done].
  apply String.eqb_eq in EU. by subst.
Qed.

Lemma keydown_direction env st hold k d :
  keyToDir k = Some d →
  keydown env st hold k
  = '(st', t) ← attemptMove env st d.1 d.2; Ok (st', Some d, t).
Proof.
  intros Hk. unfold keydown. rewrite Hk.
  rewrite (keyToDir_not_undo k) by (by rewrite Hk).
  destruct d as [dx dy]. cbn [fst snd].
  destruct (attemptMove env st dx dy) as [[st' t]| |]; done.
Qed.

Lemma keydown_gameInv env st hold k :
  gameInv st → unitHold hold → revChecked env = false → rnd_ok (random env) →
  ∃ st' hold' t, keydown env st hold k = Ok (st', hold', t) ∧ gameInv st'
    ∧ unitHold hold' ∧ pendingOk (addPending [] t).
Proof.
  intros Hinv Hh Hrev Hrnd.
  destruct (keyToDir k) as [[dx dy]|] eqn:Hk.
  - rewrite (keydown_direction env st hold k (dx, dy)) by done. cbn [fst snd].
    destruct (attemptMove_gameInv env st dx dy Hinv) as (st' & t & -> & Hinv' & Ht).
    { split_and!; [done| |done]. by apply (keyToDir_unit k). }
    exists st', (Some (dx, dy)), t. split_and!; [done|done| |done].
    intros ? ? [= <- <-]. by apply (keyToDir_unit k).
  - unfold keydown. rewrite Hk. cbn [mbind Res_bind].
    destruct (String.eqb k "u" || String.eqb k "U").
    + destruct (undo_gameInv st Hinv) as (st' & -> & Hinv').
      exists st', hold, None. by split_and!; [| | |constructor].
    + exists st, hold, None. by split_and!; [| | |constructor].
Qed.

Lemma pressKeys_gameInv evs :
  Forall normalEvent evs →
  ∀ st hold pending, gameInv st → unitHold hold → pendingOk pending →
  ∃ st' hold' pending',
    pressKeys evs st hold pending = Ok (st', hold', pending') ∧ gameInv st'.
Proof.
  induction evs as [|ev evs IH]; intros Hevs st hold pending Hinv Hh Hpend.
  { by exists st, hold, pending. }
  apply Forall_cons in Hevs as [Hev Hevs]. specialize (IH Hevs).
  assert (Hadd : ∀ t, pendingOk (addPending [] t) →
                      pendingOk (addPending pending t)).
  { intros [t|] Ht; [|done]. apply Forall_app. by split. }
  destruct ev as [env k|k|env|env i]; cbn [pressKeys].
  - destruct Hev as [Hrev Hrnd].
    destruct (keydown_gameInv env st hold k Hinv Hh Hrev Hrnd)
      as (st1 & hold1 & t & -> & Hinv1 & Hh1 & Ht).
    cbn [mbind Res_bind]. apply IH; [done|done|by apply Hadd].
  - apply IH; [done| |done]. unfold keyup. destruct (keyToDir k); [|done].
    by intros ? ?.
  - destruct Hev as [Hrev Hrnd]. destruct hold as [[dx dy]|]; cbn [holdTick].
    + destruct (attemptMove_gameInv env st dx dy Hinv)
        as (st1 & t & -> & Hinv1 & Ht).
      { split_and!; [done| |done]. by apply Hh. }
      cbn [mbind Res_bind]. apply IH; [done|done|by apply Hadd].
    + cbn [mbind Res_bind]. by apply IH.
  - destruct (pending !! i) as [t|] eqn:Hi; [|by apply IH].
    pose proof (Forall_lookup_1 _ _ _ _ Hpend Hi) as [Hw Hhh].
    destruct (runTransition_gameInv env t st Hw Hhh Hev) as (st1 & -> & Hinv1).
    cbn [mbind Res_bind]. apply IH; [done|done|]. by apply Forall_delete.
Qed.

(** X15.  The keyboard.  [keyToDir] gives a step exactly for the twelve
    keys of the table, and the step of the table: the arrows and w, a, s, d
    in either case, one cell along an axis.  The [keydown] listener of
    such a key is [attemptMove] by that step, after which that step is
    held; that of [u] and [U] is [undo]; that of any other key leaves the
    state and the held step alone.  On a freshly generated maze, with
    reverse mode off, no sequence of keys going down, keys going up,
    firings of the interval of the held key and calls of pending
    regenerations raises, and after it every dead-end flag agrees with
    the definition. *)
Theorem keys_keep_flags env0 st0 evs :
  2 ≤ cols st0 → 2 ≤ rows st0 → rnd_ok (random env0) →
  Forall normalEvent evs →
  (∀ k d, keyToDir k = Some d ↔ (k, d) ∈ keyTable)
  ∧ (∀ env st hold k d, (k, d) ∈ keyTable →
       keydown env st hold k
       = '(st', t) ← attemptMove env st d.1 d.2; Ok (st', Some d, t))
  ∧ (∀ env st hold k, k = "u" ∨ k = "U" →
       keydown env st hold k = st' ← undo st; Ok (st', hold, None))
  ∧ (∀ env st hold k, keyToDir k = None → k ≠ "u" → k ≠ "U" →
       keydown env st hold k = Ok (st, hold, None))
  ∧ ∃ st st' hold' pending',
      generateMazeIterative env0 st0 = Ok st
      ∧ pressKeys evs st None [] = Ok (st', hold', pending')
      ∧ deadEndsCorrect st'.
Proof.
  intros Hc Hr Hrnd0 Hevs. split_and!.
  - apply keyToDir_table.
  - intros env st hold k d Hk. apply keydown_direction. by apply keyToDir_table.
  - intros env st hold k [-> | ->]; unfold keydown; cbn;
      by destruct (undo st).
  - intros env st hold k Hk Hu HU. unfold keydown. rewrite Hk. cbn [mbind Res_bind].
    apply String.eqb_neq in Hu, HU. by rewrite Hu, HU.
  - destruct (generateMazeIterative_spec env0 st0 Hc Hr Hrnd0)
      as (st & m & Hgen & Hfresh & _).
    exists st. apply freshState_gameInv in Hfresh.
    destruct (pressKeys_gameInv evs Hevs st None [] Hfresh)
      as (st' & hold' & pending' & Hks & Hinv'); [done|constructor|].
    exists st', hold', pending'. split_and!; [done|done|]. apply Hinv'.
Qed.

Lemma keys_keep_flags_witness :
  (∀ k d, keyToDir k = Some d ↔ (k, d) ∈ keyTable)
  ∧ (∀ env st hold k d, (k, d) ∈ keyTable →
       keydown env st hold k
       = '(st', t) ← attemptMove env st d.1 d.2; Ok (st', Some d, t))
  ∧ (∀ env st hold k, k = "u" ∨ k = "U" →
       keydown env st hold k = st' ← undo st; Ok (st', hold, None))
  ∧ (∀ env st hold k, keyToDir k = None → k ≠ "u" → k ≠ "U" →
       keydown env st hold k = Ok (st, hold, None))
  ∧ ∃ st st' hold' pending',
      generateMazeIterative (envWith false) (blankState 7 7) = Ok st
      ∧ pressKeys
          [KeyDown (envDeferring false) "ArrowDown";
           HoldTick (envDeferring false);
           KeyDown (envDeferring false) "x"; KeyUp "ArrowDown";
           KeyDown (envDeferring false) "u"; HoldTick (envDeferring false);
           ViewTransition (envWith false) 0;
           KeyDown (envDeferring false) "s"] st None []
        = Ok (st', hold', pending')
      ∧ deadEndsCorrect st'.
Proof.
  apply (keys_keep_flags (envWith false) (blankState 7 7)).
  - simpl. lia.
  - simpl. lia.
  - apply rnd_ok_zero.
  - repeat first [apply Forall_nil_2 | apply Forall_cons_2];
      first [ split; [reflexivity|apply rnd_ok_zero]
            | apply rnd_ok_zero
            | exact I ].
Defined.
